(** * linked-chain: a versioned graph node and its history ledger

    Shallow embedding of [src/src/linked-chain.ts].

    The JavaScript heap is an arena: every [LinkedChain] object is a slot of
    [nodes], every [LinkedChainHistory] object a slot of [hists], and an object
    reference is the index of its slot.  [new] appends a slot, so a fresh
    reference is the current length of the arena.  Methods are computations in
    a state-and-exception monad over that arena.

    Scope of the value model: a payload [T] is a plain object whose fields hold
    primitive values (numbers are integers here, so [NaN] is outside the
    model).  On such payloads [structuredClone] returns a fresh object with the
    same fields.  The only objects the code mutates in place with
    [Object.assign] are the data and metadata of [_latest_state] and of the
    snapshot built by [rebuild_at]; both are fresh copies that no other node
    holds, so payload and metadata objects are stored by value inside the node
    that owns them. *)

From Stdlib Require Import ZArith.
From stdpp Require Import gmap strings list fin_maps.

(** ** Values *)

Inductive prim :=
  | PUndefined
  | PNull
  | PBool (b : bool)
  | PNum (z : Z)
  | PStr (s : string).

#[global] Instance prim_eq_dec : EqDecision prim.
Proof. solve_decision. Defined.

(** A payload object: own enumerable string keys to primitive values. *)
Abbreviation JsObj := (gmap string prim).

(** [obj[key]]: reading an absent key gives [undefined]. *)
Definition js_get (o : JsObj) (k : string) : prim := default PUndefined (o !! k).

(** [Object.assign(target, source)]: every own key of [source] overwrites. *)
Definition object_assign (target source : JsObj) : JsObj := source ∪ target.

(** [Object.keys(o).length > 0] *)
Definition has_keys (o : JsObj) : bool := bool_decide (0 < size o)%nat.

(** [a ?? b] on an optional field ([None] is [undefined]). *)
Definition nullish {A} (a b : option A) : option A :=
  match a with Some x => Some x | None => b end.

(** ** Metadata *)

Record Metadata := {
  md_id : option prim;
  md_title : option string;
  md_description : option string;
  md_extra : option JsObj
}.

(** [Partial<Metadata>] as [calculate_metadata_delta] builds it: only the keys
    [title] and [description] can be present; a present key may hold
    [undefined]. *)
Record MetadataDelta := {
  delta_title : option (option string);
  delta_description : option (option string)
}.

(** The literal [{ title: "", description: "", extra: {} }] of [metadata()]. *)
Definition default_metadata : Metadata :=
  {| md_id := None; md_title := Some ""%string;
     md_description := Some ""%string; md_extra := Some ∅ |}.

Definition meta_delta_keys (d : MetadataDelta) : nat :=
  ((if delta_title d is Some _ then 1 else 0)
   + (if delta_description d is Some _ then 1 else 0))%nat.

(** [Object.assign(metadata, meta_delta)] *)
Definition assign_metadata (m : Metadata) (d : MetadataDelta) : Metadata :=
  {| md_id := md_id m;
     md_title := default (md_title m) (delta_title d);
     md_description := default (md_description m) (delta_description d);
     md_extra := md_extra m |}.

(** ** Heap objects *)

Abbreviation loc := nat.   (* reference to a LinkedChain *)
Abbreviation hid := nat.   (* reference to a LinkedChainHistory *)

Record LinkedChain := {
  _origin : option loc;
  _metadata : option Metadata;
  _data : option JsObj;
  _previous : option loc;             (* null is None *)
  _next : option loc;
  _progeny : gset loc;
  _ancestors : gset loc;
  _chain_link_history : hid;
  _is_snapshot : bool
}.

Record HistoryEntry := {
  timestamp : Z;
  data_delta : option JsObj;
  metadata_delta : option MetadataDelta;
  checkpoint : option loc
}.

Record LinkedChainHistory := {
  _timeline : list HistoryEntry;
  _original_state : loc;
  _latest_state : loc;
  _saved_checkpoints : list loc
}.

(** [LinkedChainIngredients<T>].  For [parent] and [next] the outer option is
    "the key is given" and the inner one distinguishes a node from [null]. *)
Record Ingredients := {
  i_origin : option loc;
  i_parent : option (option loc);
  i_next : option (option loc);
  i_data : option JsObj;
  i_metadata : option Metadata;
  i_is_snapshot : option bool;
  i_history : option hid
}.

Definition no_ingredients : Ingredients :=
  {| i_origin := None; i_parent := None; i_next := None; i_data := None;
     i_metadata := None; i_is_snapshot := None; i_history := None |}.

Record Store := {
  nodes : list LinkedChain;
  hists : list LinkedChainHistory;
  clock : Z                           (* what Date.now() reads *)
}.

Definition empty_store : Store := {| nodes := []; hists := []; clock := 0%Z |}.

(** ** The monad: state passing with JavaScript exceptions

    A thrown exception keeps the heap as it was when it was thrown.
    [DanglingRef] is not a JavaScript error: it marks a read through an index
    that is not a slot of the arena, which live references never are. *)

Inductive exn :=
  | TypeError
  | JsError (msg : string)
  | DanglingRef.

Inductive outcome (A : Type) :=
  | Ret (a : A) (s : Store)
  | Throw (e : exn) (s : Store).
Arguments Ret {A} a s.
Arguments Throw {A} e s.

Definition M (A : Type) := Store → outcome A.

Definition ret {A} (a : A) : M A := fun s => Ret a s.
Definition throw {A} (e : exn) : M A := fun s => Throw e s.
Definition bind {A B} (m : M A) (k : A → M B) : M B :=
  fun s => match m s with
           | Ret a s' => k a s'
           | Throw e s' => Throw e s'
           end.

Declare Scope js_scope.
Delimit Scope js_scope with js.
Notation "'let*' x ':=' m 'in' k" := (bind m (fun x => k))
  (at level 10, x name, m at level 100, k at level 200) : js_scope.
Notation "m ;; k" := (bind m (fun _ => k))
  (at level 100, k at level 200, only parsing, right associativity) : js_scope.
Local Open Scope js_scope.

(** The heap an outcome ends in, whether it returned or threw. *)
Definition final {A} (o : outcome A) : Store :=
  match o with Ret _ s => s | Throw _ s => s end.

Definition get_node (l : loc) : M LinkedChain :=
  fun s => match nodes s !! l with
           | Some n => Ret n s
           | None => Throw DanglingRef s
           end.

Definition get_hist (h : hid) : M LinkedChainHistory :=
  fun s => match hists s !! h with
           | Some x => Ret x s
           | None => Throw DanglingRef s
           end.

Definition modify_node (l : loc) (f : LinkedChain → LinkedChain) : M unit :=
  let* n := get_node l in
  fun s => Ret tt {| nodes := <[l := f n]> (nodes s); hists := hists s; clock := clock s |}.

Definition modify_hist (h : hid) (f : LinkedChainHistory → LinkedChainHistory) : M unit :=
  let* x := get_hist h in
  fun s => Ret tt {| nodes := nodes s; hists := <[h := f x]> (hists s); clock := clock s |}.

Definition alloc_node (n : LinkedChain) : M loc :=
  fun s => Ret (length (nodes s))
               {| nodes := nodes s ++ [n]; hists := hists s; clock := clock s |}.

Definition alloc_hist (x : LinkedChainHistory) : M hid :=
  fun s => Ret (length (hists s))
               {| nodes := nodes s; hists := hists s ++ [x]; clock := clock s |}.

(** The reference the next [new LinkedChainHistory] will get. *)
Definition next_hist_ref : M hid := fun s => Ret (length (hists s)) s.

(** [Date.now()] *)
Definition Date_now : M Z := fun s => Ret (clock s) s.

Fixpoint for_each {A} (l : list A) (body : A → M unit) : M unit :=
  match l with
  | [] => ret tt
  | x :: l' => body x ;; for_each l' body
  end.

(** ** LinkedChain: field updates and accessors *)

Definition with_metadata (m : option Metadata) (n : LinkedChain) : LinkedChain :=
  {| _origin := _origin n; _metadata := m; _data := _data n;
     _previous := _previous n; _next := _next n; _progeny := _progeny n;
     _ancestors := _ancestors n; _chain_link_history := _chain_link_history n;
     _is_snapshot := _is_snapshot n |}.

Definition with_data (d : option JsObj) (n : LinkedChain) : LinkedChain :=
  {| _origin := _origin n; _metadata := _metadata n; _data := d;
     _previous := _previous n; _next := _next n; _progeny := _progeny n;
     _ancestors := _ancestors n; _chain_link_history := _chain_link_history n;
     _is_snapshot := _is_snapshot n |}.

Definition with_previous (p : option loc) (n : LinkedChain) : LinkedChain :=
  {| _origin := _origin n; _metadata := _metadata n; _data := _data n;
     _previous := p; _next := _next n; _progeny := _progeny n;
     _ancestors := _ancestors n; _chain_link_history := _chain_link_history n;
     _is_snapshot := _is_snapshot n |}.

Definition with_next (p : option loc) (n : LinkedChain) : LinkedChain :=
  {| _origin := _origin n; _metadata := _metadata n; _data := _data n;
     _previous := _previous n; _next := p; _progeny := _progeny n;
     _ancestors := _ancestors n; _chain_link_history := _chain_link_history n;
     _is_snapshot := _is_snapshot n |}.

(** [n._progeny.add(l)] *)
Definition progeny_add (l : loc) (n : LinkedChain) : LinkedChain :=
  {| _origin := _origin n; _metadata := _metadata n; _data := _data n;
     _previous := _previous n; _next := _next n; _progeny := {[l]} ∪ _progeny n;
     _ancestors := _ancestors n; _chain_link_history := _chain_link_history n;
     _is_snapshot := _is_snapshot n |}.

(** [n._ancestors.add(l)] *)
Definition ancestors_add (l : loc) (n : LinkedChain) : LinkedChain :=
  {| _origin := _origin n; _metadata := _metadata n; _data := _data n;
     _previous := _previous n; _next := _next n; _progeny := _progeny n;
     _ancestors := {[l]} ∪ _ancestors n;
     _chain_link_history := _chain_link_history n;
     _is_snapshot := _is_snapshot n |}.

Definition origin (this : loc) : M (option loc) :=
  let* n := get_node this in ret (_origin n).
Definition next (this : loc) : M (option loc) :=
  let* n := get_node this in ret (_next n).
Definition previous (this : loc) : M (option loc) :=
  let* n := get_node this in ret (_previous n).
Definition progeny (this : loc) : M (gset loc) :=
  let* n := get_node this in ret (_progeny n).
Definition ancestors (this : loc) : M (gset loc) :=
  let* n := get_node this in ret (_ancestors n).
Definition history (this : loc) : M hid :=
  let* n := get_node this in ret (_chain_link_history n).
Definition data (this : loc) : M (option JsObj) :=
  let* n := get_node this in ret (_data n).
Definition is_snapshot (this : loc) : M bool :=
  let* n := get_node this in ret (_is_snapshot n).

(** [metadata()]: [this._metadata ?? { title: "", description: "", extra: {} }] *)
Definition metadata (this : loc) : M Metadata :=
  let* n := get_node this in ret (default default_metadata (_metadata n)).

(** [universalClone]: on a primitive-valued payload (or [undefined]) the copy
    has the same content. *)
Definition universalClone (d : option JsObj) : option JsObj := d.

(** ** The constructor

    The constructor sets the fields, then picks the history, then registers
    the node with its neighbours.  [construct_shared] is the constructor on
    the branch [this._is_snapshot && ingredients.history], where the supplied
    history is reused; [create_snapshot_link] always calls the constructor
    with [is_snapshot: true] and [history: this], so it always takes that
    branch. *)

Definition construct_fields (ing : Ingredients) (history_to_set : hid) : M loc :=
  alloc_node
    {| _origin := i_origin ing;
       _metadata := i_metadata ing;
       _data := i_data ing;
       _previous := default None (i_parent ing);
       _next := default None (i_next ing);
       _progeny := ∅;
       _ancestors := ∅;
       _chain_link_history := history_to_set;
       _is_snapshot := default false (i_is_snapshot ing) |}.

Definition register_links (this : loc) : M unit :=
  let* p := previous this in
  match p with
  | Some prev =>
      modify_node this (ancestors_add prev) ;;
      modify_node prev (progeny_add this)
  | None => ret tt
  end ;;
  let* n := next this in
  match n with
  | Some nxt =>
      modify_node this (progeny_add nxt) ;;
      modify_node nxt (ancestors_add this)
  | None => ret tt
  end.

Definition construct_shared (ing : Ingredients) (h : hid) : M loc :=
  let* this := construct_fields ing h in
  register_links this ;;
  ret this.

(** ** LinkedChainHistory *)

Definition create_snapshot_link (this : hid) (link : loc) : M loc :=
  let* d := data link in
  let* m := metadata link in
  let* o := origin link in
  let* p := previous link in
  let* n := next link in
  construct_shared
    {| i_data := universalClone d;
       i_metadata := Some m;
       i_origin := o;
       i_parent := Some p;
       i_next := Some n;
       i_is_snapshot := Some true;
       i_history := Some this |}
    this.

Definition timeline_push (e : HistoryEntry) (x : LinkedChainHistory) : LinkedChainHistory :=
  {| _timeline := _timeline x ++ [e];
     _original_state := _original_state x;
     _latest_state := _latest_state x;
     _saved_checkpoints := _saved_checkpoints x |}.

Definition saved_checkpoints_push (c : loc) (x : LinkedChainHistory) : LinkedChainHistory :=
  {| _timeline := _timeline x;
     _original_state := _original_state x;
     _latest_state := _latest_state x;
     _saved_checkpoints := _saved_checkpoints x ++ [c] |}.

Definition add_checkpoint (this : hid) (link : loc) : M hid :=
  let* ts := Date_now in
  let* c := create_snapshot_link this link in
  modify_hist this
    (timeline_push {| timestamp := ts; data_delta := None;
                      metadata_delta := None; checkpoint := Some c |}) ;;
  ret this.

(** [new LinkedChainHistory(link)].  The object exists before its fields are
    assigned; nothing reads them until both snapshots are made, so the slot
    [this] reserved by the caller is written once they exist. *)
Definition LinkedChainHistory_new (link : loc) : M hid :=
  let* this := next_hist_ref in
  let* original := create_snapshot_link this link in
  let* latest := create_snapshot_link this link in
  let* this := alloc_hist {| _timeline := []; _original_state := original;
                             _latest_state := latest; _saved_checkpoints := [] |} in
  add_checkpoint this original.

(** [new LinkedChain(ingredients)] *)
Definition LinkedChain_new (ing : Ingredients) : M loc :=
  match (if default false (i_is_snapshot ing) then i_history ing else None) with
  | Some h => construct_shared ing h
  | None =>
      let* history_to_set := next_hist_ref in
      let* this := construct_fields ing history_to_set in
      LinkedChainHistory_new this ;;
      register_links this ;;
      ret this
  end.

Definition calculate_delta (oldObj newObj : JsObj) : JsObj :=
  filter (λ kv, kv.2 ≠ js_get oldObj kv.1) newObj.

Definition calculate_metadata_delta (old_metadata new_metadata : Metadata) : MetadataDelta :=
  {| delta_title :=
       if decide (md_title old_metadata ≠ md_title new_metadata)
       then Some (md_title new_metadata) else None;
     delta_description :=
       if decide (md_description old_metadata ≠ md_description new_metadata)
       then Some (md_description new_metadata) else None |}.

(** [Object.assign(l.data(), d)]: a [TypeError] when [l.data()] is [undefined]. *)
Definition assign_data (l : loc) (d : JsObj) : M unit :=
  let* target := data l in
  match target with
  | Some o => modify_node l (with_data (Some (object_assign o d)))
  | None => throw TypeError
  end.

(** [Object.assign(l.metadata(), d)]: when [l._metadata] is [undefined] the
    target is the throw-away default object. *)
Definition assign_meta (l : loc) (d : MetadataDelta) : M unit :=
  let* n := get_node l in
  match _metadata n with
  | Some m => modify_node l (with_metadata (Some (assign_metadata m d)))
  | None => ret tt
  end.

(** [add_entry(item)] for [item instanceof LinkedChain]. *)
Definition add_entry_link (this : hid) (item : loc) : M hid :=
  let* ts := Date_now in
  let* new_data := data item in
  let* new_meta := metadata item in
  let* x := get_hist this in
  let latest := _latest_state x in
  let* latest_data := data latest in
  let delta :=
    match new_data, latest_data with
    | Some nd, Some ld => Some (calculate_delta ld nd)
    | _, _ => None
    end in
  let* latest_meta := metadata latest in
  let meta_delta := calculate_metadata_delta latest_meta new_meta in
  (if (match delta with Some d => has_keys d | None => false end)
      || bool_decide (0 < meta_delta_keys meta_delta)%nat
   then
     modify_hist this
       (timeline_push {| timestamp := ts; data_delta := Some (default ∅ delta);
                         metadata_delta := Some meta_delta; checkpoint := None |}) ;;
     match delta with Some d => assign_data latest d | None => ret tt end ;;
     assign_meta latest meta_delta
   else ret tt) ;;
  ret this.

(** [add_entry(item)] for a raw [Partial<T>]. *)
Definition add_entry_partial (this : hid) (item : JsObj) : M hid :=
  let* ts := Date_now in
  modify_hist this
    (timeline_push {| timestamp := ts; data_delta := Some item;
                      metadata_delta := None; checkpoint := None |}) ;;
  let* x := get_hist this in
  let* latest_data := data (_latest_state x) in
  match latest_data with
  | Some _ => assign_data (_latest_state x) item
  | None => ret tt
  end ;;
  ret this.

Definition add_entry (this : hid) (item : loc + JsObj) : M hid :=
  match item with
  | inl link => add_entry_link this link
  | inr partial => add_entry_partial this partial
  end.

Definition save_checkpoint (this : hid) : M hid :=
  let* x := get_hist this in
  let* snapshot := create_snapshot_link this (_latest_state x) in
  modify_hist this (saved_checkpoints_push snapshot) ;;
  let* ts := Date_now in
  modify_hist this
    (timeline_push {| timestamp := ts; data_delta := None;
                      metadata_delta := None; checkpoint := Some snapshot |}) ;;
  ret this.

Definition timeline (this : hid) : M (list HistoryEntry) :=
  let* x := get_hist this in ret (_timeline x).

(** The backward scan of [rebuild_at]: from [i] down to [0], the first entry
    that carries a checkpoint, with its index. *)
Fixpoint nearest_checkpoint (tl : list HistoryEntry) (i : nat) : option (nat * loc) :=
  match tl !! i ≫= checkpoint with
  | Some c => Some (i, c)
  | None =>
      match i with
      | O => None
      | S i' => nearest_checkpoint tl i'
      end
  end.

(** The body of the replay loop of [rebuild_at]. *)
Definition replay_entry (tl : list HistoryEntry) (baselink : loc) (i : nat) : M unit :=
  match tl !! i with
  | Some entry =>
      match data_delta entry with
      | Some d => assign_data baselink d
      | None => ret tt
      end ;;
      match metadata_delta entry with
      | Some md => assign_meta baselink md
      | None => ret tt
      end
  | None => ret tt
  end.

(** [rebuild_at(index)]; [None] is [undefined].  Neither loop writes the
    timeline, which is read once. *)
Definition rebuild_at (this : hid) (index : Z) : M (option loc) :=
  let* x := get_hist this in
  let tl := _timeline x in
  if (index <? 0)%Z || (Z.of_nat (length tl) <=? index)%Z then ret None
  else
    let idx := Z.to_nat index in
    let found := nearest_checkpoint tl idx in
    let* baselink :=
      match found with
      | Some (_, c) => create_snapshot_link this c
      | None => create_snapshot_link this (_original_state x)
      end in
    let start := match found with Some (jumpIdx, _) => S jumpIdx | None => O end in
    for_each (seq start (S idx - start)) (replay_entry tl baselink) ;;
    ret (Some baselink).

(** The forward loop of [delta_between_points]: [Object.assign(delta, ...)]
    for [i = from, from + 1, ...], [count] times. *)
Fixpoint accumulate_deltas (tl : list HistoryEntry) (from : nat) (count : nat)
    (delta : JsObj) : JsObj :=
  match count with
  | O => delta
  | S count' =>
      let delta' :=
        match tl !! from ≫= data_delta with
        | Some d => object_assign delta d
        | None => delta
        end in
      accumulate_deltas tl (S from) count' delta'
  end.

Definition delta_between_points (this : hid) (start end_ : Z) : M JsObj :=
  let* x := get_hist this in
  let tl := _timeline x in
  if (start <? 0)%Z || (Z.of_nat (length tl) <=? end_)%Z then ret ∅
  else if (start <? end_)%Z then
    ret (accumulate_deltas tl (Z.to_nat (start + 1)) (Z.to_nat (end_ - start)) ∅)
  else ret ∅.

(** ** LinkedChain: mutation and linking *)

Definition add_link (this link : loc) : M loc :=
  modify_node this (progeny_add link) ;;
  modify_node link (ancestors_add this) ;;
  let* h := history this in
  add_entry_link h link ;;
  ret link.

(** The object literal shared by [update] and [update_metadata]. *)
Definition merge_metadata (new_metadata current : Metadata) : Metadata :=
  {| md_id := nullish (md_id new_metadata) (md_id current);
     md_title := nullish (md_title new_metadata) (md_title current);
     md_description := nullish (md_description new_metadata) (md_description current);
     md_extra := nullish (md_extra new_metadata) (md_extra current) |}.

Definition update_metadata (this : loc) (new_metadata : Metadata) : M loc :=
  let* current := metadata this in
  modify_node this (with_metadata (Some (merge_metadata new_metadata current))) ;;
  let* h := history this in
  add_entry_link h this ;;
  ret this.

Definition set_next (this : loc) (new_link : option loc) (record_history : bool) : M loc :=
  modify_node this (with_next new_link) ;;
  match new_link with
  | Some l =>
      modify_node this (progeny_add l) ;;
      modify_node l (ancestors_add this)
  | None => ret tt
  end ;;
  (if record_history
   then let* h := history this in add_entry_link h this ;; ret tt
   else ret tt) ;;
  ret this.

Definition set_previous (this : loc) (new_link : option loc) (record_history : bool) : M loc :=
  modify_node this (with_previous new_link) ;;
  match new_link with
  | Some l =>
      modify_node this (ancestors_add l) ;;
      modify_node l (progeny_add this)
  | None => ret tt
  end ;;
  (if record_history
   then let* h := history this in add_entry_link h this ;; ret tt
   else ret tt) ;;
  ret this.

Definition update (this : loc) (d : Ingredients) : M loc :=
  match i_metadata d with
  | Some m => update_metadata this m ;; ret tt
  | None => ret tt
  end ;;
  match i_metadata d with
  | Some m =>
      let* current := metadata this in
      modify_node this (with_metadata (Some (merge_metadata m current)))
  | None => ret tt
  end ;;
  match i_data d with
  | Some x => modify_node this (with_data (Some x))
  | None => ret tt
  end ;;
  match i_next d with
  | Some l => set_next this l false ;; ret tt
  | None => ret tt
  end ;;
  match i_parent d with
  | Some l => set_previous this l false ;; ret tt
  | None => ret tt
  end ;;
  let* h := history this in
  add_entry_link h this ;;
  ret this.

Definition link_next (this chain_to_link : loc) : M loc :=
  let* cur_next := next this in
  set_previous chain_to_link (Some this) false ;;
  set_next chain_to_link cur_next false ;;
  set_next this (Some chain_to_link) true ;;
  let* h1 := history chain_to_link in
  let* h2 := history this in
  (if decide (h1 ≠ h2) then add_entry_link h1 chain_to_link ;; ret tt else ret tt) ;;
  ret this.

Definition link_previous (this chain_to_link : loc) : M loc :=
  let* cur_prev := previous this in
  match cur_prev with
  | Some p => set_next p (Some chain_to_link) true ;; ret tt
  | None => ret tt
  end ;;
  set_previous chain_to_link cur_prev false ;;
  set_next chain_to_link (Some this) false ;;
  set_previous this (Some chain_to_link) true ;;
  let* h1 := history chain_to_link in
  let* h2 := history this in
  (if decide (h1 ≠ h2) then add_entry_link h1 chain_to_link ;; ret tt else ret tt) ;;
  ret this.

Definition new_next_link (this : loc) (payload : JsObj) (md : option Metadata) : M loc :=
  let* o := origin this in
  let* n := next this in
  let* new_link :=
    LinkedChain_new
      {| i_data := Some payload; i_metadata := md;
         i_origin := Some (default this o);
         i_parent := Some (Some this); i_next := Some n;
         i_is_snapshot := None; i_history := None |} in
  link_next this new_link ;;
  ret new_link.

Definition new_previous_link (this : loc) (payload : JsObj) (md : option Metadata) : M loc :=
  let* o := origin this in
  let* p := previous this in
  let* new_link :=
    LinkedChain_new
      {| i_data := Some payload; i_metadata := md;
         i_origin := Some (default this o);
         i_parent := Some p; i_next := Some (Some this);
         i_is_snapshot := None; i_history := None |} in
  link_previous this new_link ;;
  ret new_link.

Definition revert_to_history (this : loc) (index : Z) : M loc :=
  let* h := history this in
  let* state := rebuild_at h index in
  match state with
  | Some s =>
      let* d := data s in
      modify_node this (with_data d) ;;
      let* m := metadata s in
      modify_node this (with_metadata (Some m)) ;;
      add_entry_link h this ;;
      ret tt
  | None => ret tt
  end ;;
  ret this.

(** The template literal [`${title}`]: an absent title prints as the word
    undefined. *)
Definition title_text (t : option string) : string := default "undefined"%string t.

Definition branch_metadata (m : Metadata) : Metadata :=
  {| md_id := md_id m;
     md_title := Some (title_text (md_title m) +:+ " (Branch)")%string;
     md_description := md_description m;
     md_extra := md_extra m |}.

Definition branch_from_history (this : loc) (index : Z) : M loc :=
  let* h := history this in
  let* state := rebuild_at h index in
  match state with
  | None => throw (JsError "Invalid history index")
  | Some s =>
      let* d := data s in
      let* m := metadata s in
      let* o := origin this in
      let* branch :=
        LinkedChain_new
          {| i_data := d; i_metadata := Some (branch_metadata m);
             i_origin := Some (default this o);
             i_parent := None; i_next := None;
             i_is_snapshot := None; i_history := None |} in
      add_entry_link h branch ;;
      ret branch
  end.

(** ** Traversal

    [iterate(direction)] is a generator; the list is what a consumer that
    runs it to the end receives.  The [while] loop has no bound of its own, so
    the model takes fuel: [None] means the fuel ran out before the loop left. *)

Inductive direction := Dprevious | Dnext.

(** [current.next()] or [current.previous()], per [direction]. *)
Definition step (s : Store) (dir : direction) (current : loc) : option loc :=
  n ← nodes s !! current;
  match dir with Dnext => _next n | Dprevious => _previous n end.

Fixpoint iterate_loop (fuel : nat) (s : Store) (dir : direction) (this : loc)
    (current : option loc) : option (list loc) :=
  match current with
  | None => Some []
  | Some c =>
      match fuel with
      | O => None
      | S fuel' =>
          let current' := step s dir c in
          if decide (current' = Some this) then Some [c]
          else cons c <$> iterate_loop fuel' s dir this current'
      end
  end.

Definition iterate (fuel : nat) (s : Store) (this : loc) (dir : direction) : option (list loc) :=
  iterate_loop fuel s dir this (step s dir this).

(** [ancestor_path()] and [progeny_path()]: the array a [for ... of] over the
    generator fills, nearest node first. *)
Definition ancestor_path (fuel : nat) (s : Store) (this : loc) : option (list loc) :=
  iterate fuel s this Dprevious.

Definition progeny_path (fuel : nat) (s : Store) (this : loc) : option (list loc) :=
  iterate fuel s this Dnext.

(** One [for (const node of this.iterate(direction))] loop of [find]: the
    generator is resumed only while the predicate has failed, so the loop
    leaves at the first match.  [Some None] is a generator that ended without
    a match; [None] is fuel that ran out. *)
Fixpoint find_loop (fuel : nat) (s : Store) (dir : direction) (this : loc)
    (predicate : loc → bool) (current : option loc) : option (option loc) :=
  match current with
  | None => Some None
  | Some c =>
      match fuel with
      | O => None
      | S fuel' =>
          if predicate c then Some (Some c)
          else
            let current' := step s dir c in
            if decide (current' = Some this) then Some None
            else find_loop fuel' s dir this predicate current'
      end
  end.

(** [find(predicate)]; the inner [None] is [undefined]. *)
Definition find (fuel : nat) (s : Store) (this : loc) (predicate : loc → bool)
    : option (option loc) :=
  if predicate this then Some (Some this)
  else
    match find_loop fuel s Dnext this predicate (step s Dnext this) with
    | None => None
    | Some (Some node) => Some (Some node)
    | Some None => find_loop fuel s Dprevious this predicate (step s Dprevious this)
    end.

(** The loop of [has_circular_link] (tortoise and hare), from a position of
    the two pointers.  [tortoise!.next()] on [null] is a [TypeError];
    [tortoise === hare] also holds when both are [null]. *)
Fixpoint has_circular_link_loop (fuel : nat) (s : Store) (tortoise hare : option loc)
    : option (exn + bool) :=
  match hare with
  | None => Some (inr false)
  | Some h =>
      match step s Dnext h with
      | None => Some (inr false)
      | Some h1 =>
          match fuel with
          | O => None
          | S fuel' =>
              match tortoise with
              | None => Some (inl TypeError)
              | Some t =>
                  let tortoise' := step s Dnext t in
                  let hare' := step s Dnext h1 in
                  if decide (tortoise' = hare') then Some (inr true)
                  else has_circular_link_loop fuel' s tortoise' hare'
              end
          end
      end
  end.

Definition has_circular_link (fuel : nat) (s : Store) (this : loc) : option (exn + bool) :=
  has_circular_link_loop fuel s (Some this) (Some this).

(** [final_ancestor_and_progeny()]: the last node of each path, or [this] for
    an empty path. *)
Definition final_ancestor_and_progeny (fuel : nat) (s : Store) (this : loc)
    : option (loc * loc) :=
  ancestors ← ancestor_path fuel s this;
  progeny ← progeny_path fuel s this;
  Some (default this (last ancestors), default this (last progeny)).

(** [connected_links()]: a breadth-first walk over the ancestors and progeny
    sets.  A JavaScript [Set] is iterated in insertion order, which the sets
    of the model do not keep: [order] is the order in which a set is
    iterated, and the walk is defined for any.  [visit_neighbor] is the body
    of the inner loop, on the pair of [all] and [queue]. *)
Definition visit_neighbor (acc : gset loc * list loc) (neighbor : loc)
    : gset loc * list loc :=
  if decide (neighbor ∈ acc.1) then acc
  else ({[neighbor]} ∪ acc.1, acc.2 ++ [neighbor]).

(** [[...current.ancestors(), ...current.progeny()]] *)
Definition neighbors_of (order : gset loc → list loc) (s : Store) (current : loc)
    : list loc :=
  match nodes s !! current with
  | Some n => order (_ancestors n) ++ order (_progeny n)
  | None => []
  end.

Fixpoint connected_links_loop (order : gset loc → list loc) (fuel : nat) (s : Store)
    (all : gset loc) (queue : list loc) : option (gset loc) :=
  match queue with
  | [] => Some all
  | current :: rest =>
      match fuel with
      | O => None
      | S fuel' =>
          let acc := foldl visit_neighbor (all, rest) (neighbors_of order s current) in
          connected_links_loop order fuel' s acc.1 acc.2
      end
  end.

Definition connected_links (order : gset loc → list loc) (fuel : nat) (s : Store)
    (this : loc) : option (gset loc) :=
  connected_links_loop order fuel s {[this]} [this].

(** * Reasoning rules

    [preserves R m]: however [m] ends, by returning or by throwing, the heap
    it ends in is [R]-related to the heap it started from. *)

Definition preserves {A} (R : relation Store) (m : M A) : Prop :=
  ∀ s, R s (final (m s)).

Section preserves_rules.
Context (R : relation Store) `{!PreOrder R}.

Lemma preserves_ret {A} (a : A) : preserves R (ret a).
Proof. intros s. simpl. reflexivity. Qed.

Lemma preserves_throw {A} (e : exn) : preserves R (@throw A e).
Proof. intros s. simpl. reflexivity. Qed.

Lemma preserves_bind {A B} (m : M A) (k : A → M B) :
  preserves R m → (∀ a, preserves R (k a)) → preserves R (bind m k).
Proof.
  intros Hm Hk s. unfold bind. specialize (Hm s).
  destruct (m s) as [a s'|e s']; simpl in *; [|done].
  etrans; [exact Hm|apply Hk].
Qed.

Lemma preserves_next_hist_ref : preserves R next_hist_ref.
Proof. intros s. simpl. reflexivity. Qed.

Lemma preserves_get_node l : preserves R (get_node l).
Proof. intros s. unfold get_node. destruct (nodes s !! l); simpl; reflexivity. Qed.

Lemma preserves_get_hist h : preserves R (get_hist h).
Proof. intros s. unfold get_hist. destruct (hists s !! h); simpl; reflexivity. Qed.

Lemma preserves_Date_now : preserves R Date_now.
Proof. intros s. simpl. reflexivity. Qed.

Lemma preserves_for_each {A} (l : list A) (body : A → M unit) :
  (∀ x, preserves R (body x)) → preserves R (for_each l body).
Proof.
  intros Hb. induction l as [|x l IH]; simpl.
  - apply preserves_ret.
  - apply preserves_bind; [apply Hb|done].
Qed.
End preserves_rules.

(** Breaks a goal [preserves R m] down along the structure of [m]; [leaf]
    closes the primitive steps. *)
Ltac preserves_step leaf :=
  lazymatch goal with
  | |- PreOrder _ => apply _
  | |- preserves _ (bind _ _) => apply preserves_bind; [..|intros ?]
  | |- preserves _ (ret _) => apply preserves_ret
  | |- preserves _ (throw _) => apply preserves_throw
  | |- preserves _ (get_node _) => apply preserves_get_node
  | |- preserves _ (get_hist _) => apply preserves_get_hist
  | |- preserves _ Date_now => apply preserves_Date_now
  | |- preserves _ next_hist_ref => apply preserves_next_hist_ref
  | |- preserves _ (for_each _ _) => apply preserves_for_each; [..|intros ?]
  | |- preserves _ (let _ := _ in _) => cbv zeta
  | |- preserves _ (match ?x with _ => _ end) => destruct x
  | |- preserves _ (if ?x then _ else _) => destruct x
  | |- _ => leaf
  end.
Ltac preserves_go leaf := repeat (preserves_step leaf).

(** ** The ancestor and progeny sets only grow *)

(** Every node of [s] is still a node of [s'], and both of its sets are
    supersets of what they were. *)
Definition sets_grow (s s' : Store) : Prop :=
  ∀ l n, nodes s !! l = Some n →
    ∃ n', nodes s' !! l = Some n'
          ∧ _progeny n ⊆ _progeny n' ∧ _ancestors n ⊆ _ancestors n'.

#[global] Instance sets_grow_preorder : PreOrder sets_grow.
Proof.
  split.
  - intros s l n Hn. eauto.
  - intros s1 s2 s3 H12 H23 l n Hn.
    destruct (H12 l n Hn) as (n2 & Hn2 & Hp & Ha).
    destruct (H23 l n2 Hn2) as (n3 & Hn3 & Hp' & Ha').
    exists n3. split; [done|]. split; set_solver.
Qed.

(** A field update that removes nothing from either set. *)
Definition keeps_sets (f : LinkedChain → LinkedChain) : Prop :=
  ∀ n, _progeny n ⊆ _progeny (f n) ∧ _ancestors n ⊆ _ancestors (f n).

Lemma keeps_sets_with_metadata m : keeps_sets (with_metadata m).
Proof. intros n. done. Qed.
Lemma keeps_sets_with_data d : keeps_sets (with_data d).
Proof. intros n. done. Qed.
Lemma keeps_sets_with_previous p : keeps_sets (with_previous p).
Proof. intros n. done. Qed.
Lemma keeps_sets_with_next p : keeps_sets (with_next p).
Proof. intros n. done. Qed.
Lemma keeps_sets_progeny_add l : keeps_sets (progeny_add l).
Proof. intros n. simpl. split; set_solver. Qed.
Lemma keeps_sets_ancestors_add l : keeps_sets (ancestors_add l).
Proof. intros n. simpl. split; set_solver. Qed.

Create HintDb grow discriminated.
#[export] Hint Resolve keeps_sets_with_metadata keeps_sets_with_data
  keeps_sets_with_previous keeps_sets_with_next keeps_sets_progeny_add
  keeps_sets_ancestors_add : grow.

Lemma grow_modify_node l f : keeps_sets f → preserves sets_grow (modify_node l f).
Proof.
  intros Hf s. unfold modify_node, bind, get_node.
  destruct (nodes s !! l) as [n|] eqn:Hl; simpl; [|reflexivity].
  intros l' n' Hn'. simpl.
  destruct (decide (l = l')) as [->|Hne].
  - exists (f n). rewrite list_lookup_insert_eq by (by eapply lookup_lt_Some).
    split; [done|]. rewrite Hl in Hn'. injection Hn' as <-. apply Hf.
  - exists n'. by rewrite list_lookup_insert_ne.
Qed.

Lemma grow_modify_hist h f : preserves sets_grow (modify_hist h f).
Proof.
  intros s. unfold modify_hist, bind, get_hist.
  destruct (hists s !! h); simpl; [|reflexivity].
  intros l' n Hn. simpl. eauto.
Qed.

Lemma grow_alloc_node n : preserves sets_grow (alloc_node n).
Proof.
  intros s l n' Hn'. simpl. exists n'.
  split; [by apply lookup_app_l_Some|done].
Qed.

Lemma grow_alloc_hist x : preserves sets_grow (alloc_hist x).
Proof. intros s l n Hn. simpl. eauto. Qed.

#[export] Hint Resolve grow_modify_node grow_modify_hist grow_alloc_node
  grow_alloc_hist : grow.

Ltac grow_leaf := solve [eauto with grow].
Ltac grow := preserves_go grow_leaf.

Lemma grow_register_links this : preserves sets_grow (register_links this).
Proof. unfold register_links, previous, next. grow. Qed.
#[export] Hint Resolve grow_register_links : grow.

Lemma grow_construct_shared ing h : preserves sets_grow (construct_shared ing h).
Proof. unfold construct_shared, construct_fields. grow. Qed.
#[export] Hint Resolve grow_construct_shared : grow.

Lemma grow_create_snapshot_link h link :
  preserves sets_grow (create_snapshot_link h link).
Proof. unfold create_snapshot_link, data, metadata, origin, previous, next. grow. Qed.
#[export] Hint Resolve grow_create_snapshot_link : grow.

Lemma grow_add_checkpoint h link : preserves sets_grow (add_checkpoint h link).
Proof. unfold add_checkpoint. grow. Qed.
#[export] Hint Resolve grow_add_checkpoint : grow.

Lemma grow_LinkedChainHistory_new link :
  preserves sets_grow (LinkedChainHistory_new link).
Proof. unfold LinkedChainHistory_new. grow. Qed.
#[export] Hint Resolve grow_LinkedChainHistory_new : grow.

Lemma grow_LinkedChain_new ing : preserves sets_grow (LinkedChain_new ing).
Proof.
  unfold LinkedChain_new, construct_fields.
  destruct (if default false (i_is_snapshot ing) then i_history ing else None).
  - eauto with grow.
  - grow.
Qed.
#[export] Hint Resolve grow_LinkedChain_new : grow.

Lemma grow_assign_data l d : preserves sets_grow (assign_data l d).
Proof. unfold assign_data, data. grow. Qed.
Lemma grow_assign_meta l d : preserves sets_grow (assign_meta l d).
Proof. unfold assign_meta. grow. Qed.
#[export] Hint Resolve grow_assign_data grow_assign_meta : grow.

Lemma grow_add_entry_link h item : preserves sets_grow (add_entry_link h item).
Proof. unfold add_entry_link, data, metadata. grow. Qed.
#[export] Hint Resolve grow_add_entry_link : grow.

Lemma grow_rebuild_at h index : preserves sets_grow (rebuild_at h index).
Proof. unfold rebuild_at, replay_entry. grow. Qed.
#[export] Hint Resolve grow_rebuild_at : grow.

Lemma grow_set_next this l r : preserves sets_grow (set_next this l r).
Proof. unfold set_next, history. grow. Qed.
Lemma grow_set_previous this l r : preserves sets_grow (set_previous this l r).
Proof. unfold set_previous, history. grow. Qed.
#[export] Hint Resolve grow_set_next grow_set_previous : grow.

Lemma grow_update_metadata this m : preserves sets_grow (update_metadata this m).
Proof. unfold update_metadata, history, metadata. grow. Qed.
#[export] Hint Resolve grow_update_metadata : grow.

Lemma grow_update this d : preserves sets_grow (update this d).
Proof. unfold update, history, metadata. grow. Qed.

Lemma grow_link_next this l : preserves sets_grow (link_next this l).
Proof. unfold link_next, history, next. grow. Qed.

Lemma grow_link_previous this l : preserves sets_grow (link_previous this l).
Proof. unfold link_previous, history, previous. grow. Qed.

Lemma grow_add_link this l : preserves sets_grow (add_link this l).
Proof. unfold add_link, history. grow. Qed.

Lemma grow_revert_to_history this i : preserves sets_grow (revert_to_history this i).
Proof. unfold revert_to_history, history, data, metadata. grow. Qed.

Lemma grow_branch_from_history this i : preserves sets_grow (branch_from_history this i).
Proof. unfold branch_from_history, history, data, metadata, origin. grow. Qed.

(** * Running the primitives

    Equations for the heap primitives on references that are slots. *)

Definition set_nodes (ns : list LinkedChain) (s : Store) : Store :=
  {| nodes := ns; hists := hists s; clock := clock s |}.

Definition set_hists (hs : list LinkedChainHistory) (s : Store) : Store :=
  {| nodes := nodes s; hists := hs; clock := clock s |}.

Lemma set_nodes_id s : set_nodes (nodes s) s = s.
Proof. by destruct s. Qed.

Lemma set_nodes_set_nodes ns ns' s : set_nodes ns (set_nodes ns' s) = set_nodes ns s.
Proof. done. Qed.

Lemma nodes_set_nodes ns s : nodes (set_nodes ns s) = ns.
Proof. done. Qed.

Lemma hists_set_nodes ns s : hists (set_nodes ns s) = hists s.
Proof. done. Qed.

Lemma get_node_eq s l n : nodes s !! l = Some n → get_node l s = Ret n s.
Proof. intros H. unfold get_node. by rewrite H. Qed.

Lemma get_hist_eq s h x : hists s !! h = Some x → get_hist h s = Ret x s.
Proof. intros H. unfold get_hist. by rewrite H. Qed.

Lemma insert_as_alter {A} (f : A → A) (l : list A) i x :
  l !! i = Some x → <[i := f x]> l = alter f i l.
Proof.
  intros H. apply list_eq. intros j.
  destruct (decide (i = j)) as [->|Hne].
  - rewrite list_lookup_insert_eq by (by eapply lookup_lt_Some).
    rewrite list_lookup_alter_eq, H. done.
  - rewrite list_lookup_insert_ne, list_lookup_alter_ne; done.
Qed.

Lemma modify_node_eq s l f :
  l < length (nodes s) →
  modify_node l f s = Ret tt (set_nodes (alter f l (nodes s)) s).
Proof.
  intros Hl. destruct (lookup_lt_is_Some_2 _ _ Hl) as [n Hn].
  unfold modify_node, bind. rewrite (get_node_eq _ _ _ Hn).
  unfold set_nodes. by rewrite (insert_as_alter f _ _ _ Hn).
Qed.

Lemma modify_hist_eq s h f :
  h < length (hists s) →
  modify_hist h f s = Ret tt (set_hists (alter f h (hists s)) s).
Proof.
  intros Hl. destruct (lookup_lt_is_Some_2 _ _ Hl) as [x Hx].
  unfold modify_hist, bind. rewrite (get_hist_eq _ _ _ Hx).
  unfold set_hists. by rewrite (insert_as_alter f _ _ _ Hx).
Qed.

(** A projection that a field update leaves alone reads the same through
    [alter]. *)
Lemma lookup_alter_proj {B} (proj : LinkedChain → B) f (ns : list LinkedChain) l l' :
  (∀ n, proj (f n) = proj n) →
  proj <$> alter f l ns !! l' = proj <$> ns !! l'.
Proof.
  intros Hf. destruct (decide (l = l')) as [->|Hne].
  - rewrite list_lookup_alter_eq. destruct (ns !! l'); simpl; [|done]. by rewrite Hf.
  - by rewrite list_lookup_alter_ne.
Qed.

(** * Index validation (claim C5) *)


(** * Cumulative deltas (claim C6) *)

(** The specification's wording: the union of the data deltas of a run of
    entries, taken in forward order, a later write to a field winning. *)
Definition union_last_write_wins (entries : list HistoryEntry) : JsObj :=
  foldl (λ acc e, match data_delta e with Some d => d ∪ acc | None => acc end)
        ∅ entries.

(** The entries at indices [start + 1] through [end_] inclusive. *)
Definition entries_after_through (tl : list HistoryEntry) (start end_ : nat)
    : list HistoryEntry :=
  take (end_ - start) (drop (S start) tl).

Lemma accumulate_deltas_foldl tl from count acc :
  from + count ≤ length tl →
  accumulate_deltas tl from count acc
  = foldl (λ acc e, match data_delta e with Some d => d ∪ acc | None => acc end)
          acc (take count (drop from tl)).
Proof.
  revert from acc. induction count as [|count IH]; intros from acc Hlen; simpl.
  - done.
  - destruct (lookup_lt_is_Some_2 tl from) as [e He]; [lia|].
    rewrite (drop_S _ _ _ He). simpl. rewrite He. simpl.
    rewrite IH by lia. done.
Qed.

(** A later entry overrides an earlier one field by field. *)
Lemma union_last_write_wins_snoc entries e k :
  union_last_write_wins (entries ++ [e]) !! k
  = match data_delta e ≫= (.!! k) with
    | Some v => Some v
    | None => union_last_write_wins entries !! k
    end.
Proof.
  unfold union_last_write_wins. rewrite foldl_snoc.
  destruct (data_delta e) as [d|]; simpl; [|done].
  rewrite lookup_union. destruct (d !! k) as [v|] eqn:Hd.
  - apply union_Some_l.
  - apply (left_id None _).
Qed.

(** C6.  With [start] and [end_] inside the timeline, [delta_between_points]
    returns the last-write-wins union, in forward order, of the data deltas
    of the entries at indices [start + 1 .. end_] when [end_ > start], and the
    empty delta when [end_ <= start]. *)
Theorem delta_between_points_spec s h x (start end_ : Z) :
  hists s !! h = Some x →
  (0 ≤ start < Z.of_nat (length (_timeline x)))%Z →
  (0 ≤ end_ < Z.of_nat (length (_timeline x)))%Z →
  delta_between_points h start end_ s
  = Ret (if decide (start < end_)%Z
         then union_last_write_wins
                (entries_after_through (_timeline x) (Z.to_nat start) (Z.to_nat end_))
         else ∅) s.
Proof.
  intros Hx Hs He. unfold delta_between_points, bind.
  rewrite (get_hist_eq _ _ _ Hx).
  replace (start <? 0)%Z with false by (symmetry; apply Z.ltb_ge; lia).
  replace (Z.of_nat (length (_timeline x)) <=? end_)%Z with false
    by (symmetry; apply Z.leb_gt; lia).
  simpl. destruct (decide (start < end_)%Z) as [Hlt|Hge].
  - replace (start <? end_)%Z with true by (symmetry; apply Z.ltb_lt; lia).
    unfold ret. f_equal. rewrite accumulate_deltas_foldl by lia.
    unfold union_last_write_wins, entries_after_through.
    replace (Z.to_nat (start + 1)) with (S (Z.to_nat start)) by lia.
    replace (Z.to_nat (end_ - start)) with (Z.to_nat end_ - Z.to_nat start) by lia.
    done.
  - replace (start <? end_)%Z with false by (symmetry; apply Z.ltb_ge; lia).
    done.
Qed.

(** * Traversal ends (claim C9) *)

(** The node [k] pointer hops away from [start]; [None] once the chain has
    run into [null]. *)
Fixpoint walk (s : Store) (dir : direction) (k : nat) (start : option loc) : option loc :=
  match k with
  | O => start
  | S k' => walk s dir k' (start ≫= step s dir)
  end.

Lemma walk_None s dir k : walk s dir k None = None.
Proof. induction k; simpl; done. Qed.

(** From any position other than the start, the loop leaves as soon as the
    chain reaches [null] or the start, and the start is not among the nodes
    it yields. *)
Lemma iterate_loop_ends s dir this m :
  ∀ fuel cur,
    m ≤ fuel →
    cur ≠ Some this →
    walk s dir m cur = None ∨ walk s dir m cur = Some this →
    ∃ l, iterate_loop fuel s dir this cur = Some l ∧ this ∉ l.
Proof.
  induction m as [|m IH]; intros fuel cur Hfuel Hcur Hend; simpl in Hend.
  - destruct Hend as [->|?]; [|done].
    exists []. split; [by destruct fuel|]. apply not_elem_of_nil.
  - destruct cur as [c|]; simpl in Hend.
    + destruct fuel as [|fuel]; [lia|]. simpl.
      destruct (decide (step s dir c = Some this)) as [Hback|Hon].
      * exists [c]. split; [done|]. apply not_elem_of_cons. split; [congruence|].
        apply not_elem_of_nil.
      * destruct (IH fuel (step s dir c)) as (l & Hl & Hnot); [lia|done|done|].
        exists (c :: l). rewrite Hl. split; [done|].
        apply not_elem_of_cons. split; [congruence|done].
    + exists []. split; [by destruct fuel|]. apply not_elem_of_nil.
Qed.

(** C9, as the code has it.  When the pointer chain of [this] reaches [null]
    or comes back to [this] within [k] hops, [iterate] with fuel [k] ends with
    a finite list.  The start is not in the list, except when the very first
    hop already is the start ([this.next() === this]): the guard is tested
    only after a node has been yielded, so a self-loop yields the start
    once. *)
Theorem iterate_finite s this dir k :
  1 ≤ k →
  walk s dir k (Some this) = None ∨ walk s dir k (Some this) = Some this →
  ∃ l, iterate k s this dir = Some l
       ∧ (step s dir this ≠ Some this → this ∉ l)
       ∧ (step s dir this = Some this → l = [this]).
Proof.
  intros Hk Hend. destruct k as [|k]; [lia|]. simpl in Hend.
  unfold iterate.
  destruct (decide (step s dir this = Some this)) as [Hself|Hother].
  - exists [this]. rewrite Hself. simpl. rewrite Hself.
    rewrite decide_True by done. done.
  - destruct (iterate_loop_ends s dir this k (S k) (step s dir this))
      as (l & Hl & Hnot); [lia|done|done|].
    exists l. done.
Qed.

(** * Well-formed heaps

    Every reference stored in the heap is a slot of its arena.  Heaps built
    through the constructor and the methods are of this kind; the methods
    never meet [DanglingRef] on them. *)

Definition valid_ref (s : Store) (o : option loc) : Prop :=
  match o with Some l => l < length (nodes s) | None => True end.

Definition node_ok (s : Store) (n : LinkedChain) : Prop :=
  _chain_link_history n < length (hists s)
  ∧ valid_ref s (_previous n)
  ∧ valid_ref s (_next n).

Definition hist_ok (s : Store) (x : LinkedChainHistory) : Prop :=
  _latest_state x < length (nodes s)
  ∧ _original_state x < length (nodes s)
  ∧ Forall (λ e, valid_ref s (checkpoint e)) (_timeline x).

Definition wf (s : Store) : Prop :=
  Forall (node_ok s) (nodes s) ∧ Forall (hist_ok s) (hists s).

#[global] Instance valid_ref_dec s o : Decision (valid_ref s o).
Proof. destruct o; simpl; apply _. Defined.
#[global] Instance node_ok_dec s n : Decision (node_ok s n).
Proof. unfold node_ok. apply _. Defined.
#[global] Instance hist_ok_dec s x : Decision (hist_ok s x).
Proof. unfold hist_ok. apply _. Defined.
#[global] Instance wf_dec s : Decision (wf s).
Proof. unfold wf. apply _. Defined.

Lemma wf_node s l n : wf s → nodes s !! l = Some n → node_ok s n.
Proof. intros [Hn _] Hl. by eapply Forall_lookup_1. Qed.

Lemma wf_hist s h x : wf s → hists s !! h = Some x → hist_ok s x.
Proof. intros [_ Hh] Hl. by eapply Forall_lookup_1. Qed.

(** ** What [add_entry] does to the heap *)

(** [metadata()] of a node value. *)
Definition metadata_of (n : LinkedChain) : Metadata :=
  default default_metadata (_metadata n).

(** The data delta [add_entry] computes for [item] against [latest]; [None]
    is the [null] of the source. *)
Definition data_delta_of (item latest : LinkedChain) : option JsObj :=
  match _data item, _data latest with
  | Some nd, Some ld => Some (calculate_delta ld nd)
  | _, _ => None
  end.

Definition meta_delta_of (item latest : LinkedChain) : MetadataDelta :=
  calculate_metadata_delta (metadata_of latest) (metadata_of item).

(** The guard of the [push] in [add_entry]. *)
Definition records (item latest : LinkedChain) : bool :=
  match data_delta_of item latest with Some d => has_keys d | None => false end
  || bool_decide (0 < meta_delta_keys (meta_delta_of item latest)).

(** [Object.assign(n.data(), d)] and [Object.assign(n.metadata(), md)] on a
    node value. *)
Definition data_assigned (d : JsObj) (n : LinkedChain) : LinkedChain :=
  with_data ((λ o, object_assign o d) <$> _data n) n.

Definition meta_assigned (md : MetadataDelta) (n : LinkedChain) : LinkedChain :=
  with_metadata ((λ m, assign_metadata m md) <$> _metadata n) n.

(** The two [Object.assign] calls of [add_entry] on [_latest_state]. *)
Definition absorb (delta : option JsObj) (md : MetadataDelta) (n : LinkedChain)
    : LinkedChain :=
  meta_assigned md (match delta with Some d => data_assigned d n | None => n end).

Definition entry_of (ts : Z) (item latest : LinkedChain) : HistoryEntry :=
  {| timestamp := ts;
     data_delta := Some (default ∅ (data_delta_of item latest));
     metadata_delta := Some (meta_delta_of item latest);
     checkpoint := None |}.

(** Symbolic execution: rewrite the next primitive whose reference is known
    to be a slot, then reduce the [match] on its outcome. *)
Ltac exec_step :=
  first
    [ erewrite get_node_eq by (simpl; eassumption)
    | erewrite get_hist_eq by (simpl; eassumption)
    | rewrite modify_node_eq
        by (simpl; rewrite ?length_alter, ?length_app; simpl; first [eassumption|lia])
    | rewrite modify_hist_eq
        by (simpl; rewrite ?length_alter, ?length_app; simpl; first [eassumption|lia]) ];
  cbv beta iota.
Ltac exec := repeat exec_step.

Lemma assign_data_eq s l n o d :
  nodes s !! l = Some n → _data n = Some o →
  assign_data l d s = Ret tt (set_nodes (alter (data_assigned d) l (nodes s)) s).
Proof.
  intros Hl Ho. assert (l < length (nodes s)) by (by eapply lookup_lt_Some).
  unfold assign_data, data, bind, ret. exec. rewrite Ho. exec.
  f_equal. f_equal. apply list_alter_ext; [|done].
  intros n' Hn'. rewrite Hl in Hn'. injection Hn' as <-.
  unfold data_assigned. by rewrite Ho.
Qed.

Lemma assign_data_undefined s l n d :
  nodes s !! l = Some n → _data n = None →
  assign_data l d s = Throw TypeError s.
Proof.
  intros Hl Ho. unfold assign_data, data, bind, ret. exec. by rewrite Ho.
Qed.

Lemma with_own_fields n : with_metadata (_metadata n) n = n.
Proof. by destruct n. Qed.

Lemma assign_meta_eq s l n md :
  nodes s !! l = Some n →
  assign_meta l md s = Ret tt (set_nodes (alter (meta_assigned md) l (nodes s)) s).
Proof.
  intros Hl. assert (l < length (nodes s)) by (by eapply lookup_lt_Some).
  unfold assign_meta, bind, ret. exec.
  destruct (_metadata n) as [m|] eqn:Hm; exec.
  - f_equal. f_equal. apply list_alter_ext; [|done].
    intros n' Hn'. rewrite Hl in Hn'. injection Hn' as <-.
    unfold meta_assigned. by rewrite Hm.
  - f_equal. rewrite <- (set_nodes_id s) at 1. f_equal.
    symmetry. rewrite <- (list_alter_id id (nodes s) l) at 2 by done.
    apply list_alter_ext; [|done].
    intros n' Hn'. rewrite Hl in Hn'. injection Hn' as <-.
    unfold meta_assigned. rewrite Hm. simpl. rewrite <- Hm. apply with_own_fields.
Qed.

Lemma add_entry_link_eq s h item ni x nl :
  nodes s !! item = Some ni →
  hists s !! h = Some x →
  nodes s !! _latest_state x = Some nl →
  add_entry_link h item s
  = Ret h (if records ni nl
           then {| nodes := alter (absorb (data_delta_of ni nl) (meta_delta_of ni nl))
                                  (_latest_state x) (nodes s);
                   hists := alter (timeline_push (entry_of (clock s) ni nl)) h (hists s);
                   clock := clock s |}
           else s).
Proof.
  intros Hi Hx Hl.
  assert (_latest_state x < length (nodes s)) as Hlt by (by eapply lookup_lt_Some).
  assert (h < length (hists s)) as Hht by (by eapply lookup_lt_Some).
  unfold add_entry_link, data, metadata, bind, Date_now, ret. exec.
  fold (metadata_of ni) (metadata_of nl) (data_delta_of ni nl) (meta_delta_of ni nl).
  fold (records ni nl).
  destruct (records ni nl); [|done].
  exec. fold (entry_of (clock s) ni nl).
  destruct (data_delta_of ni nl) as [d|] eqn:Hd.
  - assert (∃ o, _data nl = Some o) as [o Ho].
    { unfold data_delta_of in Hd. destruct (_data ni), (_data nl); naive_solver. }
    erewrite assign_data_eq by (simpl; eassumption). cbv beta iota.
    erewrite assign_meta_eq; last first.
    { simpl. rewrite list_lookup_alter_eq, Hl. done. }
    cbv beta iota. simpl. unfold set_nodes, set_hists. simpl.
    by rewrite list_alter_alter_eq.
  - erewrite assign_meta_eq by (simpl; eassumption). done.
Qed.

(** ** What the pointer setters do to the heap *)

(** [set_next(new_link, false)] on the node list. *)
Definition next_linked (this : loc) (new_link : option loc) (ns : list LinkedChain)
    : list LinkedChain :=
  match new_link with
  | Some l =>
      alter (ancestors_add this) l
        (alter (progeny_add l) this (alter (with_next new_link) this ns))
  | None => alter (with_next None) this ns
  end.

(** [set_previous(new_link, false)] on the node list. *)
Definition previous_linked (this : loc) (new_link : option loc) (ns : list LinkedChain)
    : list LinkedChain :=
  match new_link with
  | Some l =>
      alter (progeny_add this) l
        (alter (ancestors_add l) this (alter (with_previous new_link) this ns))
  | None => alter (with_previous None) this ns
  end.

Lemma length_next_linked this nl ns : length (next_linked this nl ns) = length ns.
Proof. destruct nl; simpl; by rewrite !length_alter. Qed.

Lemma length_previous_linked this nl ns : length (previous_linked this nl ns) = length ns.
Proof. destruct nl; simpl; by rewrite !length_alter. Qed.

Lemma set_next_quiet_eq s this nl :
  this < length (nodes s) → valid_ref s nl →
  set_next this nl false s = Ret this (set_nodes (next_linked this nl (nodes s)) s).
Proof.
  intros Hthis Hnl. unfold set_next, bind, ret. exec.
  destruct nl as [l|]; simpl in *; exec; done.
Qed.

Lemma set_previous_quiet_eq s this nl :
  this < length (nodes s) → valid_ref s nl →
  set_previous this nl false s
  = Ret this (set_nodes (previous_linked this nl (nodes s)) s).
Proof.
  intros Hthis Hnl. unfold set_previous, bind, ret. exec.
  destruct nl as [l|]; simpl in *; exec; done.
Qed.

(** The fields of a node other than its payload and metadata. *)
Definition links_of (n : LinkedChain) :=
  (_origin n, _previous n, _next n, _progeny n, _ancestors n,
   _chain_link_history n, _is_snapshot n).

(** The two snapshot references of a history. *)
Definition states_of (x : LinkedChainHistory) := (_original_state x, _latest_state x).

(** Same nodes with the same links, same histories with the same snapshot
    references: only payloads, metadata and timelines may differ. *)
Definition same_links (s s' : Store) : Prop :=
  links_of <$> nodes s' = links_of <$> nodes s
  ∧ states_of <$> hists s' = states_of <$> hists s.

Lemma fmap_alter_unchanged {A B} (g : A → B) (f : A → A) (l : list A) i :
  (∀ x, g (f x) = g x) → g <$> alter f i l = g <$> l.
Proof.
  intros Hf. apply list_eq. intros j. rewrite !list_lookup_fmap.
  destruct (decide (i = j)) as [->|Hne].
  - rewrite list_lookup_alter_eq. destruct (l !! j); simpl; [|done]. by rewrite Hf.
  - by rewrite list_lookup_alter_ne.
Qed.

Lemma add_entry_link_same_links s h item ni x nl :
  nodes s !! item = Some ni →
  hists s !! h = Some x →
  nodes s !! _latest_state x = Some nl →
  ∃ s', add_entry_link h item s = Ret h s' ∧ same_links s s'.
Proof.
  intros Hi Hx Hl. rewrite (add_entry_link_eq _ _ _ _ _ _ Hi Hx Hl).
  eexists. split; [done|]. destruct (records ni nl); [|done].
  split; simpl.
  - apply fmap_alter_unchanged. intros n. by destruct (data_delta_of ni nl).
  - apply fmap_alter_unchanged. done.
Qed.

Lemma same_links_lookup s s' l n :
  same_links s s' → nodes s !! l = Some n →
  ∃ n', nodes s' !! l = Some n' ∧ links_of n' = links_of n.
Proof.
  intros [Hn _] Hl.
  assert ((links_of <$> nodes s') !! l = Some (links_of n)) as H.
  { rewrite Hn, list_lookup_fmap, Hl. done. }
  rewrite list_lookup_fmap in H.
  destruct (nodes s' !! l) as [n'|]; simpl in H; [|done].
  exists n'. split; [done|congruence].
Qed.

Lemma same_links_hist s s' h x :
  same_links s s' → hists s !! h = Some x →
  ∃ x', hists s' !! h = Some x' ∧ states_of x' = states_of x.
Proof.
  intros [_ Hh] Hl.
  assert ((states_of <$> hists s') !! h = Some (states_of x)) as H.
  { rewrite Hh, list_lookup_fmap, Hl. done. }
  rewrite list_lookup_fmap in H.
  destruct (hists s' !! h) as [x'|]; simpl in H; [|done].
  exists x'. split; [done|congruence].
Qed.

Lemma same_links_trans s1 s2 s3 : same_links s1 s2 → same_links s2 s3 → same_links s1 s3.
Proof. intros [? ?] [? ?]. split; congruence. Qed.

Lemma set_next_record_eq s this nl :
  this < length (nodes s) → valid_ref s nl →
  set_next this nl true s
  = (let* h := history this in add_entry_link h this ;; ret this)
      (set_nodes (next_linked this nl (nodes s)) s).
Proof.
  intros Hthis Hnl. unfold set_next, bind, ret. exec.
  destruct nl as [l|]; simpl in *; exec.
  - destruct (history this _) as [h s1|]; [|done].
    destruct (add_entry_link h this s1); done.
  - destruct (history this _) as [h s1|]; [|done].
    destruct (add_entry_link h this s1); done.
Qed.

Section linked_lookups.
Context (ns : list LinkedChain) (this : loc) (nl : option loc).

Lemma next_linked_proj {B} (proj : LinkedChain → B) l :
  (∀ p n, proj (with_next p n) = proj n) →
  (∀ p n, proj (progeny_add p n) = proj n) →
  (∀ p n, proj (ancestors_add p n) = proj n) →
  proj <$> next_linked this nl ns !! l = proj <$> ns !! l.
Proof.
  intros H1 H2 H3. unfold next_linked. destruct nl.
  - rewrite (lookup_alter_proj proj) by done.
    rewrite (lookup_alter_proj proj) by done.
    by rewrite (lookup_alter_proj proj).
  - by rewrite (lookup_alter_proj proj).
Qed.

Lemma previous_linked_proj {B} (proj : LinkedChain → B) l :
  (∀ p n, proj (with_previous p n) = proj n) →
  (∀ p n, proj (progeny_add p n) = proj n) →
  (∀ p n, proj (ancestors_add p n) = proj n) →
  proj <$> previous_linked this nl ns !! l = proj <$> ns !! l.
Proof.
  intros H1 H2 H3. unfold previous_linked. destruct nl.
  - rewrite (lookup_alter_proj proj) by done.
    rewrite (lookup_alter_proj proj) by done.
    by rewrite (lookup_alter_proj proj).
  - by rewrite (lookup_alter_proj proj).
Qed.

Lemma next_linked_next :
  this < length ns → _next <$> next_linked this nl ns !! this = Some nl.
Proof.
  intros Hlt. destruct (lookup_lt_is_Some_2 _ _ Hlt) as [n Hn].
  unfold next_linked. destruct nl.
  - rewrite (lookup_alter_proj _next) by done.
    rewrite (lookup_alter_proj _next) by done.
    by rewrite list_lookup_alter_eq, Hn.
  - by rewrite list_lookup_alter_eq, Hn.
Qed.

Lemma previous_linked_previous :
  this < length ns → _previous <$> previous_linked this nl ns !! this = Some nl.
Proof.
  intros Hlt. destruct (lookup_lt_is_Some_2 _ _ Hlt) as [n Hn].
  unfold previous_linked. destruct nl.
  - rewrite (lookup_alter_proj _previous) by done.
    rewrite (lookup_alter_proj _previous) by done.
    by rewrite list_lookup_alter_eq, Hn.
  - by rewrite list_lookup_alter_eq, Hn.
Qed.
End linked_lookups.

Lemma next_linked_progeny ns this l :
  this < length ns →
  ∃ P, _progeny <$> next_linked this (Some l) ns !! this = Some P ∧ l ∈ P.
Proof.
  intros Hlt. unfold next_linked.
  rewrite (lookup_alter_proj _progeny) by done.
  rewrite list_lookup_alter_eq.
  destruct (lookup_lt_is_Some_2 (alter (with_next (Some l)) this ns) this) as [n Hn];
    [by rewrite length_alter|].
  rewrite Hn. simpl. eexists. split; [done|]. set_solver.
Qed.

Lemma next_linked_ancestors ns this l :
  l < length ns →
  ∃ P, _ancestors <$> next_linked this (Some l) ns !! l = Some P ∧ this ∈ P.
Proof.
  intros Hlt. unfold next_linked. rewrite list_lookup_alter_eq.
  destruct (lookup_lt_is_Some_2
              (alter (progeny_add l) this (alter (with_next (Some l)) this ns)) l)
    as [n Hn]; [by rewrite !length_alter|].
  rewrite Hn. simpl. eexists. split; [done|]. set_solver.
Qed.

(** * Bidirectional linking (claim C7) *)

(** C7.  On a well-formed heap, for any two nodes [a] and [b] (equal or not),
    [a.link_next(b)] returns and afterwards [a.next() === b],
    [b.previous() === a], [b] is in [a.progeny()] and [a] is in
    [b.ancestors()]. *)
Theorem link_next_bidirectional s a b :
  wf s → a < length (nodes s) → b < length (nodes s) →
  ∃ s' na nb,
    link_next a b s = Ret a s'
    ∧ nodes s' !! a = Some na ∧ nodes s' !! b = Some nb
    ∧ _next na = Some b ∧ _previous nb = Some a
    ∧ b ∈ _progeny na ∧ a ∈ _ancestors nb.
Proof.
  intros Hwf Ha Hb.
  destruct (lookup_lt_is_Some_2 _ _ Ha) as [na0 Hna0].
  destruct (lookup_lt_is_Some_2 _ _ Hb) as [nb0 Hnb0].
  destruct (wf_node _ _ _ Hwf Hna0) as (Hha & _ & Hcur).
  destruct (wf_node _ _ _ Hwf Hnb0) as (Hhb & _ & _).
  destruct (lookup_lt_is_Some_2 _ _ Hha) as [xa Hxa].
  destruct (lookup_lt_is_Some_2 _ _ Hhb) as [xb Hxb].
  destruct (wf_hist _ _ _ Hwf Hxa) as (Hla & _ & _).
  destruct (wf_hist _ _ _ Hwf Hxb) as (Hlb & _ & _).
  set (ns1 := previous_linked b (Some a) (nodes s)).
  set (ns2 := next_linked b (_next na0) ns1).
  set (ns3 := next_linked a (Some b) ns2).
  assert (length ns3 = length (nodes s)) as Hlen.
  { unfold ns3, ns2, ns1.
    by rewrite !length_next_linked, length_previous_linked. }
  (* the heap after the three pointer updates *)
  assert (∀ l, _chain_link_history <$> ns3 !! l = _chain_link_history <$> nodes s !! l)
    as Hhist.
  { intros l. unfold ns3, ns2, ns1.
    rewrite !(next_linked_proj _ _ _ _chain_link_history) by done.
    by rewrite (previous_linked_proj _ _ _ _chain_link_history). }
  assert (_next <$> ns3 !! a = Some (Some b)) as Hnext.
  { apply next_linked_next. unfold ns2, ns1.
    by rewrite length_next_linked, length_previous_linked. }
  assert (_previous <$> ns3 !! b = Some (Some a)) as Hprev.
  { unfold ns3, ns2. rewrite !(next_linked_proj _ _ _ _previous) by done.
    by apply previous_linked_previous. }
  destruct (next_linked_progeny ns2 a b) as (P & HP & HbP).
  { unfold ns2, ns1. by rewrite length_next_linked, length_previous_linked. }
  destruct (next_linked_ancestors ns2 a b) as (Q & HQ & HaQ).
  { unfold ns2, ns1. by rewrite length_next_linked, length_previous_linked. }
  fold ns3 in HP, HQ.
  destruct (lookup_lt_is_Some_2 ns3 a) as [na3 Hna3]; [lia|].
  destruct (lookup_lt_is_Some_2 ns3 b) as [nb3 Hnb3]; [lia|].
  destruct (lookup_lt_is_Some_2 ns3 (_latest_state xa)) as [la3 Hla3]; [lia|].
  pose proof (Hhist a) as Hhista. rewrite Hna3, Hna0 in Hhista.
  injection Hhista as Hhista.
  pose proof (Hhist b) as Hhistb. rewrite Hnb3, Hnb0 in Hhistb.
  injection Hhistb as Hhistb.
  rewrite Hna3 in Hnext, HP. rewrite Hnb3 in Hprev, HQ.
  injection Hnext as Hnext. injection Hprev as Hprev.
  injection HP as <-. injection HQ as <-.
  (* run the method *)
  unfold link_next, next, bind, ret. exec.
  rewrite set_previous_quiet_eq by done. cbv beta iota. fold ns1.
  rewrite set_next_quiet_eq
    by (unfold valid_ref in *; rewrite nodes_set_nodes; unfold ns1;
        rewrite length_previous_linked; done).
  cbv beta iota. rewrite nodes_set_nodes, set_nodes_set_nodes. fold ns2.
  rewrite set_next_record_eq
    by (unfold valid_ref in *; rewrite nodes_set_nodes; unfold ns2, ns1;
        rewrite length_next_linked, length_previous_linked; done).
  rewrite nodes_set_nodes, set_nodes_set_nodes. fold ns3.
  set (s3 := set_nodes ns3 s).
  assert (nodes s3 = ns3) as Hs3n by done.
  assert (hists s3 = hists s) as Hs3h by done.
  destruct (add_entry_link_same_links s3 (_chain_link_history na0) a na3 xa la3)
    as (s4 & Hrun4 & Hsame4); [by rewrite Hs3n|by rewrite Hs3h|by rewrite Hs3n|].
  assert (nodes s3 !! a = Some na3) as Hna3' by done.
  unfold history, bind, ret. exec. rewrite Hhista, Hrun4. cbv beta iota.
  destruct (same_links_lookup _ _ _ _ Hsame4 Hna3) as (na4 & Hna4 & Hla4).
  destruct (same_links_lookup _ _ _ _ Hsame4 Hnb3) as (nb4 & Hnb4 & Hlb4).
  exec.
  assert (_chain_link_history nb4 = _chain_link_history nb0) as -> by
    (unfold links_of in Hlb4; congruence).
  assert (_chain_link_history na4 = _chain_link_history na0) as -> by
    (unfold links_of in Hla4; congruence).
  destruct (decide (_chain_link_history nb0 ≠ _chain_link_history na0)) as [Hne|Heq].
  - destruct (same_links_hist s3 _ _ _ Hsame4 Hxb) as (xb4 & Hxb4 & Hst4).
    assert (_latest_state xb4 = _latest_state xb) as Hlatest by
      (unfold states_of in Hst4; congruence).
    destruct (lookup_lt_is_Some_2 ns3 (_latest_state xb)) as [lb3 Hlb3]; [lia|].
    destruct (same_links_lookup _ _ _ _ Hsame4 Hlb3) as (lb4 & Hlb4' & _).
    destruct (add_entry_link_same_links s4 (_chain_link_history nb0) b nb4 xb4 lb4)
      as (s5 & Hrun5 & Hsame5); [done|done|by rewrite Hlatest|].
    rewrite Hrun5. cbv beta iota.
    destruct (same_links_lookup _ _ _ _ Hsame5 Hna4) as (na5 & Hna5 & Hla5).
    destruct (same_links_lookup _ _ _ _ Hsame5 Hnb4) as (nb5 & Hnb5 & Hlb5).
    exists s5, na5, nb5. unfold links_of in *.
    repeat split; try done; congruence.
  - exists s4, na4, nb4. unfold links_of in *.
    repeat split; try done; congruence.
Qed.

(** * The sets are monotonic (claim C8) *)

(** A call of one of the public mutators. *)
Inductive public_op :=
  | Call_set_next (this : loc) (new_link : option loc) (record_history : bool)
  | Call_set_previous (this : loc) (new_link : option loc) (record_history : bool)
  | Call_update (this : loc) (d : Ingredients)
  | Call_link_next (this chain_to_link : loc)
  | Call_link_previous (this chain_to_link : loc)
  | Call_add_link (this link : loc)
  | Call_revert_to_history (this : loc) (index : Z)
  | Call_branch_from_history (this : loc) (index : Z).

(** The heap after the call; a caller that catches an exception goes on with
    the heap as the throw left it. *)
Definition call (o : public_op) (s : Store) : Store :=
  match o with
  | Call_set_next this l r => final (set_next this l r s)
  | Call_set_previous this l r => final (set_previous this l r s)
  | Call_update this d => final (update this d s)
  | Call_link_next this l => final (link_next this l s)
  | Call_link_previous this l => final (link_previous this l s)
  | Call_add_link this l => final (add_link this l s)
  | Call_revert_to_history this i => final (revert_to_history this i s)
  | Call_branch_from_history this i => final (branch_from_history this i s)
  end.

Definition calls (ops : list public_op) (s : Store) : Store :=
  foldl (λ s o, call o s) s ops.

Lemma call_grows o s : sets_grow s (call o s).
Proof.
  destruct o; simpl.
  - apply grow_set_next.
  - apply grow_set_previous.
  - apply grow_update.
  - apply grow_link_next.
  - apply grow_link_previous.
  - apply grow_add_link.
  - apply grow_revert_to_history.
  - apply grow_branch_from_history.
Qed.

Lemma calls_grow ops s : sets_grow s (calls ops s).
Proof.
  revert s. induction ops as [|o ops IH]; intros s; simpl.
  - reflexivity.
  - etrans; [apply call_grows|apply IH].
Qed.

(** C8.  Over any sequence of public operations, on any heap, every node
    keeps every element of its [ancestors] and [progeny] sets: what was a
    member before the sequence is a member after it.  In particular
    re-pointing [next] or [previous] leaves the old neighbour in the sets on
    both sides. *)
Theorem ancestors_progeny_monotonic ops s l n :
  nodes s !! l = Some n →
  ∃ n', nodes (calls ops s) !! l = Some n'
        ∧ _progeny n ⊆ _progeny n' ∧ _ancestors n ⊆ _ancestors n'.
Proof. intros Hn. by apply calls_grow. Qed.

(** * No-op suppression (claim C4) *)

(** [_latest_state] is in step with a node: same title, same description,
    and, when both hold data, the same value in every field the node has. *)
Definition in_step (item latest : LinkedChain) : Prop :=
  md_title (metadata_of latest) = md_title (metadata_of item)
  ∧ md_description (metadata_of latest) = md_description (metadata_of item)
  ∧ ∀ d ld, _data item = Some d → _data latest = Some ld →
      ∀ k v, d !! k = Some v → js_get ld k = v.

Lemma has_keys_false o : has_keys o = false ↔ o = ∅.
Proof.
  unfold has_keys. rewrite bool_decide_eq_false.
  rewrite <- map_size_empty_iff. lia.
Qed.

Lemma calculate_delta_empty oldObj newObj :
  calculate_delta oldObj newObj = ∅
  ↔ ∀ k v, newObj !! k = Some v → js_get oldObj k = v.
Proof.
  unfold calculate_delta. rewrite map_empty_filter. unfold map_Forall.
  split.
  - intros H k v Hk. specialize (H k v Hk). simpl in H.
    destruct (decide (v = js_get oldObj k)); [done|]. by destruct H.
  - intros H k v Hk. simpl. specialize (H k v Hk). congruence.
Qed.

Lemma meta_delta_keys_zero old new :
  meta_delta_keys (calculate_metadata_delta old new) = 0
  ↔ md_title old = md_title new ∧ md_description old = md_description new.
Proof.
  unfold meta_delta_keys, calculate_metadata_delta. simpl.
  destruct (decide (md_title old ≠ md_title new)) as [Ht|Ht];
    destruct (decide (md_description old ≠ md_description new)) as [Hd|Hd];
    simpl; split; try lia; try tauto.
  intros _. split; apply dec_stable; done.
Qed.

(** [add_entry] records nothing exactly when [_latest_state] is in step. *)
Lemma records_false_iff item latest : records item latest = false ↔ in_step item latest.
Proof.
  unfold records, in_step, meta_delta_of, data_delta_of.
  rewrite orb_false_iff, bool_decide_eq_false.
  assert (¬ 0 < meta_delta_keys (calculate_metadata_delta (metadata_of latest) (metadata_of item))
          ↔ meta_delta_keys (calculate_metadata_delta (metadata_of latest) (metadata_of item)) = 0)
    as -> by lia.
  rewrite meta_delta_keys_zero.
  destruct (_data item) as [d|], (_data latest) as [ld|];
    try (split; [intros (_ & ? & ?); repeat split; try done; intros; congruence
                |intros (? & ? & _); done]).
  rewrite has_keys_false, calculate_delta_empty.
  split.
  - intros (H & ? & ?). repeat split; try done.
    intros ? ? [= <-] [= <-]. done.
  - intros (? & ? & H). repeat split; try done. by eapply H.
Qed.

(** [update({ data: p })]: ingredients with only the [data] key. *)
Definition data_only (p : JsObj) : Ingredients :=
  {| i_origin := None; i_parent := None; i_next := None; i_data := Some p;
     i_metadata := None; i_is_snapshot := None; i_history := None |}.


Lemma update_data_only_eq s this p :
  this < length (nodes s) →
  update this (data_only p) s
  = (let* h := history this in add_entry_link h this ;; ret this)
      (set_nodes (alter (with_data (Some p)) this (nodes s)) s).
Proof.
  intros Hthis. unfold update, data_only, bind, ret. simpl. exec. done.
Qed.


(** ** A concrete lineage used by the examples below *)

Definition value_obj (z : Z) : JsObj := {["value"%string := PNum z]}.

Definition titled (t : string) : Metadata :=
  {| md_id := None; md_title := Some t; md_description := None; md_extra := None |}.

(** [new LinkedChain({ data: { value: 0 }, metadata: { title: "Root" } })] on
    the empty heap: the node is reference [0], its history is history [0],
    and the snapshots [_original_state], [_latest_state] and the checkpoint
    of entry [0] are references [1], [2] and [3]. *)
Definition root_store : Store :=
  final (LinkedChain_new
           {| i_origin := None; i_parent := None; i_next := None;
              i_data := Some (value_obj 0); i_metadata := Some (titled "Root");
              i_is_snapshot := None; i_history := None |}
           empty_store).

Definition timeline_of (s : Store) (h : hid) : list HistoryEntry :=
  from_option _timeline [] (hists s !! h).

Definition data_at (s : Store) (l : loc) : option JsObj := nodes s !! l ≫= _data.


(** * Snapshots and replay: what [rebuild_at] computes *)

(** Everything in a node except its two sets. *)
Definition core_of (n : LinkedChain) :=
  (_origin n, _metadata n, _data n, _previous n, _next n,
   _chain_link_history n, _is_snapshot n).

(** Nodes keep everything but their sets; histories and the clock are as they
    were. *)
Definition same_core (s s' : Store) : Prop :=
  core_of <$> nodes s' = core_of <$> nodes s
  ∧ hists s' = hists s ∧ clock s' = clock s.

#[global] Instance same_core_preorder : PreOrder same_core.
Proof.
  split.
  - intros s. done.
  - intros s1 s2 s3 (? & ? & ?) (? & ? & ?). repeat split; congruence.
Qed.

Lemma same_core_modify_node l f :
  (∀ n, core_of (f n) = core_of n) → preserves same_core (modify_node l f).
Proof.
  intros Hf s. unfold modify_node, bind, get_node.
  destruct (nodes s !! l) as [n|] eqn:Hl; simpl; [|done].
  split; simpl; [|done].
  rewrite (insert_as_alter f _ _ _ Hl). by apply fmap_alter_unchanged.
Qed.

Lemma same_core_register_links this : preserves same_core (register_links this).
Proof.
  unfold register_links, previous, next.
  preserves_go ltac:(solve [by apply same_core_modify_node]).
Qed.

(** The node [create_snapshot_link] builds from [n], before it is registered
    with its neighbours. *)
Definition snapshot_of (h : hid) (n : LinkedChain) : LinkedChain :=
  {| _origin := _origin n; _metadata := Some (metadata_of n);
     _data := universalClone (_data n);
     _previous := _previous n; _next := _next n;
     _progeny := ∅; _ancestors := ∅;
     _chain_link_history := h; _is_snapshot := true |}.

Lemma create_snapshot_link_eq s h link n :
  nodes s !! link = Some n →
  create_snapshot_link h link s
  = (register_links (length (nodes s)) ;; ret (length (nodes s)))
      (set_nodes (nodes s ++ [snapshot_of h n]) s).
Proof.
  intros Hn.
  unfold create_snapshot_link, data, metadata, origin, previous, next, bind, ret.
  exec. unfold construct_shared, construct_fields, bind, alloc_node, ret.
  done.
Qed.

(** If [create_snapshot_link] returns, its result is the fresh reference, and
    the heap is the old one with the snapshot appended, up to the sets. *)
Lemma create_snapshot_link_core s h link n :
  nodes s !! link = Some n →
  match create_snapshot_link h link s with
  | Ret b s' =>
      b = length (nodes s)
      ∧ hists s' = hists s ∧ clock s' = clock s
      ∧ core_of <$> nodes s' = (core_of <$> nodes s) ++ [core_of (snapshot_of h n)]
  | Throw _ _ => True
  end.
Proof.
  intros Hn. rewrite (create_snapshot_link_eq _ _ _ _ Hn). unfold bind, ret.
  match goal with |- context [register_links ?b ?s1] =>
    pose proof (same_core_register_links b s1) as (Hc & Hh & Hk);
    destruct (register_links b s1) as [[] s2|]; [|done]
  end.
  simpl in *. repeat split; [done..|].
  rewrite Hc, fmap_app. done.
Qed.

Definition core_data {A B C D E F G} (c : A * B * C * D * E * F * G) : C :=
  c.1.1.1.1.2.

Lemma data_from_core (ns : list LinkedChain) : _data <$> ns = core_data <$> (core_of <$> ns).
Proof. rewrite <- list_fmap_compose. done. Qed.

(** If [create_snapshot_link] returns, every older node holds the data it
    held, and the new node holds the data of [link]. *)
Lemma create_snapshot_link_data s h link :
  match create_snapshot_link h link s with
  | Ret b s' =>
      b = length (nodes s)
      ∧ hists s' = hists s
      ∧ _data <$> nodes s' = (_data <$> nodes s) ++ [data_at s link]
  | Throw _ _ => True
  end.
Proof.
  destruct (nodes s !! link) as [n|] eqn:Hn.
  - pose proof (create_snapshot_link_core s h link n Hn) as H.
    destruct (create_snapshot_link h link s) as [b s'|]; [|done].
    destruct H as (-> & Hh & _ & Hc). repeat split; [done|].
    rewrite !data_from_core, Hc, fmap_app. unfold data_at. by rewrite Hn.
  - unfold create_snapshot_link, data, bind, get_node. by rewrite Hn.
Qed.

(** One step of the replay on the data of the base. *)
Definition replay_step (acc : option JsObj) (e : HistoryEntry) : option JsObj :=
  match data_delta e with
  | Some d => (λ o, object_assign o d) <$> acc
  | None => acc
  end.

Lemma data_at_alter s f l l' :
  data_at (set_nodes (alter f l (nodes s)) s) l'
  = if decide (l = l') then nodes s !! l ≫= (λ n, _data (f n)) else data_at s l'.
Proof.
  unfold data_at. simpl. case_decide as Hll.
  - subst. rewrite list_lookup_alter_eq. by destruct (nodes s !! l').
  - by rewrite list_lookup_alter_ne.
Qed.

Lemma assign_data_post s l d :
  match assign_data l d s with
  | Ret _ s' =>
      hists s' = hists s
      ∧ (∀ l', l' ≠ l → data_at s' l' = data_at s l')
      ∧ data_at s' l = (λ o, object_assign o d) <$> data_at s l
      ∧ is_Some (data_at s l)
  | Throw _ _ => True
  end.
Proof.
  destruct (nodes s !! l) as [n|] eqn:Hn.
  - destruct (_data n) as [o|] eqn:Ho.
    + rewrite (assign_data_eq _ _ _ _ _ Hn Ho). repeat split.
      * intros l' Hne. rewrite data_at_alter. by rewrite decide_False.
      * rewrite data_at_alter, decide_True by done.
        unfold data_at. rewrite Hn. simpl. by rewrite Ho.
      * unfold data_at. rewrite Hn. simpl. by rewrite Ho.
    + by rewrite (assign_data_undefined _ _ _ _ Hn Ho).
  - unfold assign_data, data, bind, get_node. by rewrite Hn.
Qed.

Lemma assign_meta_post s l md :
  match assign_meta l md s with
  | Ret _ s' => hists s' = hists s ∧ ∀ l', data_at s' l' = data_at s l'
  | Throw _ _ => True
  end.
Proof.
  destruct (nodes s !! l) as [n|] eqn:Hn.
  - rewrite (assign_meta_eq _ _ _ _ Hn). split; [done|].
    intros l'. rewrite data_at_alter. case_decide; [|done].
    subst. unfold data_at. rewrite Hn. done.
  - unfold assign_meta, bind, get_node. by rewrite Hn.
Qed.

Lemma replay_entry_post tl b i s :
  match replay_entry tl b i s with
  | Ret _ s' =>
      hists s' = hists s
      ∧ (∀ l, l ≠ b → data_at s' l = data_at s l)
      ∧ data_at s' b = from_option (replay_step (data_at s b)) (data_at s b) (tl !! i)
  | Throw _ _ => True
  end.
Proof.
  unfold replay_entry. destruct (tl !! i) as [e|]; simpl; [|done].
  unfold bind, replay_step.
  destruct (data_delta e) as [d|].
  - pose proof (assign_data_post s b d) as Hd.
    destruct (assign_data b d s) as [[] s1|]; [|done].
    destruct Hd as (Hh1 & Hother1 & Hb1 & _).
    destruct (metadata_delta e) as [md|].
    + pose proof (assign_meta_post s1 b md) as Hm.
      destruct (assign_meta b md s1) as [[] s2|]; [|done].
      destruct Hm as (Hh2 & Hd2). repeat split; [congruence| |].
      * intros l Hl. rewrite Hd2. by apply Hother1.
      * by rewrite Hd2.
    + done.
  - unfold ret. destruct (metadata_delta e) as [md|]; [|done].
    pose proof (assign_meta_post s b md) as Hm.
    destruct (assign_meta b md s) as [[] s2|]; [|done].
    destruct Hm as (Hh2 & Hd2). repeat split; [done| |].
    + intros l _. by rewrite Hd2.
    + by rewrite Hd2.
Qed.

(** The entries at the indices [is], where one exists. *)
Definition entries_at (tl : list HistoryEntry) (idxs : list nat) : list HistoryEntry :=
  omap (λ i, tl !! i) idxs.

Lemma replay_loop_post tl b idxs s :
  match for_each idxs (replay_entry tl b) s with
  | Ret _ s' =>
      hists s' = hists s
      ∧ (∀ l, l ≠ b → data_at s' l = data_at s l)
      ∧ data_at s' b = foldl replay_step (data_at s b) (entries_at tl idxs)
  | Throw _ _ => True
  end.
Proof.
  revert s. induction idxs as [|i idxs IH]; intros s; simpl; [done|].
  unfold bind. pose proof (replay_entry_post tl b i s) as H1.
  destruct (replay_entry tl b i s) as [[] s1|]; [|done].
  destruct H1 as (Hh1 & Ho1 & Hb1).
  specialize (IH s1). destruct (for_each idxs (replay_entry tl b) s1) as [[] s2|]; [|done].
  destruct IH as (Hh2 & Ho2 & Hb2). repeat split; [congruence| |].
  - intros l Hl. rewrite Ho2 by done. by apply Ho1.
  - rewrite Hb2, Hb1. unfold entries_at. simpl.
    destruct (tl !! i); done.
Qed.

(** Where the replay of [rebuild_at] for index [idx] starts: the snapshot it
    copies and the first index it replays. *)
Definition replay_base (x : LinkedChainHistory) (idx : nat) : loc * nat :=
  match nearest_checkpoint (_timeline x) idx with
  | Some (jumpIdx, c) => (c, S jumpIdx)
  | None => (_original_state x, 0)
  end.

Lemma nearest_checkpoint_Some tl i j c :
  nearest_checkpoint tl i = Some (j, c) →
  j ≤ i ∧ ∃ e, tl !! j = Some e ∧ checkpoint e = Some c.
Proof.
  induction i as [|i IH]; simpl.
  - destruct (tl !! 0) as [e|] eqn:He; simpl.
    + destruct (checkpoint e) eqn:Hc; [|done].
      intros [= <- <-]. split; [done|]. eauto.
    + done.
  - destruct (tl !! S i) as [e|] eqn:He; simpl.
    + destruct (checkpoint e) eqn:Hc.
      * intros [= <- <-]. split; [done|]. eauto.
      * intros H. destruct (IH H) as [? ?]. split; [lia|done].
    + intros H. destruct (IH H) as [? ?]. split; [lia|done].
Qed.

Lemma data_at_fmap s l : data_at s l = (_data <$> nodes s) !! l ≫= id.
Proof. unfold data_at. rewrite list_lookup_fmap. by destruct (nodes s !! l). Qed.

(** What [rebuild_at] returns, when it returns. *)
Lemma rebuild_at_post s h x index :
  hists s !! h = Some x →
  match rebuild_at h index s with
  | Ret None s' =>
      s' = s ∧ (index < 0 ∨ Z.of_nat (length (_timeline x)) ≤ index)%Z
  | Ret (Some b) s' =>
      (0 ≤ index < Z.of_nat (length (_timeline x)))%Z
      ∧ b = length (nodes s)
      ∧ hists s' = hists s
      ∧ (∀ l, l < length (nodes s) → data_at s' l = data_at s l)
      ∧ data_at s' b
        = foldl replay_step
            (data_at s (replay_base x (Z.to_nat index)).1)
            (entries_at (_timeline x)
               (seq (replay_base x (Z.to_nat index)).2
                    (S (Z.to_nat index) - (replay_base x (Z.to_nat index)).2)))
  | Throw _ _ => True
  end.
Proof.
  intros Hx. unfold rebuild_at, bind. rewrite (get_hist_eq _ _ _ Hx).
  destruct ((index <? 0)%Z || (Z.of_nat (length (_timeline x)) <=? index)%Z) eqn:Hc.
  { simpl. split; [done|]. apply orb_true_iff in Hc as [?%Z.ltb_lt| ?%Z.leb_le]; lia. }
  apply orb_false_iff in Hc as [?%Z.ltb_ge ?%Z.leb_gt].
  set (idx := Z.to_nat index).
  set (base := (replay_base x idx).1).
  set (start := (replay_base x idx).2).
  assert (match nearest_checkpoint (_timeline x) idx with
          | Some (_, c) => create_snapshot_link h c
          | None => create_snapshot_link h (_original_state x)
          end = create_snapshot_link h base) as ->.
  { unfold base, replay_base. by destruct (nearest_checkpoint _ _) as [[? ?]|]. }
  assert (match nearest_checkpoint (_timeline x) idx with
          | Some (jumpIdx, _) => S jumpIdx
          | None => 0
          end = start) as ->.
  { unfold start, replay_base. by destruct (nearest_checkpoint _ _) as [[? ?]|]. }
  pose proof (create_snapshot_link_data s h base) as Hsnap.
  destruct (create_snapshot_link h base s) as [b s1|]; [|done].
  destruct Hsnap as (-> & Hh1 & Hd1).
  pose proof (replay_loop_post (_timeline x) (length (nodes s))
                (seq start (S idx - start)) s1) as Hloop.
  destruct (for_each _ _ s1) as [[] s2|]; [|done].
  destruct Hloop as (Hh2 & Hother & Hb). simpl.
  split; [lia|]. split; [done|]. split; [congruence|]. split.
  - intros l Hl. rewrite Hother by lia.
    rewrite !data_at_fmap, Hd1. by rewrite lookup_app_l by (by rewrite length_fmap).
  - rewrite Hb. f_equal. rewrite data_at_fmap, Hd1.
    rewrite list_lookup_middle by (by rewrite length_fmap). done.
Qed.


(** * Nodes constructed without data (claim C10) *)


(** [this] is the live node of the lineage, not one of its snapshots. *)
Definition not_a_snapshot_of (x : LinkedChainHistory) (this : loc) : Prop :=
  this ≠ _latest_state x
  ∧ this ≠ _original_state x
  ∧ ∀ i e, _timeline x !! i = Some e → checkpoint e ≠ Some this.


Lemma replay_base_not_this x idx this :
  not_a_snapshot_of x this → (replay_base x idx).1 ≠ this.
Proof.
  intros (_ & Ho & Hc). unfold replay_base.
  destruct (nearest_checkpoint (_timeline x) idx) as [[j c]|] eqn:Hn; simpl; [|done].
  apply nearest_checkpoint_Some in Hn as (_ & e & He & Hce).
  intros ->. by eapply Hc.
Qed.



(** * The ledger invariant behind reconstruction *)

(** ** When the snapshot helpers return *)

(** [exec], keeping the heap in the form [set_nodes ns s]. *)
Ltac exec_flat :=
  repeat (exec_step; rewrite ?nodes_set_nodes, ?set_nodes_set_nodes).

Lemma register_links_returns s this n :
  nodes s !! this = Some n →
  valid_ref s (_previous n) → valid_ref s (_next n) →
  ∃ s', register_links this s = Ret tt s'.
Proof.
  intros Hn Hp Hx. assert (this < length (nodes s)) by (by eapply lookup_lt_Some).
  unfold register_links, previous, next, bind, ret. exec.
  destruct (_previous n) as [p|] eqn:Hprev; simpl in Hp.
  - exec_flat.
    set (ns1 := alter _ p _).
    assert (_next <$> ns1 !! this = Some (_next n)) as Hnext.
    { unfold ns1. rewrite !(lookup_alter_proj _next) by done. by rewrite Hn. }
    destruct (ns1 !! this) as [n1|] eqn:Hn1; [|done].
    injection Hnext as Hnext.
    assert (nodes (set_nodes ns1 s) !! this = Some n1) as Hn1' by done.
    exec. rewrite Hnext.
    destruct (_next n) as [x|]; simpl in Hx.
    + rewrite modify_node_eq by (rewrite nodes_set_nodes; unfold ns1;
                                 rewrite !length_alter; done).
      cbv beta iota.
      rewrite modify_node_eq by (simpl; unfold ns1; rewrite !length_alter; done).
      eauto.
    + eauto.
  - exec. destruct (_next n) as [x|]; simpl in Hx; exec; eauto.
Qed.

Lemma create_snapshot_link_returns s h link n :
  nodes s !! link = Some n →
  valid_ref s (_previous n) → valid_ref s (_next n) →
  ∃ s', create_snapshot_link h link s = Ret (length (nodes s)) s'.
Proof.
  intros Hn Hp Hx. rewrite (create_snapshot_link_eq _ _ _ _ Hn). unfold bind, ret.
  destruct (register_links_returns
              (set_nodes (nodes s ++ [snapshot_of h n]) s) (length (nodes s))
              (snapshot_of h n)) as [s' Hs'].
  - simpl. by rewrite list_lookup_middle.
  - unfold valid_ref in *. simpl. destruct (_previous n); [|done].
    rewrite length_app. simpl. lia.
  - unfold valid_ref in *. simpl. destruct (_next n); [|done].
    rewrite length_app. simpl. lia.
  - rewrite Hs'. eauto.
Qed.

Lemma replay_entry_returns s tl b i n :
  nodes s !! b = Some n → is_Some (_data n) →
  ∃ s', replay_entry tl b i s = Ret tt s'.
Proof.
  intros Hn [o Ho]. unfold replay_entry. destruct (tl !! i) as [e|]; [|by eexists].
  unfold bind, ret. destruct (data_delta e) as [d|].
  - rewrite (assign_data_eq _ _ _ _ _ Hn Ho). cbv beta iota.
    destruct (metadata_delta e) as [md|]; [|by eexists].
    erewrite assign_meta_eq; [by eexists|].
    rewrite nodes_set_nodes, list_lookup_alter_eq, Hn. done.
  - destruct (metadata_delta e) as [md|]; [|by eexists].
    rewrite (assign_meta_eq _ _ _ _ Hn). by eexists.
Qed.

Lemma data_at_Some s l o : data_at s l = Some o ↔ ∃ n, nodes s !! l = Some n ∧ _data n = Some o.
Proof.
  unfold data_at. destruct (nodes s !! l) as [n|]; simpl.
  - split; [by eauto|]. by intros (n' & [= <-] & ?).
  - split; [done|]. by intros (n' & ? & ?).
Qed.

Lemma replay_loop_returns s tl b idxs :
  is_Some (data_at s b) →
  ∃ s', for_each idxs (replay_entry tl b) s = Ret tt s'.
Proof.
  revert s. induction idxs as [|i idxs IH]; intros s [o Ho]; simpl; [by eexists|].
  apply data_at_Some in Ho as (n & Hn & Ho).
  destruct (replay_entry_returns s tl b i n Hn) as [s1 Hs1]; [done|].
  unfold bind. rewrite Hs1.
  pose proof (replay_entry_post tl b i s) as Hpost. rewrite Hs1 in Hpost.
  destruct Hpost as (_ & _ & Hb).
  apply IH. rewrite Hb. unfold data_at at 1 2. rewrite Hn. simpl. rewrite Ho.
  destruct (tl !! i) as [e|]; simpl; [|done].
  unfold replay_step. by destruct (data_delta e).
Qed.

(** ** The specification's side *)

(** "Starting from [original_state]'s data and applying, in timeline order,
    the [data_delta] of every entry": each delta overwrites the fields it
    names. *)
Definition replay_deltas (d0 : JsObj) (entries : list HistoryEntry) : JsObj :=
  foldl (λ acc e, match data_delta e with
                  | Some d => object_assign acc d
                  | None => acc
                  end) d0 entries.

Lemma replay_step_Some d0 entries :
  foldl replay_step (Some d0) entries = Some (replay_deltas d0 entries).
Proof.
  revert d0. induction entries as [|e es IH]; intros d0; simpl; [done|].
  unfold replay_step at 2. destruct (data_delta e); simpl; apply IH.
Qed.

Lemma replay_deltas_app d0 es1 es2 :
  replay_deltas d0 (es1 ++ es2) = replay_deltas (replay_deltas d0 es1) es2.
Proof. apply foldl_app. Qed.

Lemma entries_at_seq tl start count :
  start + count ≤ length tl →
  entries_at tl (seq start count) = take count (drop start tl).
Proof.
  revert start. induction count as [|count IH]; intros start Hlen; simpl.
  - done.
  - destruct (lookup_lt_is_Some_2 tl start) as [e He]; [lia|].
    unfold entries_at in *. simpl. rewrite He.
    rewrite (drop_S _ _ _ He). simpl. f_equal. apply IH. lia.
Qed.

(** ** The ledger invariant *)

(** The history [h] is seeded with the data [d0]: [_original_state] holds
    [d0]; [_latest_state] holds [d0] with every delta of the timeline
    applied; and the checkpoint of entry [j] is a snapshot other than
    [_latest_state] that holds [d0] with the deltas of entries [0 .. j]
    applied. *)
Definition ledger_inv (s : Store) (h : hid) (d0 : JsObj) : Prop :=
  ∃ x,
    hists s !! h = Some x
    ∧ _latest_state x ≠ _original_state x
    ∧ data_at s (_original_state x) = Some d0
    ∧ data_at s (_latest_state x) = Some (replay_deltas d0 (_timeline x))
    ∧ ∀ j e c,
        _timeline x !! j = Some e → checkpoint e = Some c →
        c ≠ _latest_state x
        ∧ data_at s c = Some (replay_deltas d0 (take (S j) (_timeline x))).

Lemma replay_base_data s h d0 x idx :
  hists s !! h = Some x → ledger_inv s h d0 →
  data_at s (replay_base x idx).1
  = Some (replay_deltas d0 (take (replay_base x idx).2 (_timeline x)))
  ∧ (replay_base x idx).2 ≤ S idx.
Proof.
  intros Hx (x' & Hx' & _ & Ho & _ & Hc).
  assert (x' = x) as -> by congruence.
  unfold replay_base.
  destruct (nearest_checkpoint (_timeline x) idx) as [[j c]|] eqn:Hn; simpl.
  - apply nearest_checkpoint_Some in Hn as (Hj & e & He & Hce).
    destruct (Hc j e c He Hce) as [_ Hd]. split; [done|lia].
  - split; [done|lia].
Qed.

Lemma replay_base_valid s h x idx n :
  wf s → hists s !! h = Some x →
  nodes s !! (replay_base x idx).1 = Some n →
  valid_ref s (_previous n) ∧ valid_ref s (_next n).
Proof.
  intros Hwf Hx Hn. by destruct (wf_node _ _ _ Hwf Hn) as (_ & ? & ?).
Qed.

(** Reconstruction on a seeded ledger: in bounds, [rebuild_at] returns a
    fresh snapshot that holds the seed data with the deltas of entries
    [0 .. index] applied, and leaves the histories as they were. *)
Lemma rebuild_at_replays s h d0 x index :
  wf s → ledger_inv s h d0 → hists s !! h = Some x →
  (0 ≤ index < Z.of_nat (length (_timeline x)))%Z →
  ∃ s',
    rebuild_at h index s = Ret (Some (length (nodes s))) s'
    ∧ hists s' = hists s
    ∧ (∀ l, l < length (nodes s) → data_at s' l = data_at s l)
    ∧ data_at s' (length (nodes s))
      = Some (replay_deltas d0 (take (S (Z.to_nat index)) (_timeline x))).
Proof.
  intros Hwf Hinv Hx Hidx.
  destruct (replay_base_data s h d0 x (Z.to_nat index) Hx Hinv) as [Hbase Hstart].
  pose proof Hbase as Hbase'.
  apply data_at_Some in Hbase' as (nb & Hnb & _).
  destruct (replay_base_valid s h x _ nb Hwf Hx Hnb) as [Hp Hn].
  destruct (create_snapshot_link_returns s h _ nb Hnb Hp Hn) as [s1 Hs1].
  pose proof (create_snapshot_link_data s h (replay_base x (Z.to_nat index)).1) as Hd1.
  rewrite Hs1 in Hd1. destruct Hd1 as (_ & _ & Hd1).
  assert (data_at s1 (length (nodes s))
          = data_at s (replay_base x (Z.to_nat index)).1) as Hb1.
  { rewrite data_at_fmap, Hd1, list_lookup_middle by (by rewrite length_fmap). done. }
  destruct (replay_loop_returns s1 (_timeline x) (length (nodes s))
              (seq (replay_base x (Z.to_nat index)).2
                   (S (Z.to_nat index) - (replay_base x (Z.to_nat index)).2)))
    as [s2 Hs2].
  { rewrite Hb1, Hbase. by eexists. }
  pose proof (rebuild_at_post s h x index Hx) as Hpost.
  assert (rebuild_at h index s = Ret (Some (length (nodes s))) s2) as Hrun.
  { unfold rebuild_at, bind. rewrite (get_hist_eq _ _ _ Hx).
    replace ((index <? 0)%Z || (Z.of_nat (length (_timeline x)) <=? index)%Z)
      with false.
    2:{ symmetry. apply orb_false_iff. split; [apply Z.ltb_ge|apply Z.leb_gt]; lia. }
    unfold replay_base in Hs1, Hs2.
    destruct (nearest_checkpoint (_timeline x) (Z.to_nat index)) as [[j c]|];
      cbn [fst snd] in Hs1, Hs2; rewrite Hs1; cbv beta iota; rewrite Hs2; done. }
  rewrite Hrun in Hpost. destruct Hpost as (_ & _ & Hh & Hold & Hdata).
  exists s2. split; [done|]. split; [done|]. split; [done|].
  rewrite Hdata, Hbase, replay_step_Some. f_equal.
  rewrite entries_at_seq by lia.
  rewrite <- replay_deltas_app. f_equal.
  rewrite take_take_drop. f_equal. lia.
Qed.


(** ** Well-formedness is kept *)

Lemma valid_ref_mono s s' o :
  length (nodes s) ≤ length (nodes s') → valid_ref s o → valid_ref s' o.
Proof. destruct o; simpl; [lia|done]. Qed.

Lemma node_ok_mono s s' n :
  length (nodes s) ≤ length (nodes s') → length (hists s) ≤ length (hists s') →
  node_ok s n → node_ok s' n.
Proof.
  intros Hn Hh (? & ? & ?). repeat split; [lia|by eapply valid_ref_mono..].
Qed.

Lemma hist_ok_mono s s' x :
  length (nodes s) ≤ length (nodes s') → hist_ok s x → hist_ok s' x.
Proof.
  intros Hn (? & ? & Hc). repeat split; [lia..|].
  eapply Forall_impl; [exact Hc|]. intros e. by apply valid_ref_mono.
Qed.

(** The fields of a node that no payload update touches: its pointers, its
    history, its snapshot flag and its origin. *)
Definition refs_of (n : LinkedChain) :=
  (_previous n, _next n, _chain_link_history n, _is_snapshot n, _origin n).

Lemma node_ok_refs s n n' : refs_of n = refs_of n' → node_ok s n → node_ok s n'.
Proof. unfold refs_of, node_ok. intros [= -> -> -> _ _]. done. Qed.

Lemma node_ok_core s n n' : core_of n = core_of n' → node_ok s n → node_ok s n'.
Proof. intros H. apply node_ok_refs. unfold core_of, refs_of in *. congruence. Qed.

Lemma Forall_same_core (P : LinkedChain → Prop) (l1 l2 : list LinkedChain) :
  (∀ n n', core_of n = core_of n' → P n → P n') →
  core_of <$> l1 = core_of <$> l2 → Forall P l1 → Forall P l2.
Proof.
  intros HP. revert l2. induction l1 as [|n l1 IH]; intros [|n' l2] Heq H;
    try done.
  rewrite !fmap_cons in Heq.
  assert (core_of n = core_of n') as Hn by exact (inj Some _ _ (f_equal head Heq)).
  assert (core_of <$> l1 = core_of <$> l2) as Hl by exact (f_equal tail Heq).
  apply Forall_cons in H as [Hn1 Hl1].
  constructor; [exact (HP _ _ Hn Hn1)|by apply IH].
Qed.

(** The heap grew by the nodes [extra], up to the sets of the old nodes. *)
Lemma wf_extend s s' extra :
  wf s →
  core_of <$> nodes s' = core_of <$> (nodes s ++ extra) →
  hists s' = hists s →
  Forall (node_ok s') extra →
  wf s'.
Proof.
  intros [Hn Hh] Hcore Hhists Hextra.
  assert (length (nodes s') = length (nodes s) + length extra) as Hlen.
  { rewrite <- (length_fmap core_of (nodes s')), Hcore, length_fmap, length_app. done. }
  split.
  - apply (Forall_same_core _ (nodes s ++ extra)); [apply node_ok_core|done|].
    apply Forall_app. split; [|done].
    eapply Forall_impl; [exact Hn|]. intros n. apply node_ok_mono; [lia|].
    by rewrite Hhists.
  - rewrite Hhists. eapply Forall_impl; [exact Hh|]. intros x.
    apply hist_ok_mono. lia.
Qed.

(** Payloads and metadata play no part in well-formedness. *)
Lemma wf_alter s l f :
  wf s → (∀ n, node_ok s n → node_ok s (f n)) →
  wf (set_nodes (alter f l (nodes s)) s).
Proof.
  intros [Hn Hh] Hf.
  assert (∀ n, node_ok s n → node_ok (set_nodes (alter f l (nodes s)) s) n) as Hmono.
  { intros n. apply node_ok_mono; simpl; by rewrite ?length_alter. }
  split.
  - simpl. apply Forall_lookup. intros i n Hi.
    destruct (decide (l = i)) as [->|Hne].
    + rewrite list_lookup_alter_eq in Hi.
      destruct (nodes s !! i) as [n0|] eqn:Hn0; simpl in Hi; [|done].
      injection Hi as <-. apply Hmono, Hf. by eapply Forall_lookup_1.
    + rewrite list_lookup_alter_ne in Hi by done.
      apply Hmono. by eapply Forall_lookup_1.
  - simpl. eapply Forall_impl; [exact Hh|]. intros x.
    apply hist_ok_mono. simpl. by rewrite length_alter.
Qed.

Lemma wf_timeline_push s h e :
  wf s → valid_ref s (checkpoint e) →
  wf (set_hists (alter (timeline_push e) h (hists s)) s).
Proof.
  intros [Hn Hh] He. split.
  - simpl. eapply Forall_impl; [exact Hn|]. intros n.
    apply node_ok_mono; simpl; by rewrite ?length_alter.
  - simpl. apply Forall_lookup. intros i x Hi.
    destruct (decide (h = i)) as [->|Hne].
    + rewrite list_lookup_alter_eq in Hi.
      destruct (hists s !! i) as [x0|] eqn:Hx0; simpl in Hi; [|done].
      injection Hi as <-.
      destruct (Forall_lookup_1 _ _ _ _ Hh Hx0) as (? & ? & Hc).
      repeat split; [done..|]. simpl. apply Forall_app. split; [done|].
      by constructor.
    + rewrite list_lookup_alter_ne in Hi by done.
      by eapply Forall_lookup_1.
Qed.

(** ** The ledger invariant is kept *)

(** The invariant only looks at the history and at the data of its
    snapshots. *)
Lemma ledger_inv_frame s s' h d0 x :
  ledger_inv s h d0 →
  hists s !! h = Some x → hists s' !! h = Some x →
  data_at s' (_original_state x) = data_at s (_original_state x) →
  data_at s' (_latest_state x) = data_at s (_latest_state x) →
  (∀ j e c, _timeline x !! j = Some e → checkpoint e = Some c →
            data_at s' c = data_at s c) →
  ledger_inv s' h d0.
Proof.
  intros (x' & Hx' & Hne & Ho & Hl & Hc) Hx Hx2 Ho' Hl' Hc'.
  assert (x' = x) as -> by congruence.
  exists x. split; [done|]. split; [done|]. split; [congruence|].
  split; [congruence|].
  intros j e c He Hce. destruct (Hc j e c He Hce) as [? ?].
  split; [done|]. rewrite (Hc' j e c He Hce). done.
Qed.

(** The same, when no old node's data changed. *)
Lemma ledger_inv_same_data s s' h d0 :
  ledger_inv s h d0 →
  hists s' !! h = hists s !! h →
  (∀ l, l < length (nodes s) → data_at s' l = data_at s l) →
  ledger_inv s' h d0.
Proof.
  intros Hinv Hh Hd. pose proof Hinv as (x & Hx & Hne & Ho & Hl & Hc).
  assert (∀ l o, data_at s l = Some o → l < length (nodes s)) as Hlt.
  { intros l o (n & Hn & _)%data_at_Some. by eapply lookup_lt_Some. }
  eapply (ledger_inv_frame s s' h d0 x); try done.
  - congruence.
  - apply Hd. by eapply Hlt.
  - apply Hd. by eapply Hlt.
  - intros j e c He Hce. destruct (Hc j e c He Hce) as [_ Hdc].
    apply Hd. by eapply Hlt.
Qed.

(** ** A seeded lineage

    [this] is a live node of history [h], the heap is well formed, and [h] is
    seeded with [d0]. *)
Definition lineage (s : Store) (this : loc) (h : hid) (d0 : JsObj) : Prop :=
  wf s
  ∧ ledger_inv s h d0
  ∧ ∃ n x, nodes s !! this = Some n ∧ _chain_link_history n = h
           ∧ hists s !! h = Some x ∧ not_a_snapshot_of x this.

Lemma replay_deltas_snoc d0 tl e :
  replay_deltas d0 (tl ++ [e])
  = match data_delta e with
    | Some d => object_assign (replay_deltas d0 tl) d
    | None => replay_deltas d0 tl
    end.
Proof. unfold replay_deltas. by rewrite foldl_snoc. Qed.

Lemma object_assign_empty o : object_assign o ∅ = o.
Proof. unfold object_assign. apply (left_id ∅ _). Qed.

Lemma absorb_node_ok s delta md n : node_ok s n → node_ok s (absorb delta md n).
Proof. apply node_ok_refs. by destruct delta. Qed.

Lemma data_assigned_node_ok s d n : node_ok s n → node_ok s (data_assigned d n).
Proof. by apply node_ok_refs. Qed.

(** Appending an entry without a checkpoint, after folding its delta into
    [_latest_state], keeps the lineage. *)
Lemma lineage_push s this h d0 x e f :
  lineage s this h d0 →
  hists s !! h = Some x →
  checkpoint e = None →
  (∀ n, node_ok s n → node_ok s (f n)) →
  (∀ n o, _data n = Some o →
     _data (f n) = Some (match data_delta e with
                         | Some d => object_assign o d
                         | None => o
                         end)) →
  lineage {| nodes := alter f (_latest_state x) (nodes s);
             hists := alter (timeline_push e) h (hists s);
             clock := clock s |} this h d0.
Proof.
  intros (Hwf & Hinv & n & x' & Hn & Hh & Hx' & Hlive) Hx He Hfok Hfdata.
  assert (x' = x) as -> by congruence.
  destruct Hinv as (x' & Hx'' & Hne & Ho & Hl & Hc).
  assert (x' = x) as -> by congruence.
  destruct Hlive as (Hlive1 & Hlive2 & Hlive3).
  set (s' := {| nodes := _; hists := _; clock := _ |}).
  assert (∀ l, l ≠ _latest_state x → nodes s' !! l = nodes s !! l) as Hother.
  { intros l Hl'. unfold s'. simpl. by rewrite list_lookup_alter_ne. }
  assert (∀ l, l ≠ _latest_state x → data_at s' l = data_at s l) as Hdother.
  { intros l Hl'. unfold data_at. by rewrite Hother. }
  assert (hists s' !! h = Some (timeline_push e x)) as Hxs'.
  { unfold s'. simpl. by rewrite list_lookup_alter_eq, Hx. }
  split; [|split].
  - change s' with (set_hists (alter (timeline_push e) h (hists s))
                      (set_nodes (alter f (_latest_state x) (nodes s)) s)).
    apply (wf_timeline_push (set_nodes (alter f (_latest_state x) (nodes s)) s));
      [by apply wf_alter|]. by rewrite He.
  - exists (timeline_push e x). split; [done|]. split; [done|]. simpl.
    split; [by rewrite Hdother|]. split.
    + apply data_at_Some in Hl as (nl & Hnl & Hdl).
      apply data_at_Some. exists (f nl). split.
      * unfold s'. simpl. by rewrite list_lookup_alter_eq, Hnl.
      * rewrite (Hfdata _ _ Hdl), replay_deltas_snoc. done.
    + intros j e' c Hj Hce.
      apply lookup_app_Some in Hj as [Hj|[_ Hj]].
      * destruct (Hc j e' c Hj Hce) as [Hcl Hcd]. split; [done|].
        rewrite Hdother by done. rewrite Hcd. f_equal. f_equal.
        rewrite take_app_le; [done|]. apply lookup_lt_Some in Hj. lia.
      * apply list_lookup_singleton_Some in Hj as [_ <-]. congruence.
  - exists n, (timeline_push e x). split; [by rewrite Hother|].
    split; [done|]. split; [done|]. split; [done|]. split; [done|]. simpl.
    intros j e' Hj. apply lookup_app_Some in Hj as [Hj|[_ Hj]].
    + by eapply Hlive3.
    + apply list_lookup_singleton_Some in Hj as [_ <-]. congruence.
Qed.

Lemma lineage_latest s this h d0 x :
  lineage s this h d0 → hists s !! h = Some x →
  ∃ nl, nodes s !! _latest_state x = Some nl
        ∧ _data nl = Some (replay_deltas d0 (_timeline x)).
Proof.
  intros (_ & (x' & Hx' & _ & _ & Hl & _) & _) Hx.
  assert (x' = x) as -> by congruence. by apply data_at_Some.
Qed.

Lemma lineage_hist s this h d0 : lineage s this h d0 → ∃ x, hists s !! h = Some x.
Proof. intros (_ & (x & Hx & _) & _). eauto. Qed.

(** [add_entry(item)] with a node keeps the lineage. *)
Lemma add_entry_link_keeps s this h d0 item :
  lineage s this h d0 → item < length (nodes s) →
  ∃ s', add_entry_link h item s = Ret h s' ∧ lineage s' this h d0.
Proof.
  intros Hlin Hitem. destruct (lineage_hist _ _ _ _ Hlin) as [x Hx].
  destruct (lineage_latest _ _ _ _ _ Hlin Hx) as (nl & Hnl & Hdl).
  destruct (lookup_lt_is_Some_2 _ _ Hitem) as [ni Hni].
  rewrite (add_entry_link_eq _ _ _ _ _ _ Hni Hx Hnl).
  eexists. split; [done|]. destruct (records ni nl); [|done].
  apply (lineage_push _ _ _ _ x); [done|done|done| |].
  - intros n. apply absorb_node_ok.
  - intros n o Ho. unfold entry_of, absorb. simpl.
    destruct (data_delta_of ni nl) as [d|]; simpl.
    + by rewrite Ho.
    + by rewrite Ho, object_assign_empty.
Qed.

Lemma add_entry_partial_eq s h x nl p :
  hists s !! h = Some x →
  nodes s !! _latest_state x = Some nl →
  add_entry_partial h p s
  = Ret h {| nodes := if _data nl is Some _
                      then alter (data_assigned p) (_latest_state x) (nodes s)
                      else nodes s;
             hists := alter (timeline_push
                               {| timestamp := clock s; data_delta := Some p;
                                  metadata_delta := None; checkpoint := None |})
                            h (hists s);
             clock := clock s |}.
Proof.
  intros Hx Hnl. assert (h < length (hists s)) by (by eapply lookup_lt_Some).
  unfold add_entry_partial, data, bind, ret, Date_now. exec.
  erewrite get_hist_eq; last first.
  { simpl. rewrite list_lookup_alter_eq, Hx. done. }
  cbv beta iota. cbn [_latest_state timeline_push]. exec.
  destruct (_data nl) as [o|] eqn:Ho; [|done].
  erewrite assign_data_eq by (simpl; eassumption). done.
Qed.

(** [add_entry(item)] with a raw partial payload keeps the lineage. *)
Lemma add_entry_partial_keeps s this h d0 p :
  lineage s this h d0 →
  ∃ s', add_entry_partial h p s = Ret h s' ∧ lineage s' this h d0.
Proof.
  intros Hlin. destruct (lineage_hist _ _ _ _ Hlin) as [x Hx].
  destruct (lineage_latest _ _ _ _ _ Hlin Hx) as (nl & Hnl & Hdl).
  rewrite (add_entry_partial_eq _ _ _ _ _ Hx Hnl), Hdl.
  eexists. split; [done|].
  apply (lineage_push _ _ _ _ x); [done|done|done| |].
  - intros n. apply data_assigned_node_ok.
  - intros n o Ho. simpl. by rewrite Ho.
Qed.

Lemma same_core_lookup (ns ns' : list LinkedChain) l n :
  core_of <$> ns' = core_of <$> ns → ns !! l = Some n →
  ∃ n', ns' !! l = Some n' ∧ core_of n' = core_of n.
Proof.
  intros Hc Hl.
  assert ((core_of <$> ns') !! l = Some (core_of n)) as H.
  { rewrite Hc, list_lookup_fmap, Hl. done. }
  rewrite list_lookup_fmap in H.
  destruct (ns' !! l) as [n'|]; simpl in H; [|done].
  exists n'. split; [done|]. exact (inj Some _ _ H).
Qed.

Lemma core_data_at s s' extra :
  core_of <$> nodes s' = core_of <$> (nodes s ++ extra) →
  ∀ l, l < length (nodes s) → data_at s' l = data_at s l.
Proof.
  intros Hc l Hl. destruct (lookup_lt_is_Some_2 _ _ Hl) as [n Hn].
  destruct (same_core_lookup (nodes s ++ extra) (nodes s') l n Hc) as (n' & Hn' & Hcore).
  { by apply lookup_app_l_Some. }
  unfold data_at. rewrite Hn, Hn'. simpl. unfold core_of in Hcore. congruence.
Qed.

(** Total form of [create_snapshot_link] on a well-formed heap. *)
Lemma create_snapshot_link_wf s h link n :
  wf s → nodes s !! link = Some n →
  ∃ s',
    create_snapshot_link h link s = Ret (length (nodes s)) s'
    ∧ hists s' = hists s ∧ clock s' = clock s
    ∧ core_of <$> nodes s' = core_of <$> (nodes s ++ [snapshot_of h n]).
Proof.
  intros Hwf Hn. destruct (wf_node _ _ _ Hwf Hn) as (_ & Hp & Hx).
  destruct (create_snapshot_link_returns s h link n Hn Hp Hx) as [s' Hs'].
  pose proof (create_snapshot_link_core s h link n Hn) as Hcore.
  rewrite Hs' in Hcore. destruct Hcore as (_ & Hh & Hk & Hc).
  exists s'. repeat split; [done..|]. by rewrite fmap_app.
Qed.

(** A snapshot taken of any node, for any existing history, keeps every
    lineage. *)
Lemma snapshot_keeps s s' this h d0 h' n :
  lineage s this h d0 →
  h' < length (hists s) →
  valid_ref s (_previous n) → valid_ref s (_next n) →
  hists s' = hists s →
  core_of <$> nodes s' = core_of <$> (nodes s ++ [snapshot_of h' n]) →
  lineage s' this h d0.
Proof.
  intros (Hwf & Hinv & nt & x & Hnt & Hh & Hx & Hlive) Hh' Hp Hn Hhists Hcore.
  assert (length (nodes s') = S (length (nodes s))) as Hlen.
  { rewrite <- (length_fmap core_of (nodes s')), Hcore, length_fmap, length_app.
    simpl. lia. }
  split; [|split].
  - eapply wf_extend; [done..|]. constructor; [|done].
    repeat split; simpl.
    + by rewrite Hhists.
    + destruct (_previous n); simpl in *; lia.
    + destruct (_next n); simpl in *; lia.
  - eapply ledger_inv_same_data; [done|by rewrite Hhists|].
    by eapply core_data_at.
  - destruct (same_core_lookup (nodes s ++ [snapshot_of h' n]) (nodes s') this nt Hcore)
      as (nt' & Hnt' & Hct).
    { by apply lookup_app_l_Some. }
    exists nt', x. split; [done|]. split.
    { unfold core_of in Hct. congruence. }
    split; [by rewrite Hhists|done].
Qed.

(** Appending a checkpoint entry whose snapshot holds what [_latest_state]
    holds keeps the lineage. *)
Lemma lineage_checkpoint s this h d0 x b ts g :
  lineage s this h d0 →
  hists s !! h = Some x →
  b < length (nodes s) → b ≠ _latest_state x → b ≠ this →
  data_at s b = data_at s (_latest_state x) →
  (∀ y, _timeline (g y) = _timeline y ∧ _latest_state (g y) = _latest_state y
        ∧ _original_state (g y) = _original_state y) →
  lineage
    (set_hists
       (alter (λ y, timeline_push {| timestamp := ts; data_delta := None;
                                     metadata_delta := None; checkpoint := Some b |}
                      (g y)) h (hists s)) s)
    this h d0.
Proof.
  intros (Hwf & Hinv & n & x' & Hn & Hh & Hx' & Hlive) Hx Hb Hbl Hbt Hdata Hg.
  assert (x' = x) as -> by congruence.
  destruct Hinv as (x' & Hx'' & Hne & Ho & Hl & Hc).
  assert (x' = x) as -> by congruence.
  destruct Hlive as (Hlive1 & Hlive2 & Hlive3).
  destruct (Hg x) as (Hg1 & Hg2 & Hg3).
  set (e := {| timestamp := ts |}).
  set (s' := set_hists _ s).
  assert (hists s' !! h = Some (timeline_push e (g x))) as Hxs'.
  { unfold s'. simpl. by rewrite list_lookup_alter_eq, Hx. }
  assert (replay_deltas d0 (_timeline x ++ [e]) = replay_deltas d0 (_timeline x)) as Hrep.
  { by rewrite replay_deltas_snoc. }
  split; [|split].
  - destruct Hwf as [Hwn Hwh]. split.
    + simpl. eapply Forall_impl; [exact Hwn|]. intros m.
      apply node_ok_mono; simpl; by rewrite ?length_alter.
    + simpl. apply Forall_lookup. intros i y Hi.
      destruct (decide (h = i)) as [->|Hnei].
      * rewrite list_lookup_alter_eq, Hx in Hi. injection Hi as <-.
        destruct (Forall_lookup_1 _ _ _ _ Hwh Hx) as (? & ? & Hcs).
        repeat split; simpl; [by rewrite Hg2|by rewrite Hg3|].
        rewrite Hg1. apply Forall_app. split; [done|]. by constructor.
      * rewrite list_lookup_alter_ne in Hi by done. by eapply Forall_lookup_1.
  - exists (timeline_push e (g x)). split; [done|]. simpl.
    rewrite Hg1, Hg2, Hg3. split; [done|]. split; [done|].
    split; [by rewrite Hrep|].
    intros j e' c Hj Hce. apply lookup_app_Some in Hj as [Hj|[Hlen Hj]].
    + destruct (Hc j e' c Hj Hce) as [Hcl Hcd]. split; [done|].
      change (data_at s' c) with (data_at s c). rewrite Hcd. f_equal. f_equal.
      rewrite take_app_le; [done|]. apply lookup_lt_Some in Hj. lia.
    + apply list_lookup_singleton_Some in Hj as [Hj0 <-]. simpl in Hce.
      injection Hce as <-. split; [done|].
      change (data_at s' b) with (data_at s b). rewrite Hdata, Hl. f_equal.
      rewrite take_ge by (rewrite length_app; simpl; lia). by rewrite Hrep.
  - exists n, (timeline_push e (g x)). split; [done|]. split; [done|].
    split; [done|]. unfold not_a_snapshot_of. simpl. rewrite Hg1, Hg2, Hg3.
    split; [done|]. split; [done|].
    intros j e' Hj. apply lookup_app_Some in Hj as [Hj|[_ Hj]].
    + by eapply Hlive3.
    + apply list_lookup_singleton_Some in Hj as [_ <-]. simpl. congruence.
Qed.

Lemma alter_alter_compose {A} (f g : A → A) (l : list A) i :
  alter f i (alter g i l) = alter (λ y, f (g y)) i l.
Proof. apply list_alter_alter_eq. Qed.

(** [save_checkpoint()] keeps the lineage. *)
Lemma save_checkpoint_keeps s this h d0 :
  lineage s this h d0 →
  ∃ s', save_checkpoint h s = Ret h s' ∧ lineage s' this h d0.
Proof.
  intros Hlin. destruct (lineage_hist _ _ _ _ Hlin) as [x Hx].
  destruct (lineage_latest _ _ _ _ _ Hlin Hx) as (nl & Hnl & Hdl).
  pose proof Hlin as (Hwf & _ & nt & x' & Hnt & _ & Hx' & Hlive).
  assert (x' = x) as -> by congruence.
  assert (h < length (hists s)) as Hh by (by eapply lookup_lt_Some).
  destruct (create_snapshot_link_wf s h _ nl Hwf Hnl) as (s1 & Hs1 & Hh1 & Hk1 & Hc1).
  destruct (wf_node _ _ _ Hwf Hnl) as (_ & Hp & Hn).
  pose proof (snapshot_keeps s s1 this h d0 h nl Hlin Hh Hp Hn Hh1 Hc1) as Hlin1.
  assert (length (nodes s1) = S (length (nodes s))) as Hlen.
  { rewrite <- (length_fmap core_of (nodes s1)), Hc1, length_fmap, length_app.
    simpl. lia. }
  assert (hists s1 !! h = Some x) as Hx1 by (by rewrite Hh1).
  assert (h < length (hists s1)) as Hh1' by (by rewrite Hh1).
  unfold save_checkpoint, bind, ret, Date_now. exec. rewrite Hs1. cbv beta iota.
  rewrite modify_hist_eq by done. cbv beta iota.
  rewrite modify_hist_eq by (simpl; by rewrite length_alter). cbv beta iota.
  eexists. split; [done|].
  unfold set_hists at 1. simpl. rewrite alter_alter_compose.
  apply (lineage_checkpoint s1 this h d0 x (length (nodes s)) (clock s1)
           (saved_checkpoints_push (length (nodes s)))); try done.
  - lia.
  - apply lookup_lt_Some in Hnl. lia.
  - apply lookup_lt_Some in Hnt. lia.
  - rewrite (core_data_at s s1 [snapshot_of h nl] Hc1 (_latest_state x))
      by (by eapply lookup_lt_Some).
    destruct (same_core_lookup (nodes s ++ [snapshot_of h nl]) (nodes s1)
                (length (nodes s)) (snapshot_of h nl) Hc1) as (nb & Hnb & Hcb).
    { by rewrite list_lookup_middle. }
    unfold data_at. rewrite Hnb, Hnl. simpl.
    unfold core_of, snapshot_of, universalClone in Hcb. simpl in Hcb.
    congruence.
Qed.

(** ** Growing the heap keeps every lineage *)

Definition core_refs
    (c : option loc * option Metadata * option JsObj * option loc * option loc
         * hid * bool) : option loc * option loc * hid * bool * option loc :=
  (c.1.1.1.2, c.1.1.2, c.1.2, c.2, c.1.1.1.1.1.1).

Lemma refs_from_core (ns ns' : list LinkedChain) :
  core_of <$> ns' = core_of <$> ns → refs_of <$> ns' = refs_of <$> ns.
Proof.
  intros H.
  assert (∀ l : list LinkedChain, refs_of <$> l = core_refs <$> (core_of <$> l)) as Hr.
  { intros l. rewrite <- list_fmap_compose. done. }
  rewrite !Hr. by rewrite H.
Qed.

Lemma Forall_same_refs (P : LinkedChain → Prop) (l1 l2 : list LinkedChain) :
  (∀ n n', refs_of n = refs_of n' → P n → P n') →
  refs_of <$> l1 = refs_of <$> l2 → Forall P l1 → Forall P l2.
Proof.
  intros HP. revert l2. induction l1 as [|n l1 IH]; intros [|n' l2] Heq H;
    try done.
  rewrite !fmap_cons in Heq.
  assert (refs_of n = refs_of n') as Hn by exact (inj Some _ _ (f_equal head Heq)).
  assert (refs_of <$> l1 = refs_of <$> l2) as Hl by exact (f_equal tail Heq).
  apply Forall_cons in H as [Hn1 Hl1].
  constructor; [exact (HP _ _ Hn Hn1)|by apply IH].
Qed.

Lemma same_refs_lookup (ns ns' : list LinkedChain) l n :
  refs_of <$> ns' = refs_of <$> ns → ns !! l = Some n →
  ∃ n', ns' !! l = Some n' ∧ refs_of n' = refs_of n.
Proof.
  intros Hc Hl.
  assert ((refs_of <$> ns') !! l = Some (refs_of n)) as H.
  { rewrite Hc, list_lookup_fmap, Hl. done. }
  rewrite list_lookup_fmap in H.
  destruct (ns' !! l) as [n'|]; simpl in H; [|done].
  exists n'. split; [done|]. exact (inj Some _ _ H).
Qed.

(** New nodes and new histories were appended; old nodes kept their
    references and their data, old histories are as they were. *)
Lemma lineage_extend s s' this h d0 extra newh :
  lineage s this h d0 →
  refs_of <$> nodes s' = refs_of <$> (nodes s ++ extra) →
  hists s' = hists s ++ newh →
  Forall (node_ok s') extra →
  Forall (hist_ok s') newh →
  (∀ l, l < length (nodes s) → data_at s' l = data_at s l) →
  lineage s' this h d0.
Proof.
  intros ([Hwn Hwh] & Hinv & nt & x & Hnt & Hh & Hx & Hlive) Hrefs Hhists Hextra Hnewh Hdata.
  assert (length (nodes s') = length (nodes s) + length extra) as Hlen.
  { rewrite <- (length_fmap refs_of (nodes s')), Hrefs, length_fmap, length_app. done. }
  assert (length (hists s) ≤ length (hists s')) as Hlenh.
  { rewrite Hhists, length_app. lia. }
  split; [|split].
  - split.
    + apply (Forall_same_refs _ (nodes s ++ extra)); [apply node_ok_refs|done|].
      apply Forall_app. split; [|done].
      eapply Forall_impl; [exact Hwn|]. intros n. apply node_ok_mono; lia.
    + rewrite Hhists. apply Forall_app. split; [|done].
      eapply Forall_impl; [exact Hwh|]. intros y. apply hist_ok_mono. lia.
  - eapply ledger_inv_same_data; [done| |done].
    rewrite Hhists. rewrite lookup_app_l; [done|]. by eapply lookup_lt_Some.
  - destruct (same_refs_lookup (nodes s ++ extra) (nodes s') this nt Hrefs)
      as (nt' & Hnt' & Hct).
    { by apply lookup_app_l_Some. }
    exists nt', x. split; [done|]. split.
    { unfold refs_of in Hct. congruence. }
    split; [|done]. rewrite Hhists. by apply lookup_app_l_Some.
Qed.

(** Only payloads and metadata changed. *)
Definition same_refs (s s' : Store) : Prop :=
  refs_of <$> nodes s' = refs_of <$> nodes s.

#[global] Instance same_refs_preorder : PreOrder same_refs.
Proof.
  split.
  - intros s. done.
  - intros s1 s2 s3 ? ?. unfold same_refs in *. congruence.
Qed.

Lemma same_refs_modify_node l f :
  (∀ n, refs_of (f n) = refs_of n) → preserves same_refs (modify_node l f).
Proof.
  intros Hf s. unfold modify_node, bind, get_node.
  destruct (nodes s !! l) as [n|] eqn:Hl; simpl; [|done].
  unfold same_refs. simpl.
  rewrite (insert_as_alter f _ _ _ Hl). by apply fmap_alter_unchanged.
Qed.

Lemma same_refs_replay tl b idxs :
  preserves same_refs (for_each idxs (replay_entry tl b)).
Proof.
  unfold replay_entry, assign_data, assign_meta, data.
  preserves_go ltac:(solve [by apply same_refs_modify_node]).
Qed.

(** [rebuild_at] on any history of the heap keeps every lineage: it only
    adds its snapshot. *)
Lemma rebuild_at_keeps s this h d0 h' index r s' :
  lineage s this h d0 →
  rebuild_at h' index s = Ret r s' →
  lineage s' this h d0.
Proof.
  intros Hlin Hrun.
  destruct (hists s !! h') as [x'|] eqn:Hx'.
  2:{ unfold rebuild_at, bind, get_hist in Hrun. by rewrite Hx' in Hrun. }
  pose proof (rebuild_at_post s h' x' index Hx') as Hpost. rewrite Hrun in Hpost.
  destruct r as [b|]; [|by destruct Hpost as [-> _]].
  destruct Hpost as (Hidx & -> & Hh & Hold & _).
  (* the heap right after the snapshot *)
  unfold rebuild_at, bind in Hrun. rewrite (get_hist_eq _ _ _ Hx') in Hrun.
  replace ((index <? 0)%Z || (Z.of_nat (length (_timeline x')) <=? index)%Z)
    with false in Hrun.
  2:{ symmetry. apply orb_false_iff. split; [apply Z.ltb_ge|apply Z.leb_gt]; lia. }
  set (base := (replay_base x' (Z.to_nat index)).1).
  assert (match nearest_checkpoint (_timeline x') (Z.to_nat index) with
          | Some (_, c) => create_snapshot_link h' c
          | None => create_snapshot_link h' (_original_state x')
          end = create_snapshot_link h' base) as Hbase.
  { unfold base, replay_base. by destruct (nearest_checkpoint _ _) as [[? ?]|]. }
  rewrite Hbase in Hrun.
  destruct (nodes s !! base) as [nb|] eqn:Hnb.
  2:{ unfold create_snapshot_link, data, bind, get_node in Hrun.
      by rewrite Hnb in Hrun. }
  pose proof Hlin as (Hwf & _).
  destruct (create_snapshot_link_wf s h' base nb Hwf Hnb) as (s1 & Hs1 & Hh1 & _ & Hc1).
  rewrite Hs1 in Hrun. cbv beta iota in Hrun.
  match type of Hrun with
  | context [for_each ?idxs ?body s1] =>
      pose proof (same_refs_replay (_timeline x') (length (nodes s)) idxs s1) as Hrefs;
      destruct (for_each idxs body s1) as [[] s2|]; [|done]
  end.
  simpl in Hrefs, Hrun. injection Hrun as <-.
  destruct (wf_node _ _ _ Hwf Hnb) as (_ & Hp & Hn).
  apply (lineage_extend s s2 this h d0 [snapshot_of h' nb] []); try done.
  - unfold same_refs in Hrefs. rewrite Hrefs. by apply refs_from_core.
  - by rewrite app_nil_r.
  - assert (length (nodes s2) = S (length (nodes s))) as Hlen.
    { rewrite <- (length_fmap refs_of (nodes s2)), Hrefs, length_fmap.
      rewrite <- (length_fmap core_of (nodes s1)), Hc1, length_fmap, length_app.
      simpl. lia. }
    constructor; [|done]. repeat split; simpl.
    + rewrite Hh. by eapply lookup_lt_Some.
    + destruct (_previous nb); simpl in *; lia.
    + destruct (_next nb); simpl in *; lia.
Qed.

(** ** The constructor seeds a lineage *)

Lemma register_links_total s this n :
  nodes s !! this = Some n →
  valid_ref s (_previous n) → valid_ref s (_next n) →
  ∃ s', register_links this s = Ret tt s' ∧ same_core s s'.
Proof.
  intros Hn Hp Hx. destruct (register_links_returns s this n Hn Hp Hx) as [s' Hs'].
  exists s'. split; [done|]. pose proof (same_core_register_links this s) as H.
  by rewrite Hs' in H.
Qed.

Lemma create_snapshot_link_total s h link n :
  nodes s !! link = Some n →
  valid_ref s (_previous n) → valid_ref s (_next n) →
  ∃ s',
    create_snapshot_link h link s = Ret (length (nodes s)) s'
    ∧ hists s' = hists s ∧ clock s' = clock s
    ∧ core_of <$> nodes s' = (core_of <$> nodes s) ++ [core_of (snapshot_of h n)].
Proof.
  intros Hn Hp Hx.
  destruct (create_snapshot_link_returns s h link n Hn Hp Hx) as [s' Hs'].
  pose proof (create_snapshot_link_core s h link n Hn) as Hcore.
  rewrite Hs' in Hcore. destruct Hcore as (_ & Hh & Hk & Hc).
  exists s'. done.
Qed.

(** The node the constructor allocates, before it is registered with its
    neighbours. *)
Definition fresh_node (ing : Ingredients) (h : hid) : LinkedChain :=
  {| _origin := i_origin ing; _metadata := i_metadata ing; _data := i_data ing;
     _previous := default None (i_parent ing); _next := default None (i_next ing);
     _progeny := ∅; _ancestors := ∅; _chain_link_history := h;
     _is_snapshot := default false (i_is_snapshot ing) |}.

(** The history object [new LinkedChainHistory] leaves behind for a node
    allocated at [this]. *)
Definition fresh_history (this : loc) (ts : Z) : LinkedChainHistory :=
  {| _timeline := [{| timestamp := ts; data_delta := None;
                      metadata_delta := None; checkpoint := Some (this + 3) |}];
     _original_state := this + 1;
     _latest_state := this + 2;
     _saved_checkpoints := [] |}.

Lemma snapshot_of_core h n n' :
  core_of n = core_of n' → core_of (snapshot_of h n) = core_of (snapshot_of h n').
Proof.
  unfold core_of, snapshot_of, metadata_of. simpl. intros [= -> -> -> -> -> ? ?]. done.
Qed.

Lemma snapshot_of_snapshot h n :
  core_of (snapshot_of h (snapshot_of h n)) = core_of (snapshot_of h n).
Proof. done. Qed.

Lemma core_lookup_last (ns : list LinkedChain) cs c n :
  core_of <$> ns = cs ++ [c] → ns !! length cs = Some n → core_of n = c.
Proof.
  intros Hc Hn.
  assert ((core_of <$> ns) !! length cs = Some c) as H.
  { rewrite Hc. by rewrite list_lookup_middle. }
  rewrite list_lookup_fmap, Hn in H. exact (inj Some _ _ H).
Qed.

Lemma core_length (ns : list LinkedChain) cs : core_of <$> ns = cs → length ns = length cs.
Proof. intros <-. by rewrite length_fmap. Qed.

(** [new LinkedChain(ingredients)] for a node that gets a history of its own:
    it returns the fresh reference [this]; the heap gains the node and the
    three snapshots [_original_state], [_latest_state] and the checkpoint of
    entry [0], each holding the node's data, and one history. *)
Lemma LinkedChain_new_total s ing :
  valid_ref s (default None (i_parent ing)) →
  valid_ref s (default None (i_next ing)) →
  (if default false (i_is_snapshot ing) then i_history ing else None) = None →
  ∃ s',
    LinkedChain_new ing s = Ret (length (nodes s)) s'
    ∧ hists s' = hists s ++ [fresh_history (length (nodes s)) (clock s)]
    ∧ core_of <$> nodes s'
      = (core_of <$> nodes s)
        ++ [core_of (fresh_node ing (length (hists s)));
            core_of (snapshot_of (length (hists s)) (fresh_node ing (length (hists s))));
            core_of (snapshot_of (length (hists s)) (fresh_node ing (length (hists s))));
            core_of (snapshot_of (length (hists s)) (fresh_node ing (length (hists s))))].
Proof.
  intros Hp Hx Hown.
  set (this := length (nodes s)). set (h := length (hists s)).
  set (n0 := fresh_node ing h).
  unfold LinkedChain_new. rewrite Hown.
  unfold bind, ret, next_hist_ref, construct_fields, alloc_node.
  cbv beta iota. fold h. fold this. fold (fresh_node ing h). fold n0.
  set (s1 := {| nodes := nodes s ++ [n0]; hists := hists s; clock := clock s |}).
  assert (nodes s1 !! this = Some n0) as Hn1.
  { unfold s1, this. simpl. by rewrite list_lookup_middle. }
  assert (∀ o, valid_ref s o → valid_ref s1 o) as Hv1.
  { intros o. apply valid_ref_mono. unfold s1. simpl. rewrite length_app. lia. }
  unfold LinkedChainHistory_new, bind, next_hist_ref. cbv beta iota.
  change (length (hists s1)) with h. change (length (nodes s)) with this.
  (* _original_state *)
  destruct (create_snapshot_link_total s1 h this n0 Hn1) as (s2 & Hs2 & Hh2 & Hk2 & Hc2);
    [by apply Hv1..|].
  rewrite Hs2. cbv beta iota.
  assert (length (nodes s1) = this + 1) as Hl1.
  { unfold s1. simpl. rewrite length_app. done. }
  assert (length (nodes s2) = this + 2) as Hl2.
  { rewrite (core_length _ _ Hc2), length_app, length_fmap, Hl1. simpl. lia. }
  destruct (lookup_lt_is_Some_2 (nodes s2) this) as [n2 Hn2]; [lia|].
  assert (core_of n2 = core_of n0) as Hcn2.
  { destruct (same_core_lookup (nodes s1 ++ [snapshot_of h n0]) (nodes s2) this n0)
      as (n2' & Hn2' & Hcore).
    - by rewrite fmap_app.
    - by apply lookup_app_l_Some.
    - congruence. }
  assert (valid_ref s2 (_previous n2) ∧ valid_ref s2 (_next n2)) as [Hp2 Hx2].
  { unfold core_of in Hcn2. injection Hcn2 as _ _ _ -> -> _ _.
    split; (eapply valid_ref_mono; [|by apply Hv1]); lia. }
  (* _latest_state *)
  destruct (create_snapshot_link_total s2 h this n2 Hn2 Hp2 Hx2)
    as (s3 & Hs3 & Hh3 & Hk3 & Hc3).
  rewrite Hs3. cbv beta iota. unfold alloc_hist.
  rewrite Hl1, Hl2. cbv beta iota.
  set (s4 := {| nodes := nodes s3 |}).
  assert (length (nodes s3) = this + 3) as Hl3.
  { rewrite (core_length _ _ Hc3), length_app, length_fmap, Hl2. simpl. lia. }
  (* the genesis checkpoint *)
  unfold add_checkpoint, bind, Date_now.
  destruct (lookup_lt_is_Some_2 (nodes s4) (this + 1)) as [no Hno];
    [unfold s4; cbn [nodes]; lia|].
  assert (core_of no = core_of (snapshot_of h n0)) as Hcno.
  { assert ((core_of <$> nodes s3) !! (this + 1) = Some (core_of (snapshot_of h n0))) as H.
    { rewrite Hc3, lookup_app_l by (rewrite length_fmap; lia).
      rewrite Hc2, <- Hl1, <- (length_fmap core_of (nodes s1)).
      by rewrite list_lookup_middle. }
    rewrite list_lookup_fmap in H. simpl in Hno. rewrite Hno in H.
    exact (inj Some _ _ H). }
  assert (valid_ref s4 (_previous no) ∧ valid_ref s4 (_next no)) as [Hpo Hxo].
  { unfold core_of in Hcno. injection Hcno as _ _ _ -> -> _ _. simpl.
    split; (eapply valid_ref_mono; [|by apply Hv1]); unfold s4; cbn [nodes]; lia. }
  destruct (create_snapshot_link_total s4 (length (hists s3)) (this + 1) no Hno Hpo Hxo)
    as (s5 & Hs5 & Hh5 & Hk5 & Hc5).
  rewrite Hs5. cbv beta iota.
  assert (length (hists s3) < length (hists s5)) as Hh5'.
  { rewrite Hh5. simpl. rewrite length_app. simpl. lia. }
  rewrite modify_hist_eq by done. unfold ret. cbv beta iota.
  set (s6 := set_hists _ s5).
  (* register the node with its neighbours *)
  destruct (lookup_lt_is_Some_2 (nodes s6) this) as [n6 Hn6].
  { unfold s6. cbn [nodes set_hists].
    rewrite (core_length _ _ Hc5), length_app, length_fmap. unfold s4.
    cbn [nodes length]. lia. }
  assert (core_of <$> nodes s6
          = (core_of <$> nodes s)
            ++ [core_of n0; core_of (snapshot_of h n0); core_of (snapshot_of h n0);
                core_of (snapshot_of h n0)]) as Hc6.
  { rewrite (snapshot_of_core h n2 n0 Hcn2) in Hc3.
    assert (core_of (snapshot_of (length (hists s3)) no) = core_of (snapshot_of h n0))
      as Hc5'.
    { rewrite Hh3, Hh2. change (length (hists s1)) with h.
      by rewrite (snapshot_of_core h no _ Hcno). }
    rewrite Hc5' in Hc5.
    unfold s6. cbn [nodes set_hists]. rewrite Hc5. unfold s4. cbn [nodes].
    rewrite Hc3, Hc2. unfold s1. cbn [nodes]. rewrite fmap_app.
    rewrite <- !app_assoc. done. }
  assert (core_of n6 = core_of n0) as Hcn6.
  { assert ((core_of <$> nodes s6) !! this = Some (core_of n0)) as H.
    { rewrite Hc6. unfold this. rewrite <- (length_fmap core_of (nodes s)).
      by rewrite (list_lookup_middle _ _ _ (length (core_of <$> nodes s))). }
    rewrite list_lookup_fmap, Hn6 in H. exact (inj Some _ _ H). }
  assert (valid_ref s6 (_previous n6) ∧ valid_ref s6 (_next n6)) as [Hp6 Hx6].
  { unfold core_of in Hcn6. injection Hcn6 as _ _ _ -> -> _ _.
    split; (eapply valid_ref_mono; [|by apply Hv1]); unfold s6; cbn [nodes set_hists];
      rewrite (core_length _ _ Hc5), length_app, length_fmap; unfold s4;
      cbn [nodes length]; lia. }
  destruct (register_links_total s6 this n6 Hn6 Hp6 Hx6) as (s7 & Hs7 & Hc7 & Hh7 & Hk7).
  rewrite Hs7. exists s7. split; [done|]. split; [|by rewrite Hc7].
  rewrite Hh7. unfold s6. simpl. rewrite Hh5. unfold s4. simpl.
  rewrite Hh3, Hh2. unfold s1. simpl. fold h.
  replace h with (length (hists s) + 0) at 1 by (unfold h; lia).
  rewrite alter_app_r. simpl. f_equal. f_equal.
  unfold timeline_push, fresh_history. simpl. f_equal.
  rewrite Hk3, Hk2, Hl3. done.
Qed.

Lemma core_lookup (ns : list LinkedChain) cs i c :
  core_of <$> ns = cs → cs !! i = Some c →
  ∃ n, ns !! i = Some n ∧ core_of n = c.
Proof.
  intros <- H. rewrite list_lookup_fmap in H.
  destruct (ns !! i) as [n|]; simpl in H; [|done].
  exists n. split; [done|]. exact (inj Some _ _ H).
Qed.

Lemma wf_extend_refs s s' extra newh :
  wf s →
  refs_of <$> nodes s' = refs_of <$> (nodes s ++ extra) →
  hists s' = hists s ++ newh →
  Forall (node_ok s') extra →
  Forall (hist_ok s') newh →
  wf s'.
Proof.
  intros [Hwn Hwh] Hrefs Hhists Hextra Hnewh.
  assert (length (nodes s') = length (nodes s) + length extra) as Hlen.
  { rewrite <- (length_fmap refs_of (nodes s')), Hrefs, length_fmap, length_app. done. }
  assert (length (hists s) ≤ length (hists s')) as Hlenh.
  { rewrite Hhists, length_app. lia. }
  split.
  - apply (Forall_same_refs _ (nodes s ++ extra)); [apply node_ok_refs|done|].
    apply Forall_app. split; [|done].
    eapply Forall_impl; [exact Hwn|]. intros n. apply node_ok_mono; lia.
  - rewrite Hhists. apply Forall_app. split; [|done].
    eapply Forall_impl; [exact Hwh|]. intros y. apply hist_ok_mono. lia.
Qed.

(** What the heap looks like after [new LinkedChain(ingredients)]. *)
Record constructed (s : Store) (ing : Ingredients) (s' : Store) : Prop := {
  constructed_hists :
    hists s' = hists s ++ [fresh_history (length (nodes s)) (clock s)];
  constructed_refs :
    refs_of <$> nodes s'
    = refs_of <$> (nodes s
                   ++ [fresh_node ing (length (hists s));
                       snapshot_of (length (hists s)) (fresh_node ing (length (hists s)));
                       snapshot_of (length (hists s)) (fresh_node ing (length (hists s)));
                       snapshot_of (length (hists s)) (fresh_node ing (length (hists s)))]);
  constructed_old_data : ∀ l, l < length (nodes s) → data_at s' l = data_at s l;
  constructed_new_data :
    ∀ k, k < 4 → data_at s' (length (nodes s) + k) = i_data ing;
  constructed_wf : wf s → wf s'
}.

Lemma LinkedChain_new_constructed s ing :
  valid_ref s (default None (i_parent ing)) →
  valid_ref s (default None (i_next ing)) →
  (if default false (i_is_snapshot ing) then i_history ing else None) = None →
  ∃ s', LinkedChain_new ing s = Ret (length (nodes s)) s' ∧ constructed s ing s'.
Proof.
  intros Hp Hx Hown.
  destruct (LinkedChain_new_total s ing Hp Hx Hown) as (s' & Hrun & Hh & Hc).
  exists s'. split; [done|].
  set (h := length (hists s)) in *. set (n0 := fresh_node ing h) in *.
  assert (core_of <$> nodes s'
          = core_of <$> (nodes s ++ [n0; snapshot_of h n0; snapshot_of h n0;
                                     snapshot_of h n0])) as Hc'.
  { by rewrite Hc, fmap_app. }
  assert (length (nodes s') = length (nodes s) + 4) as Hlen.
  { rewrite (core_length _ _ Hc), length_app, length_fmap. done. }
  assert (refs_of <$> nodes s'
          = refs_of <$> (nodes s ++ [n0; snapshot_of h n0; snapshot_of h n0;
                                     snapshot_of h n0])) as Hrefs.
  { by apply refs_from_core. }
  split; [done|done| | |].
  - by eapply core_data_at.
  - intros k Hk.
    destruct (core_lookup (nodes s') _ (length (nodes s) + k)
                (core_of (if decide (k = 0) then n0 else snapshot_of h n0)) Hc)
      as (n & Hn & Hcn).
    { rewrite lookup_app_r by (rewrite length_fmap; lia).
      rewrite length_fmap.
      replace (length (nodes s) + k - length (nodes s)) with k by lia.
      destruct k as [|[|[|[|k]]]]; simpl; try done; lia. }
    unfold data_at. rewrite Hn. simpl. subst n0.
    unfold core_of, snapshot_of, fresh_node, universalClone in Hcn.
    destruct (decide (k = 0)); cbn in Hcn; congruence.
  - intros Hwf. eapply wf_extend_refs; [done|exact Hrefs|exact Hh| |].
    + assert (node_ok s' n0) as Hn0.
      { repeat split; simpl.
        * rewrite Hh, length_app. simpl. unfold h. lia.
        * destruct (default None (i_parent ing)); simpl in *; lia.
        * destruct (default None (i_next ing)); simpl in *; lia. }
      assert (node_ok s' (snapshot_of h n0)) as Hs0.
      { destruct Hn0 as (? & ? & ?). by repeat split. }
      repeat (apply Forall_cons_2; [done|]). apply Forall_nil_2.
    + constructor; [|done]. repeat split; simpl; [lia..|].
      constructor; [|done]. simpl. lia.
Qed.

(** A node constructed with a data payload starts a seeded lineage. *)
Lemma LinkedChain_new_seeds s ing d0 s' :
  wf s → i_data ing = Some d0 → constructed s ing s' →
  lineage s' (length (nodes s)) (length (hists s)) d0.
Proof.
  intros Hwf Hd [Hh Hrefs Hold Hnew Hwf'].
  set (this := length (nodes s)) in *. set (h := length (hists s)) in *.
  assert (hists s' !! h = Some (fresh_history this (clock s))) as Hx.
  { rewrite Hh. unfold h. by rewrite list_lookup_middle. }
  assert (∀ k, k < 4 → data_at s' (this + k) = Some d0) as Hdata.
  { intros k Hk. rewrite (Hnew k Hk). done. }
  split; [by apply Hwf'|]. split.
  - exists (fresh_history this (clock s)). split; [done|].
    unfold fresh_history. cbn [_timeline _original_state _latest_state].
    split; [lia|]. split; [apply (Hdata 1); lia|].
    split; [apply (Hdata 2); lia|].
    intros [|j] e c; [|done]. intros [= <-] [= <-]. split; [lia|].
    apply (Hdata 3); lia.
  - destruct (same_refs_lookup _ (nodes s') this (fresh_node ing h) Hrefs)
      as (n & Hn & Hrn).
    { unfold this. by rewrite list_lookup_middle. }
    exists n, (fresh_history this (clock s)). split; [done|]. split.
    { unfold refs_of in Hrn. simpl in Hrn. congruence. }
    split; [done|]. split; [simpl; lia|]. split; [simpl; lia|].
    intros [|j] e; simpl; [|done]. intros [= <-]. simpl. intros [= H]. lia.
Qed.

(** Constructing another node keeps the lineages that exist. *)
Lemma LinkedChain_new_keeps s ing s' this h d0 :
  lineage s this h d0 → constructed s ing s' → lineage s' this h d0.
Proof.
  intros Hlin [Hh Hrefs Hold Hnew Hwf'].
  pose proof Hlin as (Hwf & _).
  destruct (Hwf' Hwf) as [Hn' Hh'].
  assert (length (nodes s') = length (nodes s) + 4) as Hlen.
  { rewrite <- (length_fmap refs_of (nodes s')), Hrefs, length_fmap, length_app. done. }
  eapply lineage_extend; [done|exact Hrefs|exact Hh| | |done].
  - apply Forall_lookup. intros i n Hi.
    destruct (same_refs_lookup _ (nodes s') (length (nodes s) + i) n Hrefs)
      as (n' & Hn'' & Hrn).
    { rewrite lookup_app_r by lia.
      by replace (length (nodes s) + i - length (nodes s)) with i by lia. }
    apply (node_ok_refs s' n'); [done|]. by eapply Forall_lookup_1.
  - rewrite Hh in Hh'. by apply Forall_app in Hh' as [_ ?].
Qed.

(** ** Updating the node keeps its lineage *)

Lemma sets_grow_length s s' : sets_grow s s' → length (nodes s) ≤ length (nodes s').
Proof.
  intros Hg. destruct (decide (length (nodes s) ≤ length (nodes s'))) as [|Hgt]; [done|].
  destruct (lookup_lt_is_Some_2 (nodes s) (length (nodes s'))) as [n Hn]; [lia|].
  destruct (Hg _ _ Hn) as (n' & Hn' & _). apply lookup_lt_Some in Hn'. lia.
Qed.

(** A field update on the live node, or one that leaves the payload alone on
    any node, keeps the lineage. *)
Lemma lineage_alter s this h d0 l f :
  lineage s this h d0 →
  (∀ n, node_ok s n → node_ok s (f n)) →
  (∀ n, _chain_link_history (f n) = _chain_link_history n) →
  (l = this ∨ ∀ n, _data (f n) = _data n) →
  lineage (set_nodes (alter f l (nodes s)) s) this h d0.
Proof.
  intros (Hwf & Hinv & nt & x & Hnt & Hh & Hx & Hlive) Hok Hhist Hdata.
  assert (∀ l', l' ≠ this →
            data_at (set_nodes (alter f l (nodes s)) s) l' = data_at s l') as Hd.
  { intros l' Hne. rewrite data_at_alter. case_decide as Hll; [|done]. subst l'.
    destruct Hdata as [->|Hdata]; [done|].
    unfold data_at. destruct (nodes s !! l); simpl; [|done]. apply Hdata. }
  destruct Hlive as (Hl1 & Hl2 & Hl3).
  split; [by apply wf_alter|]. split.
  - apply (ledger_inv_frame s _ h d0 x); [done|done|done|..].
    + apply Hd. congruence.
    + apply Hd. congruence.
    + intros j e c He Hc. apply Hd. intros ->. by eapply Hl3.
  - destruct (decide (l = this)) as [->|Hne].
    + exists (f nt), x. simpl. rewrite list_lookup_alter_eq, Hnt. simpl.
      split; [done|]. split; [by rewrite Hhist|]. done.
    + exists nt, x. simpl. rewrite list_lookup_alter_ne by done. done.
Qed.

(** The invariant carried through a method body: the lineage, and the
    references the body will store are allocated. *)
Definition held (this : loc) (h : hid) (d0 : JsObj) (N : nat) (s : Store) : Prop :=
  lineage s this h d0 ∧ N ≤ length (nodes s).

(** [total I m Q]: from a heap in [I], [m] returns, in [I] again, a value in
    [Q]. *)
Definition total {A} (I : Store → Prop) (m : M A) (Q : A → Prop) : Prop :=
  ∀ s, I s → ∃ a s', m s = Ret a s' ∧ I s' ∧ Q a.

Lemma total_ret {A} (I : Store → Prop) (a : A) (Q : A → Prop) :
  Q a → total I (ret a) Q.
Proof. intros Ha s Hs. by exists a, s. Qed.

Lemma total_bind {A B} (I : Store → Prop) (m : M A) (k : A → M B) Q R :
  total I m Q → (∀ a, Q a → total I (k a) R) → total I (bind m k) R.
Proof.
  intros Hm Hk s Hs. destruct (Hm s Hs) as (a & s1 & Hrun & Hs1 & Ha).
  destruct (Hk a Ha s1 Hs1) as (b & s2 & Hrun2 & Hs2 & Hb).
  exists b, s2. unfold bind. rewrite Hrun. done.
Qed.

Lemma total_weaken {A} (I : Store → Prop) (m : M A) (Q R : A → Prop) :
  total I m Q → (∀ a, Q a → R a) → total I m R.
Proof.
  intros Hm HQ s Hs. destruct (Hm s Hs) as (a & s' & ? & ? & ?).
  exists a, s'. auto.
Qed.

Section held_rules.
Variables (this : loc) (h : hid) (d0 : JsObj) (N : nat).

Lemma held_this s : held this h d0 N s → this < length (nodes s).
Proof. intros [(_ & _ & n & _ & Hn & _) _]. by eapply lookup_lt_Some. Qed.

Lemma total_history :
  total (held this h d0 N) (history this) (λ a, a = h).
Proof.
  intros s Hs. pose proof Hs as [(_ & _ & n & x & Hn & Hh & _) _].
  exists h, s. unfold history, bind. rewrite (get_node_eq _ _ _ Hn). by rewrite Hh.
Qed.

Lemma total_metadata l :
  l < N → total (held this h d0 N) (metadata l) (λ _, True).
Proof.
  intros Hl s Hs. pose proof Hs as [_ HN].
  destruct (lookup_lt_is_Some_2 (nodes s) l) as [n Hn]; [lia|].
  eexists _, s. unfold metadata, bind. rewrite (get_node_eq _ _ _ Hn). done.
Qed.

Lemma total_data l :
  l < N → total (held this h d0 N) (data l) (λ _, True).
Proof.
  intros Hl s Hs. pose proof Hs as [_ HN].
  destruct (lookup_lt_is_Some_2 (nodes s) l) as [n Hn]; [lia|].
  eexists _, s. unfold data, bind. rewrite (get_node_eq _ _ _ Hn). done.
Qed.

Lemma total_modify_node l f :
  l < N →
  (∀ s n, N ≤ length (nodes s) → node_ok s n → node_ok s (f n)) →
  (∀ n, _chain_link_history (f n) = _chain_link_history n) →
  (l = this ∨ ∀ n, _data (f n) = _data n) →
  total (held this h d0 N) (modify_node l f) (λ _, True).
Proof.
  intros Hl Hok Hhist Hdata s [Hlin HN].
  exists tt, (set_nodes (alter f l (nodes s)) s).
  rewrite modify_node_eq by lia. split; [done|]. split; [|done]. split.
  - apply lineage_alter; auto.
  - simpl. by rewrite length_alter.
Qed.

Lemma total_add_entry_link item :
  item < N → total (held this h d0 N) (add_entry_link h item) (λ _, True).
Proof.
  intros Hitem s [Hlin HN].
  destruct (add_entry_link_keeps s this h d0 item Hlin) as (s' & Hrun & Hlin'); [lia|].
  exists h, s'. split; [done|]. split; [|done]. split; [done|].
  pose proof (grow_add_entry_link h item s) as Hg. rewrite Hrun in Hg.
  apply sets_grow_length in Hg. simpl in Hg. lia.
Qed.

Lemma total_set_next nl :
  this < N → (if nl is Some l then l < N else True) →
  total (held this h d0 N) (set_next this nl false) (λ _, True).
Proof.
  intros Hthis Hnl. unfold set_next.
  eapply (total_bind _ _ _ (λ _, True)).
  { apply (total_modify_node this (with_next nl)); [done| |done|by left].
    intros s n HN (? & ? & _). repeat split; [done..|].
    destruct nl; simpl in *; lia. }
  intros _ _. eapply (total_bind _ _ _ (λ _, True)).
  { destruct nl as [l|]; [|by apply total_ret].
    eapply (total_bind _ _ _ (λ _, True)).
    - apply (total_modify_node this (progeny_add l)); [done| |done|by left].
      by intros s n _ ?.
    - intros _ _. apply (total_modify_node l (ancestors_add this)); [done| |done|by right].
      by intros s n _ ?. }
  intros _ _. eapply (total_bind _ _ _ (λ _, True)); [by apply total_ret|].
  intros _ _. by apply total_ret.
Qed.

Lemma total_set_previous nl :
  this < N → (if nl is Some l then l < N else True) →
  total (held this h d0 N) (set_previous this nl false) (λ _, True).
Proof.
  intros Hthis Hnl. unfold set_previous.
  eapply (total_bind _ _ _ (λ _, True)).
  { apply (total_modify_node this (with_previous nl)); [done| |done|by left].
    intros s n HN (? & _ & ?). repeat split; [done| |done].
    destruct nl; simpl in *; lia. }
  intros _ _. eapply (total_bind _ _ _ (λ _, True)).
  { destruct nl as [l|]; [|by apply total_ret].
    eapply (total_bind _ _ _ (λ _, True)).
    - apply (total_modify_node this (ancestors_add l)); [done| |done|by left].
      by intros s n _ ?.
    - intros _ _. apply (total_modify_node l (progeny_add this)); [done| |done|by right].
      by intros s n _ ?. }
  intros _ _. eapply (total_bind _ _ _ (λ _, True)); [by apply total_ret|].
  intros _ _. by apply total_ret.
Qed.

Lemma total_with_metadata m :
  this < N →
  total (held this h d0 N)
    (let* current := metadata this in
     modify_node this (with_metadata (Some (merge_metadata m current))))
    (λ _, True).
Proof.
  intros Hthis. eapply total_bind; [by apply total_metadata|].
  intros current _.
  apply total_modify_node; [done| |done|by left]. by intros s n _ ?.
Qed.

Lemma total_update_metadata m :
  this < N → total (held this h d0 N) (update_metadata this m) (λ _, True).
Proof.
  intros Hthis. unfold update_metadata.
  eapply total_bind; [by apply total_metadata|]. intros current _.
  eapply (total_bind _ _ _ (λ _, True)).
  { apply total_modify_node; [done| |done|by left]. by intros s n _ ?. }
  intros _ _. eapply total_bind; [apply total_history|]. intros ? ->.
  eapply total_bind; [by apply total_add_entry_link|].
  intros _ _. by apply total_ret.
Qed.

Lemma total_update d :
  this < N →
  (if i_next d is Some (Some l) then l < N else True) →
  (if i_parent d is Some (Some l) then l < N else True) →
  total (held this h d0 N) (update this d) (λ _, True).
Proof.
  intros Hthis Hnext Hparent. unfold update.
  eapply (total_bind _ _ _ (λ _, True)).
  { destruct (i_metadata d) as [m|]; [|by apply total_ret].
    eapply total_bind; [by apply total_update_metadata|].
    intros _ _. by apply total_ret. }
  intros _ _. eapply (total_bind _ _ _ (λ _, True)).
  { destruct (i_metadata d) as [m|]; [|by apply total_ret].
    by apply total_with_metadata. }
  intros _ _. eapply (total_bind _ _ _ (λ _, True)).
  { destruct (i_data d) as [x|]; [|by apply total_ret].
    apply total_modify_node; [done| |done|by left]. by intros s n _ ?. }
  intros _ _. eapply (total_bind _ _ _ (λ _, True)).
  { destruct (i_next d) as [nl|]; [|by apply total_ret].
    eapply total_bind; [apply total_set_next; [done|by destruct nl]|].
    intros _ _. by apply total_ret. }
  intros _ _. eapply (total_bind _ _ _ (λ _, True)).
  { destruct (i_parent d) as [nl|]; [|by apply total_ret].
    eapply total_bind; [apply total_set_previous; [done|by destruct nl]|].
    intros _ _. by apply total_ret. }
  intros _ _. eapply total_bind; [apply total_history|]. intros ? ->.
  eapply total_bind; [by apply total_add_entry_link|].
  intros _ _. by apply total_ret.
Qed.

End held_rules.

(** [update] on the live node returns and keeps the lineage, whatever fields
    it is given. *)
Lemma update_keeps s this h d0 d :
  lineage s this h d0 →
  valid_ref s (default None (i_next d)) →
  valid_ref s (default None (i_parent d)) →
  ∃ s', update this d s = Ret this s' ∧ lineage s' this h d0.
Proof.
  intros Hlin Hnext Hparent.
  assert (held this h d0 (length (nodes s)) s) as Hheld by (by split).
  pose proof (held_this _ _ _ _ _ Hheld) as Hthis.
  destruct (total_update this h d0 (length (nodes s)) d Hthis) with (s := s)
    as (a & s' & Hrun & [Hlin' _] & _); [| |done|].
  { by destruct (i_next d) as [[l|]|]. }
  { by destruct (i_parent d) as [[l|]|]. }
  exists s'. split; [|done].
  assert (a = this) as ->; [|done].
  unfold update in Hrun. revert Hrun. unfold bind.
  repeat (match goal with
          | |- context [match ?m s with _ => _ end] => destruct (m s)
          | |- context [match ?m ?s0 with Ret _ _ => _ | Throw _ _ => _ end] =>
              destruct (m s0)
          end; try done).
  unfold ret. congruence.
Qed.

(** ** Reverting and branching keep the lineage *)

Lemma rebuild_at_total s this h d0 index :
  lineage s this h d0 →
  ∃ r s', rebuild_at h index s = Ret r s' ∧ lineage s' this h d0
          ∧ length (nodes s) ≤ length (nodes s')
          ∧ (if r is Some b then b < length (nodes s') else True).
Proof.
  intros Hlin. pose proof Hlin as (Hwf & Hinv & _).
  destruct (lineage_hist _ _ _ _ Hlin) as [x Hx].
  pose proof (grow_rebuild_at h index s) as Hg. apply sets_grow_length in Hg.
  destruct (decide (0 ≤ index < Z.of_nat (length (_timeline x)))%Z) as [Hin|Hout].
  - destruct (rebuild_at_replays s h d0 x index Hwf Hinv Hx Hin)
      as (s' & Hrun & _ & _ & Hb).
    rewrite Hrun in Hg. simpl in Hg.
    exists (Some (length (nodes s))), s'. split; [done|].
    split; [by eapply rebuild_at_keeps|]. split; [done|].
    apply data_at_Some in Hb as (nb & Hnb & _). by eapply lookup_lt_Some.
  - pose proof (rebuild_at_post s h x index Hx) as Hpost.
    destruct (rebuild_at h index s) as [[b|] s'|] eqn:Hrun.
    + destruct Hpost as [? _]. lia.
    + destruct Hpost as [-> _]. by exists None, s.
    + exfalso. revert Hrun. unfold rebuild_at, bind.
      rewrite (get_hist_eq _ _ _ Hx).
      assert ((index <? 0)%Z || (Z.of_nat (length (_timeline x)) <=? index)%Z = true)
        as ->; [|done].
      apply orb_true_iff. rewrite Z.ltb_lt, Z.leb_le. lia.
Qed.

Lemma revert_to_history_keeps s this h d0 index :
  lineage s this h d0 →
  ∃ s', revert_to_history this index s = Ret this s' ∧ lineage s' this h d0.
Proof.
  intros Hlin.
  pose proof Hlin as (_ & _ & n & x & Hn & Hh & _).
  destruct (rebuild_at_total s this h d0 index Hlin)
    as (r & s1 & Hrun & Hlin1 & Hlen & Hr).
  unfold revert_to_history, bind at 1. unfold history, bind at 1.
  rewrite (get_node_eq _ _ _ Hn). unfold ret at 1. cbv beta iota. rewrite Hh.
  unfold bind at 1. rewrite Hrun. cbv beta iota.
  destruct r as [b|].
  2:{ exists s1. by unfold bind, ret. }
  assert (held this h d0 (length (nodes s1)) s1) as Hheld by (by split).
  pose proof (held_this _ _ _ _ _ Hheld) as Hthis.
  assert (total (held this h d0 (length (nodes s1)))
            (let* d := data b in
             modify_node this (with_data d) ;;
             let* m := metadata b in
             modify_node this (with_metadata (Some m)) ;;
             add_entry_link h this ;;
             ret tt) (λ _, True)) as Htail.
  { eapply (total_bind _ _ _ (λ _, True)); [by apply total_data|]. intros d _.
    eapply (total_bind _ _ _ (λ _, True)).
    { apply total_modify_node; [done| |done|by left]. by intros ? ? _ ?. }
    intros _ _. eapply (total_bind _ _ _ (λ _, True)); [by apply total_metadata|].
    intros m _. eapply (total_bind _ _ _ (λ _, True)).
    { apply total_modify_node; [done| |done|by left]. by intros ? ? _ ?. }
    intros _ _. eapply (total_bind _ _ _ (λ _, True)); [by apply total_add_entry_link|].
    intros _ _. by apply total_ret. }
  destruct (Htail s1 Hheld) as ([] & s2 & Hrun2 & [Hlin2 _] & _).
  exists s2. unfold bind at 1. rewrite Hrun2. done.
Qed.


(** [rebuild_at] allocates one snapshot of the history and leaves the
    pointers, history, flag and origin of every node as they were. *)
Lemma rebuild_at_refs s h x index b s' :
  wf s → hists s !! h = Some x →
  rebuild_at h index s = Ret (Some b) s' →
  b = length (nodes s)
  ∧ ∃ nb0, refs_of <$> nodes s' = refs_of <$> (nodes s ++ [snapshot_of h nb0]).
Proof.
  intros Hwf Hx Hrun.
  pose proof (rebuild_at_post s h x index Hx) as Hpost. rewrite Hrun in Hpost.
  destruct Hpost as (Hidx & -> & Hh & Hold & _). split; [done|].
  unfold rebuild_at, bind in Hrun. rewrite (get_hist_eq _ _ _ Hx) in Hrun.
  replace ((index <? 0)%Z || (Z.of_nat (length (_timeline x)) <=? index)%Z)
    with false in Hrun.
  2:{ symmetry. apply orb_false_iff. split; [apply Z.ltb_ge|apply Z.leb_gt]; lia. }
  set (base := (replay_base x (Z.to_nat index)).1).
  assert (match nearest_checkpoint (_timeline x) (Z.to_nat index) with
          | Some (_, c) => create_snapshot_link h c
          | None => create_snapshot_link h (_original_state x)
          end = create_snapshot_link h base) as Hbase.
  { unfold base, replay_base. by destruct (nearest_checkpoint _ _) as [[? ?]|]. }
  rewrite Hbase in Hrun.
  destruct (nodes s !! base) as [nb|] eqn:Hnb.
  2:{ unfold create_snapshot_link, data, bind, get_node in Hrun.
      by rewrite Hnb in Hrun. }
  destruct (create_snapshot_link_wf s h base nb Hwf Hnb) as (s1 & Hs1 & Hh1 & _ & Hc1).
  rewrite Hs1 in Hrun. cbv beta iota in Hrun.
  match type of Hrun with
  | context [for_each ?idxs ?body s1] =>
      pose proof (same_refs_replay (_timeline x) (length (nodes s)) idxs s1) as Hrefs;
      destruct (for_each idxs body s1) as [[] s2|]; [|done]
  end.
  simpl in Hrefs, Hrun. injection Hrun as <-.
  exists nb. unfold same_refs in Hrefs. rewrite Hrefs. by apply refs_from_core.
Qed.


Lemma branch_from_history_keeps s this h d0 index b s' :
  lineage s this h d0 →
  branch_from_history this index s = Ret b s' →
  lineage s' this h d0.
Proof.
  intros Hlin.
  pose proof Hlin as (_ & _ & n & _ & Hn & Hh & _).
  destruct (rebuild_at_total s this h d0 index Hlin)
    as (r & s1 & Hrun & Hlin1 & Hlen & Hr).
  unfold branch_from_history, history, data, metadata, origin, bind, ret.
  exec. rewrite Hh, Hrun. destruct r as [b1|]; [|done].
  destruct (lookup_lt_is_Some_2 _ _ Hr) as [nb Hnb].
  pose proof Hlin1 as (Hwf1 & _ & n1 & _ & Hn1 & _).
  exec.
  match goal with |- context [LinkedChain_new ?i] => set (ing := i) end.
  destruct (LinkedChain_new_constructed s1 ing) as (s2 & Hrun2 & Hcons); [done..|].
  pose proof (LinkedChain_new_keeps _ _ _ _ _ _ Hlin1 Hcons) as Hlin2.
  destruct (add_entry_link_keeps s2 this h d0 (length (nodes s1)) Hlin2)
    as (s3 & Hrun3 & Hlin3).
  { pose proof (constructed_refs _ _ _ Hcons) as Hrefs.
    apply (f_equal length) in Hrefs.
    rewrite !length_fmap, length_app in Hrefs. simpl in Hrefs. lia. }
  rewrite Hrun2, Hrun3. by intros [= _ <-].
Qed.

(** * Reconstruction correctness (claim C1) *)

(** The calls that drive the ledger of a node.  [add_checkpoint] with a node
    of the caller's choice is not one of them. *)
Inductive ledger_call :=
| Ledger_update (d : Ingredients)
| Ledger_add_entry (item : loc + JsObj)
| Ledger_save_checkpoint
| Ledger_rebuild_at (index : Z)
| Ledger_revert_to_history (index : Z)
| Ledger_branch_from_history (index : Z)
| Ledger_new (ing : Ingredients).

(** [ledger_run this h c]: the call [c] on the node [this], whose history is
    [h]; [Ledger_new] constructs another node. *)
Definition ledger_run (this : loc) (h : hid) (c : ledger_call) : M unit :=
  match c with
  | Ledger_update d => update this d ;; ret tt
  | Ledger_add_entry item => add_entry h item ;; ret tt
  | Ledger_save_checkpoint => save_checkpoint h ;; ret tt
  | Ledger_rebuild_at index => rebuild_at h index ;; ret tt
  | Ledger_revert_to_history index => revert_to_history this index ;; ret tt
  | Ledger_branch_from_history index => branch_from_history this index ;; ret tt
  | Ledger_new ing => LinkedChain_new ing ;; ret tt
  end.

(** The nodes a call is given exist, and a node constructed on the side
    takes a history of its own. *)
Definition ledger_call_ok (s : Store) (c : ledger_call) : Prop :=
  match c with
  | Ledger_update d =>
      valid_ref s (default None (i_next d)) ∧ valid_ref s (default None (i_parent d))
  | Ledger_add_entry (inl item) => item < length (nodes s)
  | Ledger_new ing =>
      valid_ref s (default None (i_parent ing))
      ∧ valid_ref s (default None (i_next ing))
      ∧ (if default false (i_is_snapshot ing) then i_history ing else None) = None
  | _ => True
  end.

(** [seeded s this h d0]: in [s], the node [this] was constructed with the
    data [d0], which gave it the history [h], and has since been driven by
    ledger calls that returned. *)
Inductive seeded : Store → loc → hid → JsObj → Prop :=
| seeded_new s ing d0 s' :
    wf s →
    valid_ref s (default None (i_parent ing)) →
    valid_ref s (default None (i_next ing)) →
    (if default false (i_is_snapshot ing) then i_history ing else None) = None →
    i_data ing = Some d0 →
    LinkedChain_new ing s = Ret (length (nodes s)) s' →
    seeded s' (length (nodes s)) (length (hists s)) d0
| seeded_call s this h d0 c s' :
    seeded s this h d0 →
    ledger_call_ok s c →
    ledger_run this h c s = Ret tt s' →
    seeded s' this h d0.

Lemma run_then_ret {A} (m : M A) s s' :
  (m ;; ret tt) s = Ret tt s' → ∃ a, m s = Ret a s'.
Proof.
  unfold bind, ret. destruct (m s) as [a s1|]; [|done].
  intros [= <-]. by exists a.
Qed.

Lemma seeded_lineage s this h d0 : seeded s this h d0 → lineage s this h d0.
Proof.
  induction 1 as [s ing d0 s' Hwf Hp Hn Hown Hd Hrun
                 |s this h d0 c s' _ IH Hok Hrun].
  - destruct (LinkedChain_new_constructed s ing Hp Hn Hown) as (s'' & Hrun' & Hcons).
    assert (s'' = s') as -> by congruence.
    by apply LinkedChain_new_seeds with ing.
  - destruct c as [d|[item|p]| |index|index|index|ing]; simpl in Hok, Hrun;
      apply run_then_ret in Hrun as [a Hrun].
    + destruct Hok as [Hnext Hparent].
      destruct (update_keeps s this h d0 d IH Hnext Hparent) as (s'' & Hrun' & Hlin).
      congruence.
    + destruct (add_entry_link_keeps s this h d0 item IH Hok) as (s'' & Hrun' & Hlin).
      congruence.
    + destruct (add_entry_partial_keeps s this h d0 p IH) as (s'' & Hrun' & Hlin).
      congruence.
    + destruct (save_checkpoint_keeps s this h d0 IH) as (s'' & Hrun' & Hlin).
      congruence.
    + by eapply rebuild_at_keeps.
    + destruct (revert_to_history_keeps s this h d0 index IH) as (s'' & Hrun' & Hlin).
      congruence.
    + by eapply branch_from_history_keeps.
    + destruct Hok as (Hp & Hn & Hown).
      destruct (LinkedChain_new_constructed s ing Hp Hn Hown) as (s'' & Hrun' & Hcons).
      assert (s'' = s') as -> by congruence.
      by eapply LinkedChain_new_keeps.
Qed.


(** * Branching a node constructed with data (claim C3) *)

(** On the lineage of a node constructed with data, [branch_from_history] at
    an index within the timeline returns a node that the call allocated, so
    it is not the source node; the branch holds the data [rebuild_at]
    reconstructs for that index, has a history of its own, and its origin is
    the source's origin, or the source itself when it has none.  The source's
    data is as it was. *)
Lemma branch_from_history_returns s this h d0 x n index :
  lineage s this h d0 →
  hists s !! h = Some x → nodes s !! this = Some n →
  (0 ≤ index < Z.of_nat (length (_timeline x)))%Z →
  ∃ b s' nb,
    branch_from_history this index s = Ret b s'
    ∧ nodes s !! b = None
    ∧ nodes s' !! b = Some nb
    ∧ _data nb = Some (replay_deltas d0 (take (S (Z.to_nat index)) (_timeline x)))
    ∧ _origin nb = Some (default this (_origin n))
    ∧ _chain_link_history nb = length (hists s)
    ∧ _is_snapshot nb = false
    ∧ data_at s' this = data_at s this.
Proof.
  intros Hlin Hx Hn Hin.
  pose proof Hlin as (Hwf & Hinv & n' & x' & Hn' & Hh & Hx' & Hlive).
  assert (n' = n) as -> by congruence. assert (x' = x) as -> by congruence.
  assert (this < length (nodes s)) as Hthis by (by eapply lookup_lt_Some).
  (* the snapshot *)
  destruct (rebuild_at_replays s h d0 x index Hwf Hinv Hx Hin)
    as (s1 & Hrun & Hh1 & Hold1 & Hb).
  pose proof (rebuild_at_keeps _ _ _ _ _ _ _ _ Hlin Hrun) as Hlin1.
  apply data_at_Some in Hb as (nb1 & Hnb1 & Hdb1).
  destruct (rebuild_at_refs s h x index _ s1 Hwf Hx Hrun) as (_ & nb0 & Hr1).
  assert (length (nodes s1) = S (length (nodes s))) as Hlen1.
  { rewrite <- (length_fmap refs_of (nodes s1)), Hr1, length_fmap, length_app.
    simpl. lia. }
  destruct (same_refs_lookup _ (nodes s1) this n Hr1) as (n1 & Hn1 & Hrn1).
  { by apply lookup_app_l_Some. }
  assert (_origin n1 = _origin n) as Ho1.
  { unfold refs_of in Hrn1. congruence. }
  assert (_data n1 = _data n) as Hd1.
  { pose proof (Hold1 this Hthis) as Hd. unfold data_at in Hd.
    rewrite Hn1, Hn in Hd. exact Hd. }
  unfold branch_from_history, history, data, metadata, origin, bind, ret.
  exec. rewrite Hh, Hrun. exec.
  (* the branch *)
  match goal with |- context [LinkedChain_new ?i] => set (ing := i) end.
  destruct (LinkedChain_new_total s1 ing) as (s2 & Hrun2 & Hh2 & Hc2); [done..|].
  destruct (LinkedChain_new_constructed s1 ing) as (s2' & Hrun2' & Hcons); [done..|].
  assert (s2' = s2) as -> by congruence.
  pose proof (LinkedChain_new_keeps _ _ _ _ _ _ Hlin1 Hcons) as Hlin2.
  destruct (core_lookup (nodes s2) _ (length (nodes s1))
              (core_of (fresh_node ing (length (hists s1)))) Hc2) as (nb & Hnb & Hcnb).
  { rewrite lookup_app_r by (by rewrite length_fmap).
    by rewrite length_fmap, Nat.sub_diag. }
  (* recording the branch in the source's history *)
  destruct (lineage_hist _ _ _ _ Hlin2) as [x2 Hx2].
  destruct (lineage_latest _ _ _ _ _ Hlin2 Hx2) as (nl2 & Hnl2 & _).
  assert (_latest_state x2 < length (nodes s)) as Hlat.
  { assert (x2 = x) as ->.
    { rewrite Hh2, Hh1 in Hx2. rewrite lookup_app_l in Hx2 by (by eapply lookup_lt_Some).
      congruence. }
    destruct (wf_hist _ _ _ Hwf Hx) as (? & _). done. }
  rewrite Hrun2. rewrite (add_entry_link_eq s2 h _ nb x2 nl2 Hnb Hx2 Hnl2).
  exists (length (nodes s1)). eexists. exists nb.
  split; [reflexivity|].
  split; [apply lookup_ge_None_2; lia|].
  assert (∀ l, l ≠ _latest_state x2 →
            nodes (if records nb nl2
                   then {| nodes := alter (absorb (data_delta_of nb nl2) (meta_delta_of nb nl2))
                                      (_latest_state x2) (nodes s2);
                           hists := alter (timeline_push (entry_of (clock s2) nb nl2)) h
                                      (hists s2);
                           clock := clock s2 |}
                   else s2) !! l = nodes s2 !! l) as Hsame.
  { intros l Hl. destruct (records nb nl2); [|done]. simpl.
    by rewrite list_lookup_alter_ne. }
  split; [rewrite Hsame by lia; exact Hnb|].
  unfold core_of, fresh_node in Hcnb. injection Hcnb as Ho _ Hd _ _ Hhist Hsnap.
  split; [rewrite Hd; unfold ing; simpl; by rewrite Hdb1|].
  split; [rewrite Ho; unfold ing; simpl; by rewrite Ho1|].
  split; [rewrite Hhist; by rewrite Hh1|].
  split; [rewrite Hsnap; done|].
  unfold data_at. rewrite Hsame.
  2:{ destruct Hlive as (Hne & _). intros ->.
      assert (x2 = x) as ->; [|done].
      rewrite Hh2, Hh1 in Hx2. rewrite lookup_app_l in Hx2 by (by eapply lookup_lt_Some).
      congruence. }
  pose proof (constructed_old_data _ _ _ Hcons this) as Hd2.
  unfold data_at in Hd2. rewrite Hd2 by lia. rewrite Hn1, Hn. simpl. done.
Qed.

(** * Further properties: deltas *)

(** ** [calculate_delta] and [Object.assign] *)

Lemma calculate_delta_lookup oldObj newObj k :
  calculate_delta oldObj newObj !! k
  = v ← newObj !! k; if decide (v = js_get oldObj k) then None else Some v.
Proof.
  unfold calculate_delta. destruct (newObj !! k) as [v|] eqn:Hk; simpl.
  - destruct (decide (v = js_get oldObj k)) as [He|Hne].
    + apply map_lookup_filter_None. right. intros v' Hv'. simpl.
      rewrite Hk in Hv'. injection Hv' as <-. by intros ?.
    + apply map_lookup_filter_Some. done.
  - apply map_lookup_filter_None. by left.
Qed.

Lemma calculate_delta_assigned oldObj newObj k :
  js_get (object_assign oldObj (calculate_delta oldObj newObj)) k
  = default (js_get oldObj k) (newObj !! k).
Proof.
  unfold js_get at 1, object_assign. rewrite lookup_union, calculate_delta_lookup.
  destruct (newObj !! k) as [v|]; simpl.
  - destruct (decide (v = js_get oldObj k)) as [->|Hne]; simpl.
    + rewrite (left_id None _). done.
    + by destruct (oldObj !! k).
  - rewrite (left_id None _). done.
Qed.

(** Applying to the old object the delta computed against it gives an object
    that reads, key by key, like the new object wherever the new object has
    the key, and like the old object elsewhere: the delta carries only
    fields of the new object, and a field the new object dropped is never
    removed. *)
Theorem calculate_delta_round_trip oldObj newObj k :
  js_get (object_assign oldObj (calculate_delta oldObj newObj)) k
  = default (js_get oldObj k) (newObj !! k)
  ∧ calculate_delta oldObj newObj ⊆ newObj.
Proof.
  split; [apply calculate_delta_assigned|].
  unfold calculate_delta. apply map_filter_subseteq.
Qed.

(** ** Deltas between points compose *)

Lemma union_deltas_from acc entries :
  foldl (λ acc e, match data_delta e with Some d => d ∪ acc | None => acc end)
        acc entries
  = union_last_write_wins entries ∪ acc.
Proof.
  unfold union_last_write_wins.
  induction entries as [|e entries IH] using rev_ind; simpl.
  - by rewrite (left_id ∅ _).
  - rewrite !foldl_snoc, IH. destruct (data_delta e) as [d|]; [|done].
    by rewrite (assoc_L _).
Qed.

(** For points [a <= b <= c] of the timeline, the delta from [a] to [c] is
    the delta from [a] to [b] with the delta from [b] to [c] assigned over
    it; none of the three calls changes the heap. *)
Theorem delta_between_points_compose s h x (a b c : Z) :
  hists s !! h = Some x →
  (0 ≤ a)%Z → (a ≤ b)%Z → (b ≤ c)%Z → (c < Z.of_nat (length (_timeline x)))%Z →
  ∃ dab dbc,
    delta_between_points h a b s = Ret dab s
    ∧ delta_between_points h b c s = Ret dbc s
    ∧ delta_between_points h a c s = Ret (object_assign dab dbc) s.
Proof.
  intros Hx Ha Hab Hbc Hc.
  assert (∀ p q : Z, (0 ≤ p)%Z → (p ≤ q)%Z → (q < Z.of_nat (length (_timeline x)))%Z →
            delta_between_points h p q s
            = Ret (union_last_write_wins
                     (take (Z.to_nat q - Z.to_nat p) (drop (S (Z.to_nat p)) (_timeline x)))) s)
    as Hrun.
  { intros p q Hp Hpq Hq. unfold delta_between_points, bind.
    rewrite (get_hist_eq _ _ _ Hx).
    replace (p <? 0)%Z with false by (symmetry; apply Z.ltb_ge; lia).
    replace (Z.of_nat (length (_timeline x)) <=? q)%Z with false
      by (symmetry; apply Z.leb_gt; lia).
    simpl. destruct (decide (p < q)%Z) as [Hlt|Hge].
    - replace (p <? q)%Z with true by (symmetry; apply Z.ltb_lt; lia).
      unfold ret. f_equal. rewrite accumulate_deltas_foldl by lia.
      unfold union_last_write_wins.
      replace (Z.to_nat (p + 1)) with (S (Z.to_nat p)) by lia.
      replace (Z.to_nat (q - p)) with (Z.to_nat q - Z.to_nat p) by lia.
      done.
    - replace (p <? q)%Z with false by (symmetry; apply Z.ltb_ge; lia).
      replace (Z.to_nat q - Z.to_nat p) with 0 by lia. done. }
  eexists _, _. split; [apply Hrun; lia|]. split; [apply Hrun; lia|].
  rewrite Hrun by lia. f_equal.
  set (tl := _timeline x). set (na := Z.to_nat a). set (nb := Z.to_nat b).
  set (nc := Z.to_nat c).
  assert (take (nc - na) (drop (S na) tl)
          = take (nb - na) (drop (S na) tl) ++ take (nc - nb) (drop (S nb) tl)) as ->.
  { replace (nc - na) with ((nb - na) + (nc - nb)) by lia.
    rewrite <- take_take_drop, drop_drop. do 3 f_equal. lia. }
  unfold union_last_write_wins at 1. rewrite foldl_app.
  fold (union_last_write_wins (take (nb - na) (drop (S na) tl))).
  by rewrite union_deltas_from.
Qed.

(** * Further properties: traversal *)

Lemma walk_add s dir a b start :
  walk s dir (a + b) start = walk s dir b (walk s dir a start).
Proof. revert start. induction a as [|a IH]; intros start; simpl; [done|apply IH]. Qed.

Lemma walk_S_r s dir k start :
  walk s dir (S k) start = walk s dir k start ≫= step s dir.
Proof. replace (S k) with (k + 1) by lia. by rewrite walk_add. Qed.

Lemma walk_None_mono s dir a b start :
  a ≤ b → walk s dir a start = None → walk s dir b start = None.
Proof.
  intros Hab Ha. replace b with (a + (b - a)) by lia.
  by rewrite walk_add, Ha, walk_None.
Qed.

(** A chain that comes back to a position it had [p] hops earlier repeats
    with period [p] from there on. *)
Lemma walk_periodic s dir m p start :
  walk s dir (m + p) start = walk s dir m start →
  ∀ n u, m ≤ u → walk s dir (u + n * p) start = walk s dir u start.
Proof.
  intros Hp.
  assert (∀ u, m ≤ u → walk s dir (u + p) start = walk s dir u start) as Hone.
  { intros u Hu. replace (u + p) with ((m + p) + (u - m)) by lia.
    rewrite walk_add, Hp, <- walk_add. f_equal. lia. }
  induction n as [|n IH]; intros u Hu.
  - f_equal. lia.
  - replace (u + S n * p) with ((u + n * p) + p) by lia.
    rewrite Hone by lia. by apply IH.
Qed.

Lemma walk_periodic_never_ends s dir m p start :
  1 ≤ p → walk s dir (m + p) start = walk s dir m start →
  walk s dir m start ≠ None →
  ∀ k, walk s dir k start ≠ None.
Proof.
  intros Hp Hper Hm k Hk.
  apply Hm. rewrite <- (walk_periodic s dir m p start Hper k m) by lia.
  apply (walk_None_mono s dir k); [nia|done].
Qed.

(** ** [find] *)

Lemma find_app {A} (f : A → bool) (l1 l2 : list A) :
  List.find f (l1 ++ l2)
  = match List.find f l1 with Some x => Some x | None => List.find f l2 end.
Proof. induction l1 as [|x l1 IH]; simpl; [done|]. by destruct (f x). Qed.

(** Running the generator to its end and then searching the list finds the
    node the lazy loop stops at. *)
Lemma find_loop_iterate_loop fuel s dir this predicate :
  ∀ current l,
    iterate_loop fuel s dir this current = Some l →
    find_loop fuel s dir this predicate current = Some (List.find predicate l).
Proof.
  induction fuel as [|fuel IH]; intros [c|] l; simpl; try done.
  - by intros [= <-].
  - destruct (decide (step s dir c = Some this)) as [Hback|Hon].
    + intros [= <-]. simpl. by destruct (predicate c).
    + destruct (iterate_loop fuel s dir this (step s dir c)) as [l'|] eqn:Hl'; [|done].
      simpl. intros [= <-]. simpl. destruct (predicate c); [done|].
      by apply IH.
  - by intros [= <-].
Qed.

(** [find] returns the first node that satisfies the predicate in the
    order: the node itself, its progeny path, its ancestor path; and
    [undefined] when none of them does. *)
Theorem find_first_match fuel s this predicate lp la :
  progeny_path fuel s this = Some lp →
  ancestor_path fuel s this = Some la →
  find fuel s this predicate = Some (List.find predicate (this :: lp ++ la)).
Proof.
  unfold progeny_path, ancestor_path, iterate, find. intros Hp Ha. simpl.
  destruct (predicate this); [done|].
  rewrite (find_loop_iterate_loop _ _ _ _ predicate _ _ Hp), find_app.
  destruct (List.find predicate lp); [done|].
  by apply find_loop_iterate_loop.
Qed.

(** ** [iterate] on a chain that loops without passing the start *)

Lemma iterate_loop_never_ends s dir this fuel :
  ∀ current,
    (∀ k, walk s dir k current ≠ None) →
    (∀ k, 1 ≤ k → walk s dir k current ≠ Some this) →
    iterate_loop fuel s dir this current = None.
Proof.
  induction fuel as [|fuel IH]; intros current Hnone Hthis.
  - destruct current as [c|]; [done|]. by destruct (Hnone 0).
  - destruct current as [c|]; [|by destruct (Hnone 0)]. simpl.
    rewrite decide_False by apply (Hthis 1 (le_n 1)).
    rewrite IH; [done| |].
    + intros k. apply (Hnone (S k)).
    + intros k Hk. apply (Hthis (S k)). lia.
Qed.

(** The guard of [iterate] only recognises the start.  When the chain of
    [this] runs into a loop that does not pass through [this] (it repeats
    with period [p] from hop [m] on, and none of the first [m + p] hops is
    [null] or [this]), the generator never ends: whatever the fuel, the loop
    has not left. *)
Theorem iterate_never_ends s this dir m p :
  1 ≤ m → 1 ≤ p →
  walk s dir (m + p) (Some this) = walk s dir m (Some this) →
  (∀ k, 1 ≤ k → k < m + p →
     walk s dir k (Some this) ≠ None ∧ walk s dir k (Some this) ≠ Some this) →
  ∀ fuel, iterate fuel s this dir = None.
Proof.
  intros Hm Hp Hper Hfirst fuel.
  assert (∀ k, 1 ≤ k →
            walk s dir k (Some this) ≠ None ∧ walk s dir k (Some this) ≠ Some this)
    as Hall.
  { intros k. induction (lt_wf k) as [k _ IH]. intros Hk.
    destruct (decide (k < m + p)) as [Hlt|Hge]; [by apply Hfirst|].
    replace k with ((k - p) + 1 * p) by lia.
    rewrite (walk_periodic s dir m p _ Hper) by lia.
    apply IH; lia. }
  unfold iterate. apply iterate_loop_never_ends.
  - intros k. apply (Hall (S k)). lia.
  - intros k Hk. apply (Hall (S k)). lia.
Qed.

(** ** [has_circular_link] *)

(** The [k]-th node of the [next] chain of [this]. *)
Definition chain (s : Store) (this : loc) (k : nat) : option loc :=
  walk s Dnext k (Some this).

Lemma chain_S s this k : chain s this (S k) = chain s this k ≫= step s Dnext.
Proof. apply walk_S_r. Qed.

Lemma chain_Some_le s this a b :
  a ≤ b → chain s this b ≠ None → chain s this a ≠ None.
Proof. intros Hab Hb Ha. apply Hb. by apply (walk_None_mono s Dnext a). Qed.

(** What the loop does from the position it has after [i] rounds. *)
Lemma has_circular_link_loop_round s this fuel i :
  has_circular_link_loop fuel s (chain s this i) (chain s this (2 * i))
  = if decide (chain s this (2 * i + 1) = None) then Some (inr false)
    else match fuel with
         | O => None
         | S fuel' =>
             if decide (chain s this (S i) = chain s this (2 * S i))
             then Some (inr true)
             else has_circular_link_loop fuel' s (chain s this (S i))
                    (chain s this (2 * S i))
         end.
Proof.
  replace (2 * i + 1) with (S (2 * i)) by lia.
  replace (2 * S i) with (S (S (2 * i))) by lia.
  rewrite (chain_S s this (S (2 * i))). rewrite (chain_S s this (2 * i)).
  destruct (chain s this (2 * i)) as [h|] eqn:Hh.
  2:{ rewrite decide_True by done. by destruct fuel. }
  change (Some h ≫= step s Dnext) with (step s Dnext h).
  destruct (step s Dnext h) as [h1|] eqn:Hh1.
  2:{ rewrite decide_True by done. destruct fuel; simpl; by rewrite Hh1. }
  rewrite decide_False by done.
  change (Some h1 ≫= step s Dnext) with (step s Dnext h1).
  destruct fuel as [|fuel]; [simpl; by rewrite Hh1|].
  destruct (chain s this i) as [t|] eqn:Ht.
  2:{ exfalso. apply (chain_Some_le s this i (2 * i)); [lia|by rewrite Hh|done]. }
  rewrite (chain_S s this i), Ht.
  change (Some t ≫= step s Dnext) with (step s Dnext t).
  simpl. rewrite Hh1. done.
Qed.

Lemma has_circular_link_loop_sound s this fuel :
  ∀ i r,
    has_circular_link_loop fuel s (chain s this i) (chain s this (2 * i)) = Some r →
    (r = inr true ∧ ∀ k, chain s this k ≠ None)
    ∨ (r = inr false ∧ ∃ k, chain s this k = None).
Proof.
  induction fuel as [|fuel IH]; intros i r; rewrite has_circular_link_loop_round.
  - destruct (decide _) as [Hend|_]; [|done]. intros [= <-]. right. eauto.
  - destruct (decide _) as [Hend|Hon]; [intros [= <-]; right; eauto|].
    destruct (decide _) as [Hmeet|_]; [|apply IH].
    intros [= <-]. left. split; [done|].
    apply (walk_periodic_never_ends s Dnext (S i) (S i)); [lia| |].
    + unfold chain in Hmeet. rewrite Hmeet. f_equal. lia.
    + apply (chain_Some_le s this (S i) (2 * i + 1)); [lia|done].
Qed.

(** Whatever its fuel, when [has_circular_link] gives a result it is a
    boolean, never the [TypeError] of [tortoise!.next()]; [true] is given
    only for a chain that never reaches [null], [false] only for one that
    does. *)
Theorem has_circular_link_sound s this fuel r :
  has_circular_link fuel s this = Some r →
  (r = inr true ∧ ∀ k, walk s Dnext k (Some this) ≠ None)
  ∨ (r = inr false ∧ ∃ k, walk s Dnext k (Some this) = None).
Proof. apply (has_circular_link_loop_sound s this fuel 0). Qed.

Lemma has_circular_link_loop_false s this k fuel :
  ∀ i,
    chain s this k = None → k ≤ i + fuel →
    has_circular_link_loop fuel s (chain s this i) (chain s this (2 * i))
    = Some (inr false).
Proof.
  intros i Hk. revert i.
  induction fuel as [|fuel IH]; intros i Hfuel; rewrite has_circular_link_loop_round.
  - rewrite decide_True; [done|]. apply (walk_None_mono s Dnext k); [lia|done].
  - destruct (decide _) as [Hend|Hon]; [done|].
    destruct (decide _) as [Hmeet|_]; [|apply IH; lia].
    exfalso.
    apply (walk_periodic_never_ends s Dnext (S i) (S i) (Some this)) with (k := k);
      [lia| | |done].
    + unfold chain in Hmeet. rewrite Hmeet. f_equal. lia.
    + apply (chain_Some_le s this (S i) (2 * i + 1)); [lia|done].
Qed.

(** On a chain that reaches [null] within [k] hops, [has_circular_link]
    returns [false] after at most [k] rounds. *)
Theorem has_circular_link_false s this k fuel :
  walk s Dnext k (Some this) = None → k ≤ fuel →
  has_circular_link fuel s this = Some (inr false).
Proof. intros Hk Hfuel. by apply (has_circular_link_loop_false s this k fuel 0). Qed.

Lemma has_circular_link_loop_true s this bound :
  (∀ k, chain s this k ≠ None) →
  chain s this bound = chain s this (2 * bound) →
  ∀ d i fuel,
    bound = S i + d → d < fuel →
    has_circular_link_loop fuel s (chain s this i) (chain s this (2 * i))
    = Some (inr true).
Proof.
  intros Hnever Hmeet.
  induction d as [|d IH]; intros i fuel Hi Hfuel; rewrite has_circular_link_loop_round;
    rewrite decide_False by apply Hnever;
    (destruct fuel as [|fuel]; [lia|]).
  - rewrite decide_True; [done|]. replace (S i) with bound by lia. done.
  - destruct (decide _); [done|]. apply IH; lia.
Qed.

(** On a chain that loops (it comes back, after [p >= 1] more hops, to the
    node it had at hop [m]), [has_circular_link] returns [true] after at most
    [p * (m + 1)] rounds. *)
Theorem has_circular_link_true s this m p fuel :
  1 ≤ p →
  walk s Dnext (m + p) (Some this) = walk s Dnext m (Some this) →
  walk s Dnext m (Some this) ≠ None →
  p * (m + 1) ≤ fuel →
  has_circular_link fuel s this = Some (inr true).
Proof.
  intros Hp Hper Hm Hfuel.
  apply (has_circular_link_loop_true s this (p * (m + 1))) with (d := p * (m + 1) - 1)
                                                             (i := 0).
  - by apply (walk_periodic_never_ends s Dnext m p).
  - unfold chain. symmetry.
    replace (2 * (p * (m + 1))) with (p * (m + 1) + (m + 1) * p) by lia.
    apply (walk_periodic s Dnext m p _ Hper). nia.
  - nia.
  - nia.
Qed.

(** * Further properties: what no method changes *)

(** The fields of a node that are set once, by the constructor. *)
Definition node_identity (n : LinkedChain) :=
  (_origin n, _chain_link_history n, _is_snapshot n).

(** Every node keeps its origin, history and snapshot flag; every history
    keeps its two snapshot references, and its timeline and list of saved
    checkpoints are extended at the end only. *)
Definition ledger_grows (s s' : Store) : Prop :=
  (∀ l n, nodes s !! l = Some n →
     ∃ n', nodes s' !! l = Some n' ∧ node_identity n' = node_identity n)
  ∧ (∀ h x, hists s !! h = Some x →
       ∃ x', hists s' !! h = Some x'
             ∧ _timeline x `prefix_of` _timeline x'
             ∧ _saved_checkpoints x `prefix_of` _saved_checkpoints x'
             ∧ _original_state x' = _original_state x
             ∧ _latest_state x' = _latest_state x).

#[global] Instance ledger_grows_preorder : PreOrder ledger_grows.
Proof.
  split.
  - intros s. split; [eauto|]. intros h x Hx. exists x. done.
  - intros s1 s2 s3 [Hn12 Hh12] [Hn23 Hh23]. split.
    + intros l n Hn. destruct (Hn12 l n Hn) as (n2 & Hn2 & Hi2).
      destruct (Hn23 l n2 Hn2) as (n3 & Hn3 & Hi3).
      exists n3. split; [done|congruence].
    + intros h x Hx. destruct (Hh12 h x Hx) as (x2 & Hx2 & Ht2 & Hc2 & Ho2 & Hl2).
      destruct (Hh23 h x2 Hx2) as (x3 & Hx3 & Ht3 & Hc3 & Ho3 & Hl3).
      exists x3. split; [done|].
      split; [by etrans|]. split; [by etrans|]. split; congruence.
Qed.

Lemma ledger_modify_node l f :
  (∀ n, node_identity (f n) = node_identity n) →
  preserves ledger_grows (modify_node l f).
Proof.
  intros Hf s. unfold modify_node, bind, get_node.
  destruct (nodes s !! l) as [n|] eqn:Hl; simpl; [|reflexivity].
  split; simpl.
  - intros l' n' Hn'. destruct (decide (l = l')) as [->|Hne].
    + exists (f n). rewrite list_lookup_insert_eq by (by eapply lookup_lt_Some).
      split; [done|]. rewrite Hl in Hn'. injection Hn' as <-. apply Hf.
    + exists n'. by rewrite list_lookup_insert_ne.
  - intros h x Hx. exists x. done.
Qed.

Lemma ledger_modify_hist h f :
  (∀ x, _timeline x `prefix_of` _timeline (f x)
        ∧ _saved_checkpoints x `prefix_of` _saved_checkpoints (f x)
        ∧ _original_state (f x) = _original_state x
        ∧ _latest_state (f x) = _latest_state x) →
  preserves ledger_grows (modify_hist h f).
Proof.
  intros Hf s. unfold modify_hist, bind, get_hist.
  destruct (hists s !! h) as [x|] eqn:Hh; simpl; [|reflexivity].
  split; simpl; [eauto|].
  intros h' x' Hx'. destruct (decide (h = h')) as [->|Hne].
  - exists (f x). rewrite list_lookup_insert_eq by (by eapply lookup_lt_Some).
    split; [done|]. rewrite Hh in Hx'. injection Hx' as <-. apply Hf.
  - exists x'. by rewrite list_lookup_insert_ne.
Qed.

Lemma ledger_timeline_push h e : preserves ledger_grows (modify_hist h (timeline_push e)).
Proof.
  apply ledger_modify_hist. intros x. simpl.
  split; [by apply prefix_app_r|done].
Qed.

Lemma ledger_saved_checkpoints_push h c :
  preserves ledger_grows (modify_hist h (saved_checkpoints_push c)).
Proof.
  apply ledger_modify_hist. intros x. simpl.
  split; [done|]. split; [by apply prefix_app_r|done].
Qed.

Lemma ledger_alloc_node n : preserves ledger_grows (alloc_node n).
Proof.
  intros s. split; simpl.
  - intros l n' Hn'. exists n'. split; [by apply lookup_app_l_Some|done].
  - intros h x Hx. exists x. done.
Qed.

Lemma ledger_alloc_hist x : preserves ledger_grows (alloc_hist x).
Proof.
  intros s. split; simpl; [eauto|].
  intros h x' Hx'. exists x'. split; [by apply lookup_app_l_Some|done].
Qed.

Create HintDb ledger discriminated.
#[export] Hint Resolve ledger_timeline_push ledger_saved_checkpoints_push
  ledger_alloc_node ledger_alloc_hist : ledger.

Ltac ledger_leaf :=
  solve [ eauto with ledger
        | apply ledger_modify_node; intros ?; reflexivity ].
Ltac ledger := preserves_go ledger_leaf.

Lemma ledger_register_links this : preserves ledger_grows (register_links this).
Proof. unfold register_links, previous, next. ledger. Qed.
#[export] Hint Resolve ledger_register_links : ledger.

Lemma ledger_create_snapshot_link h link :
  preserves ledger_grows (create_snapshot_link h link).
Proof.
  unfold create_snapshot_link, construct_shared, construct_fields,
    data, metadata, origin, previous, next.
  ledger.
Qed.
#[export] Hint Resolve ledger_create_snapshot_link : ledger.

Lemma ledger_add_checkpoint h link : preserves ledger_grows (add_checkpoint h link).
Proof. unfold add_checkpoint. ledger. Qed.
#[export] Hint Resolve ledger_add_checkpoint : ledger.

Lemma ledger_LinkedChain_new ing : preserves ledger_grows (LinkedChain_new ing).
Proof.
  unfold LinkedChain_new, LinkedChainHistory_new, construct_shared, construct_fields.
  destruct (if default false (i_is_snapshot ing) then i_history ing else None); ledger.
Qed.
#[export] Hint Resolve ledger_LinkedChain_new : ledger.

Lemma ledger_add_entry_link h item : preserves ledger_grows (add_entry_link h item).
Proof. unfold add_entry_link, assign_data, assign_meta, data, metadata. ledger. Qed.
#[export] Hint Resolve ledger_add_entry_link : ledger.

Lemma ledger_add_entry h item : preserves ledger_grows (add_entry h item).
Proof.
  destruct item as [link|partial]; simpl; [eauto with ledger|].
  unfold add_entry_partial, assign_data, data. ledger.
Qed.
#[export] Hint Resolve ledger_add_entry : ledger.

Lemma ledger_save_checkpoint h : preserves ledger_grows (save_checkpoint h).
Proof. unfold save_checkpoint. ledger. Qed.

Lemma ledger_rebuild_at h index : preserves ledger_grows (rebuild_at h index).
Proof. unfold rebuild_at, replay_entry, assign_data, assign_meta, data. ledger. Qed.
#[export] Hint Resolve ledger_rebuild_at ledger_save_checkpoint : ledger.

Lemma ledger_set_next this l r : preserves ledger_grows (set_next this l r).
Proof. unfold set_next, history. ledger. Qed.
Lemma ledger_set_previous this l r : preserves ledger_grows (set_previous this l r).
Proof. unfold set_previous, history. ledger. Qed.
#[export] Hint Resolve ledger_set_next ledger_set_previous : ledger.

Lemma ledger_update_metadata this m : preserves ledger_grows (update_metadata this m).
Proof. unfold update_metadata, history, metadata. ledger. Qed.
#[export] Hint Resolve ledger_update_metadata : ledger.

Lemma ledger_update this d : preserves ledger_grows (update this d).
Proof. unfold update, history, metadata. ledger. Qed.

Lemma ledger_link_next this l : preserves ledger_grows (link_next this l).
Proof. unfold link_next, history, next. ledger. Qed.

Lemma ledger_link_previous this l : preserves ledger_grows (link_previous this l).
Proof. unfold link_previous, history, previous. ledger. Qed.
#[export] Hint Resolve ledger_update ledger_link_next ledger_link_previous : ledger.

Lemma ledger_add_link this l : preserves ledger_grows (add_link this l).
Proof. unfold add_link, history. ledger. Qed.

Lemma ledger_new_next_link this p md : preserves ledger_grows (new_next_link this p md).
Proof. unfold new_next_link, origin, next. ledger. Qed.

Lemma ledger_new_previous_link this p md :
  preserves ledger_grows (new_previous_link this p md).
Proof. unfold new_previous_link, origin, previous. ledger. Qed.

Lemma ledger_revert_to_history this i : preserves ledger_grows (revert_to_history this i).
Proof. unfold revert_to_history, history, data, metadata. ledger. Qed.

Lemma ledger_branch_from_history this i :
  preserves ledger_grows (branch_from_history this i).
Proof. unfold branch_from_history, history, data, metadata, origin. ledger. Qed.

(** A call of a public method of either class, or of the constructor. *)
Inductive method_call :=
  | New_LinkedChain (ing : Ingredients)
  | Do_add_link (this link : loc)
  | Do_update (this : loc) (d : Ingredients)
  | Do_update_metadata (this : loc) (m : Metadata)
  | Do_set_next (this : loc) (new_link : option loc) (record_history : bool)
  | Do_set_previous (this : loc) (new_link : option loc) (record_history : bool)
  | Do_link_next (this chain_to_link : loc)
  | Do_link_previous (this chain_to_link : loc)
  | Do_new_next_link (this : loc) (payload : JsObj) (md : option Metadata)
  | Do_new_previous_link (this : loc) (payload : JsObj) (md : option Metadata)
  | Do_revert_to_history (this : loc) (index : Z)
  | Do_branch_from_history (this : loc) (index : Z)
  | Do_add_entry (h : hid) (item : loc + JsObj)
  | Do_save_checkpoint (h : hid)
  | Do_add_checkpoint (h : hid) (link : loc)
  | Do_rebuild_at (h : hid) (index : Z).

(** The heap a call leaves, whether it returns or throws. *)
Definition run_method (c : method_call) (s : Store) : Store :=
  match c with
  | New_LinkedChain ing => final (LinkedChain_new ing s)
  | Do_add_link this link => final (add_link this link s)
  | Do_update this d => final (update this d s)
  | Do_update_metadata this m => final (update_metadata this m s)
  | Do_set_next this l r => final (set_next this l r s)
  | Do_set_previous this l r => final (set_previous this l r s)
  | Do_link_next this l => final (link_next this l s)
  | Do_link_previous this l => final (link_previous this l s)
  | Do_new_next_link this p md => final (new_next_link this p md s)
  | Do_new_previous_link this p md => final (new_previous_link this p md s)
  | Do_revert_to_history this i => final (revert_to_history this i s)
  | Do_branch_from_history this i => final (branch_from_history this i s)
  | Do_add_entry h item => final (add_entry h item s)
  | Do_save_checkpoint h => final (save_checkpoint h s)
  | Do_add_checkpoint h link => final (add_checkpoint h link s)
  | Do_rebuild_at h i => final (rebuild_at h i s)
  end.

Definition run_methods (cs : list method_call) (s : Store) : Store :=
  foldl (λ s c, run_method c s) s cs.

Lemma run_method_ledger c s : ledger_grows s (run_method c s).
Proof.
  destruct c; simpl;
    first [ apply ledger_LinkedChain_new | apply ledger_add_link | apply ledger_update
          | apply ledger_update_metadata | apply ledger_set_next
          | apply ledger_set_previous | apply ledger_link_next
          | apply ledger_link_previous | apply ledger_new_next_link
          | apply ledger_new_previous_link | apply ledger_revert_to_history
          | apply ledger_branch_from_history | apply ledger_add_entry
          | apply ledger_save_checkpoint | apply ledger_add_checkpoint
          | apply ledger_rebuild_at ].
Qed.

Lemma run_methods_ledger cs s : ledger_grows s (run_methods cs s).
Proof.
  unfold run_methods. revert s. induction cs as [|c cs IH]; intros s; simpl.
  - reflexivity.
  - etrans; [apply run_method_ledger|apply IH].
Qed.

(** The ledger is append-only.  Over any sequence of calls of the public
    methods and the constructor, whether they return or throw, a history
    keeps the entries it had, unchanged and at the same indices, keeps its
    saved checkpoints, and keeps the same [_original_state] and
    [_latest_state] objects. *)
Theorem timeline_append_only cs s h x :
  hists s !! h = Some x →
  ∃ x', hists (run_methods cs s) !! h = Some x'
        ∧ _timeline x `prefix_of` _timeline x'
        ∧ _saved_checkpoints x `prefix_of` _saved_checkpoints x'
        ∧ _original_state x' = _original_state x
        ∧ _latest_state x' = _latest_state x.
Proof. intros Hx. by apply (run_methods_ledger cs s). Qed.

(** No method re-assigns what the constructor fixed.  Over any sequence of
    calls, a node keeps its origin, its history object and its snapshot
    flag; [update] in particular ignores the [origin], [history] and
    [is_snapshot] keys of its argument. *)
Theorem node_identity_fixed cs s l n :
  nodes s !! l = Some n →
  ∃ n', nodes (run_methods cs s) !! l = Some n'
        ∧ _origin n' = _origin n
        ∧ _chain_link_history n' = _chain_link_history n
        ∧ _is_snapshot n' = _is_snapshot n.
Proof.
  intros Hn. destruct (run_methods_ledger cs s) as [Hnodes _].
  destruct (Hnodes l n Hn) as (n' & Hn' & Hid).
  exists n'. unfold node_identity in Hid. injection Hid as Ho Hh Hs. done.
Qed.

(** * Further properties: the ledger's own methods *)

(** A checkpoint-only entry. *)
Definition checkpoint_entry (ts : Z) (c : loc) : HistoryEntry :=
  {| timestamp := ts; data_delta := None; metadata_delta := None;
     checkpoint := Some c |}.

(** [add_checkpoint(link)] returns on a well-formed heap.  It allocates one
    node, a snapshot of [link] that shares the history and copies [link]'s
    data, metadata, origin and pointers; it appends one entry, which carries
    that snapshot and no delta; and it leaves every other history, both
    snapshot references, and the payload and pointers of every existing node
    as they were.  [_latest_state] is not moved to [link]. *)
Theorem add_checkpoint_appends s h x link n :
  wf s → hists s !! h = Some x → nodes s !! link = Some n →
  ∃ s' nc,
    add_checkpoint h link s = Ret h s'
    ∧ hists s' = alter (timeline_push (checkpoint_entry (clock s) (length (nodes s))))
                       h (hists s)
    ∧ core_of <$> nodes s' = core_of <$> (nodes s ++ [snapshot_of h n])
    ∧ nodes s' !! length (nodes s) = Some nc
    ∧ _data nc = _data n
    ∧ _metadata nc = Some (metadata_of n)
    ∧ _chain_link_history nc = h
    ∧ _is_snapshot nc = true.
Proof.
  intros Hwf Hx Hn.
  assert (h < length (hists s)) as Hh by (by eapply lookup_lt_Some).
  destruct (create_snapshot_link_wf s h link n Hwf Hn) as (s1 & Hs1 & Hh1 & Hk1 & Hc1).
  destruct (same_core_lookup (nodes s ++ [snapshot_of h n]) (nodes s1)
              (length (nodes s)) (snapshot_of h n) Hc1) as (nc & Hnc & Hcc).
  { by rewrite list_lookup_middle. }
  unfold add_checkpoint, bind, ret, Date_now. rewrite Hs1. cbv beta iota.
  rewrite modify_hist_eq by (by rewrite Hh1).
  eexists _, nc. split; [reflexivity|]. simpl.
  split; [by rewrite Hh1|]. split; [done|]. split; [done|].
  unfold core_of, snapshot_of, universalClone in Hcc. simpl in Hcc.
  injection Hcc as _ Hm Hd _ _ Hhist Hsnap. done.
Qed.


(** ** [revert_to_history] *)

Lemma rebuild_at_out_of_bounds s h x index :
  hists s !! h = Some x →
  (index < 0 ∨ Z.of_nat (length (_timeline x)) ≤ index)%Z →
  rebuild_at h index s = Ret None s.
Proof.
  intros Hx Hi. unfold rebuild_at, bind. rewrite (get_hist_eq _ _ _ Hx).
  assert ((index <? 0)%Z || (Z.of_nat (length (_timeline x)) <=? index)%Z = true) as ->;
    [|done].
  apply orb_true_iff. rewrite Z.ltb_lt, Z.leb_le. lia.
Qed.

(** With an index outside the timeline, [revert_to_history] raises no error:
    it returns the node and leaves the heap as it was. *)
Theorem revert_to_history_out_of_bounds s this n x index :
  nodes s !! this = Some n →
  hists s !! _chain_link_history n = Some x →
  (index < 0 ∨ Z.of_nat (length (_timeline x)) ≤ index)%Z →
  revert_to_history this index s = Ret this s.
Proof.
  intros Hn Hx Hi. unfold revert_to_history, history, bind, ret.
  rewrite (get_node_eq _ _ _ Hn). cbv beta iota.
  by rewrite (rebuild_at_out_of_bounds _ _ _ _ Hx Hi).
Qed.

(** On the lineage of a node constructed with data, [revert_to_history] at an
    index within the timeline returns; the node's data is then the data
    reconstructed for that index; and the timeline is not cut back: it keeps
    every entry and gains at most one, the record of the revert. *)
Theorem revert_to_history_restores s this h d0 x index :
  seeded s this h d0 →
  hists s !! h = Some x →
  (0 ≤ index < Z.of_nat (length (_timeline x)))%Z →
  ∃ s' x' es,
    revert_to_history this index s = Ret this s'
    ∧ data_at s' this
      = Some (replay_deltas d0 (take (S (Z.to_nat index)) (_timeline x)))
    ∧ hists s' !! h = Some x'
    ∧ _timeline x' = _timeline x ++ es
    ∧ length es ≤ 1.
Proof.
  intros Hseed Hx Hin. apply seeded_lineage in Hseed as Hlin.
  pose proof Hlin as (Hwf & Hinv & n & x0 & Hn & Hh & Hx0 & Hlive).
  assert (x0 = x) as -> by congruence.
  assert (this < length (nodes s)) as Hthis by (by eapply lookup_lt_Some).
  destruct (wf_hist _ _ _ Hwf Hx) as (Hlat & _).
  destruct Hlive as (Hne & _).
  destruct (rebuild_at_replays s h d0 x index Hwf Hinv Hx Hin)
    as (s1 & Hrun & Hh1 & Hold1 & Hb).
  destruct (rebuild_at_refs s h x index _ s1 Hwf Hx Hrun) as (_ & nb0 & Hr1).
  assert (length (nodes s1) = S (length (nodes s))) as Hlen1.
  { rewrite <- (length_fmap refs_of (nodes s1)), Hr1, length_fmap, length_app.
    simpl. lia. }
  apply data_at_Some in Hb as (nb & Hnb & Hdb).
  unfold revert_to_history, history, data, metadata, bind, ret.
  rewrite (get_node_eq _ _ _ Hn). cbv beta iota. rewrite Hh, Hrun. cbv beta iota.
  rewrite (get_node_eq _ _ _ Hnb). cbv beta iota.
  rewrite modify_node_eq by lia. cbv beta iota.
  set (s2 := set_nodes _ s1).
  assert (nodes s2 !! length (nodes s) = Some nb) as Hnb2.
  { unfold s2. simpl. rewrite list_lookup_alter_ne by lia. done. }
  rewrite (get_node_eq _ _ _ Hnb2). cbv beta iota.
  rewrite modify_node_eq by (unfold s2; simpl; rewrite length_alter; lia).
  cbv beta iota. unfold s2. rewrite nodes_set_nodes, set_nodes_set_nodes.
  rewrite alter_alter_compose.
  set (s3 := set_nodes _ s1).
  destruct (lookup_lt_is_Some_2 (nodes s1) this) as [n1 Hn1]; [lia|].
  destruct (lookup_lt_is_Some_2 (nodes s1) (_latest_state x)) as [nl1 Hnl1]; [lia|].
  assert (nodes s3 !! this = Some (with_metadata (Some (metadata_of nb))
                                     (with_data (_data nb) n1))) as Hn3.
  { unfold s3. simpl. rewrite list_lookup_alter_eq, Hn1. done. }
  assert (nodes s3 !! _latest_state x = Some nl1) as Hnl3.
  { unfold s3. simpl. rewrite list_lookup_alter_ne by done. done. }
  assert (hists s3 !! h = Some x) as Hx3 by (unfold s3; simpl; by rewrite Hh1).
  rewrite (add_entry_link_eq s3 h this _ x nl1 Hn3 Hx3 Hnl3). cbv beta iota.
  destruct (records _ nl1).
  - eexists _, _, [_]. split; [reflexivity|]. simpl.
    split; [|split; [by rewrite list_lookup_alter_eq, Hh1, Hx|done]].
    unfold data_at. simpl. rewrite list_lookup_alter_ne by done.
    rewrite list_lookup_alter_eq, Hn1. simpl. done.
  - exists s3, x, []. split; [reflexivity|].
    split; [|split; [done|split; [by rewrite app_nil_r|simpl; lia]]].
    unfold data_at. rewrite Hn3. simpl. done.
Qed.

(** ** Metadata the ledger does not see *)

Lemma records_data_metadata item item' latest latest' :
  _data item' = _data item → _metadata item' = _metadata item →
  _data latest' = _data latest → _metadata latest' = _metadata latest →
  records item' latest' = records item latest.
Proof.
  intros Hd Hm Hd' Hm'.
  unfold records, data_delta_of, meta_delta_of, metadata_of.
  by rewrite Hd, Hm, Hd', Hm'.
Qed.

(** The ledger tracks the title and the description only.  On a node in step
    with [_latest_state], [update_metadata] with a new [id] or [extra], and
    neither title nor description, changes the node's metadata and records
    nothing: every history is as it was. *)
Theorem update_metadata_id_extra_not_recorded s this ni x nl m :
  nodes s !! this = Some ni →
  hists s !! _chain_link_history ni = Some x →
  nodes s !! _latest_state x = Some nl →
  _latest_state x ≠ this →
  in_step ni nl →
  md_title m = None → md_description m = None →
  update_metadata this m s
  = Ret this (set_nodes
                (alter (with_metadata (Some (merge_metadata m (metadata_of ni))))
                       this (nodes s)) s).
Proof.
  intros Hni Hx Hnl Hne Hstep Ht Hd.
  assert (this < length (nodes s)) as Hthis by (by eapply lookup_lt_Some).
  unfold update_metadata, metadata, history, bind, ret.
  rewrite (get_node_eq _ _ _ Hni). cbv beta iota.
  rewrite modify_node_eq by done. cbv beta iota.
  fold (metadata_of ni).
  set (s1 := set_nodes _ s).
  assert (nodes s1 !! this
          = Some (with_metadata (Some (merge_metadata m (metadata_of ni))) ni)) as Hn1.
  { unfold s1. simpl. by rewrite list_lookup_alter_eq, Hni. }
  assert (nodes s1 !! _latest_state x = Some nl) as Hnl1.
  { unfold s1. simpl. by rewrite list_lookup_alter_ne. }
  rewrite (get_node_eq _ _ _ Hn1). cbv beta iota.
  cbn [_chain_link_history with_metadata].
  rewrite (add_entry_link_eq s1 _ this _ x nl Hn1 Hx Hnl1). cbv beta iota.
  assert (records (with_metadata (Some (merge_metadata m (metadata_of ni))) ni) nl
          = false) as ->; [|done].
  apply records_false_iff. destruct Hstep as (Hst & Hsd & Hdata).
  unfold in_step, metadata_of. simpl. rewrite Ht, Hd. simpl.
  split; [done|]. split; [done|]. done.
Qed.

(** ** Pointer changes the ledger does not see *)

Lemma set_previous_record_eq s this nl :
  this < length (nodes s) → valid_ref s nl →
  set_previous this nl true s
  = (let* h := history this in add_entry_link h this ;; ret this)
      (set_nodes (previous_linked this nl (nodes s)) s).
Proof.
  intros Hthis Hnl. unfold set_previous, bind, ret. exec.
  destruct nl as [l|]; simpl in *; exec.
  - destruct (history this _) as [h s1|]; [|done].
    destruct (add_entry_link h this s1); done.
  - destruct (history this _) as [h s1|]; [|done].
    destruct (add_entry_link h this s1); done.
Qed.

(** [set_next] and [set_previous] call [add_entry] when [record_history] is
    set, but an entry holds data and metadata deltas only.  On a node in step
    with [_latest_state] the flag therefore makes no difference: the call
    re-points the node and records nothing. *)
Theorem pointer_change_not_recorded s this ni x nl new_link :
  nodes s !! this = Some ni →
  hists s !! _chain_link_history ni = Some x →
  nodes s !! _latest_state x = Some nl →
  in_step ni nl →
  valid_ref s new_link →
  set_next this new_link true s
  = Ret this (set_nodes (next_linked this new_link (nodes s)) s)
  ∧ set_previous this new_link true s
    = Ret this (set_nodes (previous_linked this new_link (nodes s)) s).
Proof.
  intros Hni Hx Hnl Hstep Hvalid.
  assert (this < length (nodes s)) as Hthis by (by eapply lookup_lt_Some).
  assert (∀ ns' : list LinkedChain,
            (∀ l, (λ n, (_data n, _metadata n, _chain_link_history n)) <$> ns' !! l
                  = (λ n, (_data n, _metadata n, _chain_link_history n)) <$> nodes s !! l) →
            (let* h := history this in add_entry_link h this ;; ret this)
              (set_nodes ns' s) = Ret this (set_nodes ns' s)) as Hquiet.
  { intros ns' Hproj.
    pose proof (Hproj this) as Hp1. rewrite Hni in Hp1.
    destruct (ns' !! this) as [ni'|] eqn:Hni'; [|done].
    pose proof (Hproj (_latest_state x)) as Hp2. rewrite Hnl in Hp2.
    destruct (ns' !! _latest_state x) as [nl'|] eqn:Hnl'; [|done].
    injection Hp1 as Hd1 Hm1 Hh1. injection Hp2 as Hd2 Hm2 _.
    unfold history, bind, ret.
    erewrite get_node_eq by (simpl; exact Hni'). cbv beta iota. rewrite Hh1.
    rewrite (add_entry_link_eq (set_nodes ns' s) _ this ni' x nl');
      [|done|done|done].
    cbv beta iota.
    rewrite (records_data_metadata ni ni' nl nl') by done.
    by apply records_false_iff in Hstep as ->. }
  split.
  - rewrite set_next_record_eq by done. apply Hquiet.
    intros l. by apply next_linked_proj.
  - rewrite set_previous_record_eq by done. apply Hquiet.
    intros l. by apply previous_linked_proj.
Qed.

(** * Further properties: linking *)

(** ** Views of the heap *)

Definition next_at (s : Store) (l : loc) : option (option loc) := _next <$> nodes s !! l.
Definition previous_at (s : Store) (l : loc) : option (option loc) :=
  _previous <$> nodes s !! l.
Definition progeny_at (s : Store) (l : loc) : option (gset loc) :=
  _progeny <$> nodes s !! l.
Definition ancestors_at (s : Store) (l : loc) : option (gset loc) :=
  _ancestors <$> nodes s !! l.
Definition history_at (s : Store) (l : loc) : option hid :=
  _chain_link_history <$> nodes s !! l.

(** No history has [l] as its [_latest_state]. *)
Definition not_latest (s : Store) (l : loc) : Prop :=
  ∀ h x, hists s !! h = Some x → _latest_state x ≠ l.

(** Every node's history and every history's [_latest_state] is a slot: what
    [add_entry] needs in order to return. *)
Definition allocated (s : Store) : Prop :=
  (∀ l h, history_at s l = Some h → h < length (hists s))
  ∧ (∀ h x, hists s !! h = Some x → _latest_state x < length (nodes s)).

Lemma wf_allocated s : wf s → allocated s.
Proof.
  intros Hwf. split.
  - intros l h Hl. unfold history_at in Hl.
    destruct (nodes s !! l) as [n|] eqn:Hn; [|done]. injection Hl as <-.
    by destruct (wf_node _ _ _ Hwf Hn).
  - intros h x Hx. by destruct (wf_hist _ _ _ Hwf Hx).
Qed.

(** [s'] is [s] with pointers and sets possibly changed, and with the data
    and metadata of [_latest_state] snapshots and the timelines possibly
    changed; nothing else. *)
Record relinked (s s' : Store) : Prop := {
  relinked_length : length (nodes s') = length (nodes s);
  relinked_history : ∀ l, history_at s' l = history_at s l;
  relinked_states : states_of <$> hists s' = states_of <$> hists s;
  relinked_grow : sets_grow s s';
  relinked_data : ∀ l, not_latest s l → data_at s' l = data_at s l
}.

Lemma states_lookup s s' h x :
  states_of <$> hists s' = states_of <$> hists s → hists s' !! h = Some x →
  ∃ x0, hists s !! h = Some x0 ∧ _latest_state x0 = _latest_state x.
Proof.
  intros Hst Hx.
  assert ((states_of <$> hists s) !! h = Some (states_of x)) as H.
  { rewrite <- Hst, list_lookup_fmap, Hx. done. }
  rewrite list_lookup_fmap in H.
  destruct (hists s !! h) as [x0|]; simpl in H; [|done].
  exists x0. split; [done|]. unfold states_of in H. congruence.
Qed.

Lemma relinked_not_latest s s' l : relinked s s' → not_latest s l → not_latest s' l.
Proof.
  intros [_ _ Hst _ _] Hl h x Hx.
  destruct (states_lookup s s' h x Hst Hx) as (x0 & Hx0 & <-). by eapply Hl.
Qed.

Lemma relinked_allocated s s' : relinked s s' → allocated s → allocated s'.
Proof.
  intros [Hlen Hh Hst _ _] [Hn Hx].
  assert (length (hists s') = length (hists s)) as Hlenh.
  { by rewrite <- (length_fmap states_of (hists s')), Hst, length_fmap. }
  split.
  - intros l h Hl. rewrite Hh in Hl. rewrite Hlenh. by eapply Hn.
  - intros h x Hx'. destruct (states_lookup s s' h x Hst Hx') as (x0 & Hx0 & <-).
    rewrite Hlen. by eapply Hx.
Qed.

Lemma relinked_refl s : relinked s s.
Proof. split; done. Qed.

Lemma relinked_trans s1 s2 s3 : relinked s1 s2 → relinked s2 s3 → relinked s1 s3.
Proof.
  intros H12 H23.
  assert (∀ l, not_latest s1 l → not_latest s2 l) as Hnl.
  { intros l. by apply relinked_not_latest. }
  destruct H12 as [Hl1 Hh1 Hs1 Hg1 Hd1], H23 as [Hl2 Hh2 Hs2 Hg2 Hd2].
  split.
  - congruence.
  - intros l. by rewrite Hh2.
  - congruence.
  - by etrans.
  - intros l Hl. rewrite Hd2 by (by apply Hnl). by apply Hd1.
Qed.

(** A field update that touches pointers and sets only. *)
Definition relinks (f : LinkedChain → LinkedChain) : Prop :=
  keeps_sets f
  ∧ ∀ n, _data (f n) = _data n ∧ _chain_link_history (f n) = _chain_link_history n.

Lemma relinked_alter s l f :
  relinks f → relinked s (set_nodes (alter f l (nodes s)) s).
Proof.
  intros [Hsets Hf]. split; simpl.
  - by rewrite length_alter.
  - intros l'. unfold history_at. simpl.
    apply (lookup_alter_proj _chain_link_history). intros n. apply Hf.
  - done.
  - intros l' n Hn. simpl. destruct (decide (l = l')) as [->|Hne].
    + exists (f n). rewrite list_lookup_alter_eq, Hn. split; [done|apply Hsets].
    + exists n. by rewrite list_lookup_alter_ne.
  - intros l' _. unfold data_at. simpl.
    pose proof (lookup_alter_proj _data f (nodes s) l l') as H.
    destruct (alter f l (nodes s) !! l'), (nodes s !! l'); simpl in *;
      try (specialize (H (λ n, proj1 (Hf n)))); congruence.
Qed.

Lemma relinks_with_next p : relinks (with_next p).
Proof. split; [apply keeps_sets_with_next|done]. Qed.
Lemma relinks_with_previous p : relinks (with_previous p).
Proof. split; [apply keeps_sets_with_previous|done]. Qed.
Lemma relinks_progeny_add l : relinks (progeny_add l).
Proof. split; [apply keeps_sets_progeny_add|done]. Qed.
Lemma relinks_ancestors_add l : relinks (ancestors_add l).
Proof. split; [apply keeps_sets_ancestors_add|done]. Qed.

Lemma relinked_next_linked s this nl :
  relinked s (set_nodes (next_linked this nl (nodes s)) s).
Proof.
  unfold next_linked. destruct nl as [l|].
  - eapply relinked_trans; [apply (relinked_alter s this), relinks_with_next|].
    eapply relinked_trans;
      [apply (relinked_alter _ this (progeny_add l)), relinks_progeny_add|].
    apply (relinked_alter (set_nodes _ s) l (ancestors_add this)), relinks_ancestors_add.
  - apply relinked_alter, relinks_with_next.
Qed.

Lemma relinked_previous_linked s this nl :
  relinked s (set_nodes (previous_linked this nl (nodes s)) s).
Proof.
  unfold previous_linked. destruct nl as [l|].
  - eapply relinked_trans; [apply (relinked_alter s this), relinks_with_previous|].
    eapply relinked_trans;
      [apply (relinked_alter _ this (ancestors_add l)), relinks_ancestors_add|].
    apply (relinked_alter (set_nodes _ s) l (progeny_add this)), relinks_progeny_add.
  - apply relinked_alter, relinks_with_previous.
Qed.

(** [add_entry(item)] returns on an allocated heap, and changes pointers and
    sets nowhere. *)
Lemma add_entry_link_relinked s h item :
  allocated s → item < length (nodes s) → h < length (hists s) →
  ∃ s', add_entry_link h item s = Ret h s'
        ∧ relinked s s'
        ∧ ∀ l, next_at s' l = next_at s l ∧ previous_at s' l = previous_at s l
               ∧ progeny_at s' l = progeny_at s l
               ∧ ancestors_at s' l = ancestors_at s l.
Proof.
  intros [_ Hlat] Hitem Hh.
  destruct (lookup_lt_is_Some_2 _ _ Hitem) as [ni Hni].
  destruct (lookup_lt_is_Some_2 _ _ Hh) as [x Hx].
  destruct (lookup_lt_is_Some_2 _ _ (Hlat h x Hx)) as [nl Hnl].
  rewrite (add_entry_link_eq s h item ni x nl Hni Hx Hnl).
  eexists. split; [reflexivity|].
  destruct (records ni nl); [|split; [apply relinked_refl|done]].
  set (f := absorb (data_delta_of ni nl) (meta_delta_of ni nl)).
  assert (∀ n, links_of (f n) = links_of n) as Hlinks.
  { intros n. unfold f. by destruct (data_delta_of ni nl). }
  assert (∀ {B} (g : LinkedChain → B), (∀ n, g (f n) = g n) →
            ∀ l, g <$> alter f (_latest_state x) (nodes s) !! l = g <$> nodes s !! l)
    as Hproj.
  { intros B g Hg l. by apply lookup_alter_proj. }
  split.
  - split; simpl.
    + by rewrite length_alter.
    + intros l. apply (Hproj _ _chain_link_history). intros n.
      specialize (Hlinks n). unfold links_of in Hlinks. congruence.
    + by apply fmap_alter_unchanged.
    + intros l n Hn. simpl. destruct (decide (_latest_state x = l)) as [<-|Hne].
      * exists (f n). rewrite list_lookup_alter_eq, Hn. split; [done|].
        specialize (Hlinks n). unfold links_of in Hlinks.
        assert (_progeny (f n) = _progeny n) as -> by congruence.
        assert (_ancestors (f n) = _ancestors n) as -> by congruence.
        done.
      * exists n. by rewrite list_lookup_alter_ne.
    + intros l Hl. unfold data_at. simpl.
      rewrite list_lookup_alter_ne; [done|]. by eapply Hl.
  - intros l. unfold next_at, previous_at, progeny_at, ancestors_at. simpl.
    repeat split; apply Hproj; intros n; specialize (Hlinks n);
      unfold links_of in Hlinks; congruence.
Qed.

(** ** What [set_next] and [set_previous] leave behind *)

Record next_set (s : Store) (this : loc) (nl : option loc) (s' : Store) : Prop := {
  next_set_relinked : relinked s s';
  next_set_next : next_at s' this = Some nl;
  next_set_next_other : ∀ l, l ≠ this → next_at s' l = next_at s l;
  next_set_previous : ∀ l, previous_at s' l = previous_at s l;
  next_set_progeny : ∀ t, nl = Some t → ∃ P, progeny_at s' this = Some P ∧ t ∈ P;
  next_set_ancestors : ∀ t, nl = Some t → ∃ Q, ancestors_at s' t = Some Q ∧ this ∈ Q
}.

Record previous_set (s : Store) (this : loc) (nl : option loc) (s' : Store) : Prop := {
  previous_set_relinked : relinked s s';
  previous_set_previous : previous_at s' this = Some nl;
  previous_set_previous_other : ∀ l, l ≠ this → previous_at s' l = previous_at s l;
  previous_set_next : ∀ l, next_at s' l = next_at s l;
  previous_set_ancestors : ∀ t, nl = Some t → ∃ Q, ancestors_at s' this = Some Q ∧ t ∈ Q;
  previous_set_progeny : ∀ t, nl = Some t → ∃ P, progeny_at s' t = Some P ∧ this ∈ P
}.

Lemma next_linked_next_other ns this nl l :
  l ≠ this → _next <$> next_linked this nl ns !! l = _next <$> ns !! l.
Proof.
  intros Hne. unfold next_linked. destruct nl.
  - rewrite (lookup_alter_proj _next) by done.
    rewrite (lookup_alter_proj _next) by done.
    by rewrite list_lookup_alter_ne.
  - by rewrite list_lookup_alter_ne.
Qed.

Lemma previous_linked_previous_other ns this nl l :
  l ≠ this → _previous <$> previous_linked this nl ns !! l = _previous <$> ns !! l.
Proof.
  intros Hne. unfold previous_linked. destruct nl.
  - rewrite (lookup_alter_proj _previous) by done.
    rewrite (lookup_alter_proj _previous) by done.
    by rewrite list_lookup_alter_ne.
  - by rewrite list_lookup_alter_ne.
Qed.

Lemma previous_linked_ancestors ns this l :
  this < length ns →
  ∃ Q, _ancestors <$> previous_linked this (Some l) ns !! this = Some Q ∧ l ∈ Q.
Proof.
  intros Hlt. unfold previous_linked.
  rewrite (lookup_alter_proj _ancestors) by done.
  rewrite list_lookup_alter_eq.
  destruct (lookup_lt_is_Some_2 (alter (with_previous (Some l)) this ns) this) as [n Hn];
    [by rewrite length_alter|].
  rewrite Hn. simpl. eexists. split; [done|]. set_solver.
Qed.

Lemma previous_linked_progeny ns this l :
  l < length ns →
  ∃ P, _progeny <$> previous_linked this (Some l) ns !! l = Some P ∧ this ∈ P.
Proof.
  intros Hlt. unfold previous_linked. rewrite list_lookup_alter_eq.
  destruct (lookup_lt_is_Some_2
              (alter (ancestors_add l) this (alter (with_previous (Some l)) this ns)) l)
    as [n Hn]; [by rewrite !length_alter|].
  rewrite Hn. simpl. eexists. split; [done|]. set_solver.
Qed.

Lemma next_set_quiet s this nl :
  this < length (nodes s) → valid_ref s nl →
  next_set s this nl (set_nodes (next_linked this nl (nodes s)) s).
Proof.
  intros Hthis Hnl. split.
  - apply relinked_next_linked.
  - by apply next_linked_next.
  - intros l Hne. by apply next_linked_next_other.
  - intros l. by apply next_linked_proj.
  - intros t ->. by apply next_linked_progeny.
  - intros t ->. by apply next_linked_ancestors.
Qed.

Lemma previous_set_quiet s this nl :
  this < length (nodes s) → valid_ref s nl →
  previous_set s this nl (set_nodes (previous_linked this nl (nodes s)) s).
Proof.
  intros Hthis Hnl. split.
  - apply relinked_previous_linked.
  - by apply previous_linked_previous.
  - intros l Hne. by apply previous_linked_previous_other.
  - intros l. by apply previous_linked_proj.
  - intros t ->. by apply previous_linked_ancestors.
  - intros t ->. by apply previous_linked_progeny.
Qed.

(** Recording after a pointer change: the entry, if any, leaves pointers and
    sets alone. *)
Lemma record_after s this :
  allocated s → this < length (nodes s) →
  ∃ s', (let* h := history this in add_entry_link h this ;; ret this) s = Ret this s'
        ∧ relinked s s'
        ∧ ∀ l, next_at s' l = next_at s l ∧ previous_at s' l = previous_at s l
               ∧ progeny_at s' l = progeny_at s l
               ∧ ancestors_at s' l = ancestors_at s l.
Proof.
  intros Hal Hthis. destruct (lookup_lt_is_Some_2 _ _ Hthis) as [n Hn].
  assert (_chain_link_history n < length (hists s)) as Hh.
  { apply (proj1 Hal this). unfold history_at. by rewrite Hn. }
  destruct (add_entry_link_relinked s _ this Hal Hthis Hh) as (s' & Hrun & Hrel & Hv).
  exists s'. unfold history, bind, ret. rewrite (get_node_eq _ _ _ Hn).
  cbv beta iota. rewrite Hrun. done.
Qed.

Lemma set_next_spec s this nl r :
  allocated s → this < length (nodes s) → valid_ref s nl →
  ∃ s', set_next this nl r s = Ret this s' ∧ next_set s this nl s'.
Proof.
  intros Hal Hthis Hnl.
  pose proof (next_set_quiet s this nl Hthis Hnl) as Hq.
  destruct r.
  - rewrite set_next_record_eq by done.
    set (s1 := set_nodes _ s) in *.
    destruct (record_after s1 this) as (s' & Hrun & Hrel & Hv).
    { eapply relinked_allocated; [apply Hq|done]. }
    { unfold s1. simpl. by rewrite length_next_linked. }
    exists s'. split; [done|]. destruct Hq as [H1 H2 H3 H4 H5 H6]. split.
    + by eapply relinked_trans.
    + by rewrite (proj1 (Hv this)).
    + intros l Hne. rewrite (proj1 (Hv l)). by apply H3.
    + intros l. destruct (Hv l) as (_ & -> & _). apply H4.
    + intros t Ht. destruct (Hv this) as (_ & _ & -> & _). by apply H5.
    + intros t Ht. destruct (Hv t) as (_ & _ & _ & ->). by apply H6.
  - rewrite set_next_quiet_eq by done. eauto.
Qed.

Lemma set_previous_spec s this nl r :
  allocated s → this < length (nodes s) → valid_ref s nl →
  ∃ s', set_previous this nl r s = Ret this s' ∧ previous_set s this nl s'.
Proof.
  intros Hal Hthis Hnl.
  pose proof (previous_set_quiet s this nl Hthis Hnl) as Hq.
  destruct r.
  - rewrite set_previous_record_eq by done.
    set (s1 := set_nodes _ s) in *.
    destruct (record_after s1 this) as (s' & Hrun & Hrel & Hv).
    { eapply relinked_allocated; [apply Hq|done]. }
    { unfold s1. simpl. by rewrite length_previous_linked. }
    exists s'. split; [done|]. destruct Hq as [H1 H2 H3 H4 H5 H6]. split.
    + by eapply relinked_trans.
    + destruct (Hv this) as (_ & -> & _). done.
    + intros l Hne. destruct (Hv l) as (_ & -> & _). by apply H3.
    + intros l. rewrite (proj1 (Hv l)). apply H4.
    + intros t Ht. destruct (Hv this) as (_ & _ & _ & ->). by apply H5.
    + intros t Ht. destruct (Hv t) as (_ & _ & -> & _). by apply H6.
  - rewrite set_previous_quiet_eq by done. eauto.
Qed.

(** The closing step of [link_next] and [link_previous]: the linked node is
    recorded in its own history when that is another history. *)
Lemma record_linked s this chain_to_link :
  allocated s → this < length (nodes s) → chain_to_link < length (nodes s) →
  ∃ s',
    (let* h1 := history chain_to_link in
     let* h2 := history this in
     (if decide (h1 ≠ h2) then add_entry_link h1 chain_to_link ;; ret tt else ret tt) ;;
     ret this) s = Ret this s'
    ∧ relinked s s'
    ∧ ∀ l, next_at s' l = next_at s l ∧ previous_at s' l = previous_at s l
           ∧ progeny_at s' l = progeny_at s l
           ∧ ancestors_at s' l = ancestors_at s l.
Proof.
  intros Hal Hthis Hb.
  destruct (lookup_lt_is_Some_2 _ _ Hthis) as [na Hna].
  destruct (lookup_lt_is_Some_2 _ _ Hb) as [nb Hnb].
  unfold history, bind, ret.
  rewrite (get_node_eq _ _ _ Hnb). cbv beta iota.
  rewrite (get_node_eq _ _ _ Hna). cbv beta iota.
  destruct (decide _) as [Hne|Heq].
  - assert (_chain_link_history nb < length (hists s)) as Hh.
    { apply (proj1 Hal chain_to_link). unfold history_at. by rewrite Hnb. }
    destruct (add_entry_link_relinked s _ chain_to_link Hal Hb Hh)
      as (s' & Hrun & Hrel & Hv).
    exists s'. rewrite Hrun. done.
  - exists s. split; [done|]. split; [apply relinked_refl|done].
Qed.

(** ** Splicing with [link_previous] and [link_next] *)

Lemma sets_grow_progeny s s' l P t :
  sets_grow s s' → progeny_at s l = Some P → t ∈ P →
  ∃ P', progeny_at s' l = Some P' ∧ t ∈ P'.
Proof.
  intros Hg HP Ht. unfold progeny_at in *.
  destruct (nodes s !! l) as [n|] eqn:Hn; [|done]. injection HP as <-.
  destruct (Hg l n Hn) as (n' & -> & Hp & _). simpl. eexists. split; [done|].
  set_solver.
Qed.

Lemma sets_grow_ancestors s s' l Q t :
  sets_grow s s' → ancestors_at s l = Some Q → t ∈ Q →
  ∃ Q', ancestors_at s' l = Some Q' ∧ t ∈ Q'.
Proof.
  intros Hg HQ Ht. unfold ancestors_at in *.
  destruct (nodes s !! l) as [n|] eqn:Hn; [|done]. injection HQ as <-.
  destruct (Hg l n Hn) as (n' & -> & _ & Ha). simpl. eexists. split; [done|].
  set_solver.
Qed.

Lemma valid_ref_length s s' o :
  length (nodes s') = length (nodes s) → valid_ref s o → valid_ref s' o.
Proof. intros Hlen. destruct o; simpl; [lia|done]. Qed.

Lemma previous_at_valid s l old :
  wf s → previous_at s l = Some old → valid_ref s old.
Proof.
  intros Hwf Hl. unfold previous_at in Hl.
  destruct (nodes s !! l) as [n|] eqn:Hn; [|done]. injection Hl as <-.
  by destruct (wf_node _ _ _ Hwf Hn) as (_ & ? & _).
Qed.

Lemma next_at_valid s l old :
  wf s → next_at s l = Some old → valid_ref s old.
Proof.
  intros Hwf Hl. unfold next_at in Hl.
  destruct (nodes s !! l) as [n|] eqn:Hn; [|done]. injection Hl as <-.
  by destruct (wf_node _ _ _ Hwf Hn) as (_ & _ & ?).
Qed.

(** What [link_next] leaves behind, on a heap where every reference it
    follows is allocated. *)
Lemma link_next_spec s a b old :
  allocated s → a < length (nodes s) → b < length (nodes s) →
  next_at s a = Some old → valid_ref s old →
  ∃ s',
    link_next a b s = Ret a s'
    ∧ relinked s s'
    ∧ next_at s' a = Some (Some b)
    ∧ previous_at s' b = Some (Some a)
    ∧ (a ≠ b → next_at s' b = Some old)
    ∧ (∀ l, l ≠ a → l ≠ b → next_at s' l = next_at s l)
    ∧ (∀ l, l ≠ b → previous_at s' l = previous_at s l)
    ∧ (∀ c, old = Some c → ∃ Q, ancestors_at s' c = Some Q ∧ b ∈ Q).
Proof.
  intros Hal Ha Hb Hold Hvalid.
  unfold link_next. unfold next at 1. unfold bind at 1. unfold bind at 1.
  unfold next_at in Hold. destruct (nodes s !! a) as [na|] eqn:Hna; [|done].
  injection Hold as Hold. rewrite (get_node_eq _ _ _ Hna). unfold ret at 1.
  cbv beta iota. rewrite Hold.
  destruct (set_previous_spec s b (Some a) false Hal Hb Ha) as (s1 & Hrun1 & H1).
  pose proof (previous_set_relinked _ _ _ _ H1) as Hr1.
  pose proof (relinked_length _ _ Hr1) as Hl1.
  pose proof (relinked_allocated _ _ Hr1 Hal) as Hal1.
  destruct (set_next_spec s1 b old false Hal1) as (s2 & Hrun2 & H2);
    [lia|by apply (valid_ref_length s)|].
  pose proof (next_set_relinked _ _ _ _ H2) as Hr2.
  pose proof (relinked_length _ _ Hr2) as Hl2.
  pose proof (relinked_allocated _ _ Hr2 Hal1) as Hal2.
  destruct (set_next_spec s2 a (Some b) true Hal2) as (s3 & Hrun3 & H3);
    [lia|simpl; lia|].
  pose proof (next_set_relinked _ _ _ _ H3) as Hr3.
  pose proof (relinked_length _ _ Hr3) as Hl3.
  pose proof (relinked_allocated _ _ Hr3 Hal2) as Hal3.
  destruct (record_linked s3 a b Hal3) as (s4 & Hrun4 & Hr4 & Hv4); [lia..|].
  exists s4. unfold bind at 1. rewrite Hrun1. cbv beta iota.
  unfold bind at 1. rewrite Hrun2. cbv beta iota.
  unfold bind at 1. rewrite Hrun3. cbv beta iota.
  split; [exact Hrun4|].
  split; [eapply relinked_trans; [|exact Hr4];
          eapply relinked_trans; [|exact Hr3];
          eapply relinked_trans; [exact Hr1|exact Hr2]|].
  split; [rewrite (proj1 (Hv4 a)); apply (next_set_next _ _ _ _ H3)|].
  split.
  { destruct (Hv4 b) as (_ & -> & _).
    rewrite (next_set_previous _ _ _ _ H3), (next_set_previous _ _ _ _ H2).
    apply (previous_set_previous _ _ _ _ H1). }
  split.
  { intros Hne. rewrite (proj1 (Hv4 b)).
    rewrite (next_set_next_other _ _ _ _ H3) by done.
    apply (next_set_next _ _ _ _ H2). }
  split.
  { intros l Hla Hlb. rewrite (proj1 (Hv4 l)).
    rewrite (next_set_next_other _ _ _ _ H3) by done.
    rewrite (next_set_next_other _ _ _ _ H2) by done.
    apply (previous_set_next _ _ _ _ H1). }
  split.
  { intros l Hlb. destruct (Hv4 l) as (_ & -> & _).
    rewrite (next_set_previous _ _ _ _ H3), (next_set_previous _ _ _ _ H2).
    by apply (previous_set_previous_other _ _ _ _ H1). }
  intros c Hc. destruct (next_set_ancestors _ _ _ _ H2 c Hc) as (Q & HQ & HbQ).
  destruct (sets_grow_ancestors s2 s3 c Q b (relinked_grow _ _ Hr3) HQ HbQ)
    as (Q3 & HQ3 & HbQ3).
  exists Q3. destruct (Hv4 c) as (_ & _ & _ & ->). done.
Qed.

(** [a.link_next(b)] splices [b] in after [a] from [a]'s side only.  [b]
    takes over [a]'s old next (when [b] is not [a]) and is added to that
    node's ancestors, but no [previous] pointer other than [b]'s changes: the
    old next still points back to whatever it pointed to.  No [next] pointer
    other than those of [a] and [b] changes. *)
Theorem link_next_splices s a b old :
  wf s → a < length (nodes s) → b < length (nodes s) →
  next_at s a = Some old →
  ∃ s',
    link_next a b s = Ret a s'
    ∧ (a ≠ b → next_at s' b = Some old)
    ∧ (∀ l, l ≠ a → l ≠ b → next_at s' l = next_at s l)
    ∧ (∀ l, l ≠ b → previous_at s' l = previous_at s l)
    ∧ (∀ c, old = Some c → ∃ Q, ancestors_at s' c = Some Q ∧ b ∈ Q).
Proof.
  intros Hwf Ha Hb Hold.
  destruct (link_next_spec s a b old (wf_allocated s Hwf) Ha Hb Hold)
    as (s' & Hrun & _ & _ & _ & H1 & H2 & H3 & H4).
  { by eapply next_at_valid. }
  exists s'. done.
Qed.

(** What [link_previous] leaves behind. *)
Lemma link_previous_spec s a b old :
  allocated s → a < length (nodes s) → b < length (nodes s) →
  previous_at s a = Some old → valid_ref s old →
  ∃ s',
    link_previous a b s = Ret a s'
    ∧ relinked s s'
    ∧ previous_at s' a = Some (Some b)
    ∧ next_at s' b = Some (Some a)
    ∧ (∃ Q, ancestors_at s' a = Some Q ∧ b ∈ Q)
    ∧ (∃ P, progeny_at s' b = Some P ∧ a ∈ P)
    ∧ (a ≠ b → previous_at s' b = Some old)
    ∧ (∀ p, old = Some p → p ≠ b → next_at s' p = Some (Some b))
    ∧ (∀ l, l ≠ b → old ≠ Some l → next_at s' l = next_at s l)
    ∧ (∀ l, l ≠ a → l ≠ b → previous_at s' l = previous_at s l).
Proof.
  intros Hal Ha Hb Hold Hvalid.
  unfold link_previous. unfold previous at 1. unfold bind at 1. unfold bind at 1.
  unfold previous_at in Hold. destruct (nodes s !! a) as [na|] eqn:Hna; [|done].
  injection Hold as Hold. rewrite (get_node_eq _ _ _ Hna). unfold ret at 1.
  cbv beta iota. rewrite Hold.
  (* the old previous node is re-pointed first *)
  assert (∃ s1,
            (match old with
             | Some p => set_next p (Some b) true ;; ret tt
             | None => ret tt
             end) s = Ret tt s1
            ∧ relinked s s1
            ∧ (∀ p, old = Some p → next_at s1 p = Some (Some b))
            ∧ (∀ l, old ≠ Some l → next_at s1 l = next_at s l)
            ∧ (∀ l, previous_at s1 l = previous_at s l)) as (s1 & Hrun1 & Hr1 & Hp1 & Hn1 & Hv1).
  { destruct old as [p|].
    - destruct (set_next_spec s p (Some b) true Hal) as (s1 & Hrun1 & H1);
        [done|simpl; lia|].
      exists s1. unfold bind, ret. rewrite Hrun1.
      split; [done|]. split; [apply H1|]. split.
      + intros p' [= <-]. apply H1.
      + split; [|apply H1]. intros l Hl. apply H1. congruence.
    - exists s. split; [done|]. split; [apply relinked_refl|]. done. }
  pose proof (relinked_length _ _ Hr1) as Hl1.
  pose proof (relinked_allocated _ _ Hr1 Hal) as Hal1.
  destruct (set_previous_spec s1 b old false Hal1) as (s2 & Hrun2 & H2);
    [lia|by apply (valid_ref_length s)|].
  pose proof (previous_set_relinked _ _ _ _ H2) as Hr2.
  pose proof (relinked_length _ _ Hr2) as Hl2.
  pose proof (relinked_allocated _ _ Hr2 Hal1) as Hal2.
  destruct (set_next_spec s2 b (Some a) false Hal2) as (s3 & Hrun3 & H3);
    [lia|simpl; lia|].
  pose proof (next_set_relinked _ _ _ _ H3) as Hr3.
  pose proof (relinked_length _ _ Hr3) as Hl3.
  pose proof (relinked_allocated _ _ Hr3 Hal2) as Hal3.
  destruct (set_previous_spec s3 a (Some b) true Hal3) as (s4 & Hrun4 & H4);
    [lia|simpl; lia|].
  pose proof (previous_set_relinked _ _ _ _ H4) as Hr4.
  pose proof (relinked_length _ _ Hr4) as Hl4.
  pose proof (relinked_allocated _ _ Hr4 Hal3) as Hal4.
  destruct (record_linked s4 a b Hal4) as (s5 & Hrun5 & Hr5 & Hv5); [lia..|].
  exists s5. unfold bind at 1. rewrite Hrun1. cbv beta iota.
  unfold bind at 1. rewrite Hrun2. cbv beta iota.
  unfold bind at 1. rewrite Hrun3. cbv beta iota.
  unfold bind at 1. rewrite Hrun4. cbv beta iota.
  split; [exact Hrun5|].
  split; [eapply relinked_trans; [|exact Hr5];
          eapply relinked_trans; [|exact Hr4];
          eapply relinked_trans; [|exact Hr3];
          eapply relinked_trans; [exact Hr1|exact Hr2]|].
  split.
  { destruct (Hv5 a) as (_ & -> & _). apply (previous_set_previous _ _ _ _ H4). }
  split.
  { rewrite (proj1 (Hv5 b)), (previous_set_next _ _ _ _ H4).
    apply (next_set_next _ _ _ _ H3). }
  split.
  { destruct (Hv5 a) as (_ & _ & _ & ->). by apply (previous_set_ancestors _ _ _ _ H4). }
  split.
  { destruct (Hv5 b) as (_ & _ & -> & _). by apply (previous_set_progeny _ _ _ _ H4). }
  split.
  { intros Hne. destruct (Hv5 b) as (_ & -> & _).
    rewrite (previous_set_previous_other _ _ _ _ H4) by done.
    rewrite (next_set_previous _ _ _ _ H3).
    apply (previous_set_previous _ _ _ _ H2). }
  split.
  { intros p Hp Hpb. rewrite (proj1 (Hv5 p)), (previous_set_next _ _ _ _ H4).
    rewrite (next_set_next_other _ _ _ _ H3) by done.
    rewrite (previous_set_next _ _ _ _ H2). by apply Hp1. }
  split.
  { intros l Hlb Hlo. rewrite (proj1 (Hv5 l)), (previous_set_next _ _ _ _ H4).
    rewrite (next_set_next_other _ _ _ _ H3) by done.
    rewrite (previous_set_next _ _ _ _ H2). by apply Hn1. }
  intros l Hla Hlb. destruct (Hv5 l) as (_ & -> & _).
  rewrite (previous_set_previous_other _ _ _ _ H4) by done.
  rewrite (next_set_previous _ _ _ _ H3).
  rewrite (previous_set_previous_other _ _ _ _ H2) by done.
  apply Hv1.
Qed.

(** [a.link_previous(b)] splices [b] in before [a] on both sides: [a]'s
    previous is [b], [b]'s next is [a], each is in the other's set, [b]
    takes over [a]'s old previous (when [b] is not [a]), and the old
    previous node, when there is one other than [b], now points to [b].  No
    other pointer changes. *)
Theorem link_previous_splices s a b old :
  wf s → a < length (nodes s) → b < length (nodes s) →
  previous_at s a = Some old →
  ∃ s',
    link_previous a b s = Ret a s'
    ∧ previous_at s' a = Some (Some b)
    ∧ next_at s' b = Some (Some a)
    ∧ (∃ Q, ancestors_at s' a = Some Q ∧ b ∈ Q)
    ∧ (∃ P, progeny_at s' b = Some P ∧ a ∈ P)
    ∧ (a ≠ b → previous_at s' b = Some old)
    ∧ (∀ p, old = Some p → p ≠ b → next_at s' p = Some (Some b))
    ∧ (∀ l, l ≠ b → old ≠ Some l → next_at s' l = next_at s l)
    ∧ (∀ l, l ≠ a → l ≠ b → previous_at s' l = previous_at s l).
Proof.
  intros Hwf Ha Hb Hold.
  destruct (link_previous_spec s a b old (wf_allocated s Hwf) Ha Hb Hold)
    as (s' & Hrun & _ & H); [by eapply previous_at_valid|].
  exists s'. done.
Qed.

(** ** The constructor and [new_next_link] *)

(** What [new LinkedChain(ingredients)] leaves behind when it makes a history
    of its own: the node is the next free slot, holds the ingredients, and
    is the [_latest_state] of no history; the pointers of the nodes that
    were there are untouched. *)
Lemma LinkedChain_new_views s ing :
  wf s →
  valid_ref s (default None (i_parent ing)) →
  valid_ref s (default None (i_next ing)) →
  (if default false (i_is_snapshot ing) then i_history ing else None) = None →
  ∃ s' nn,
    LinkedChain_new ing s = Ret (length (nodes s)) s'
    ∧ wf s'
    ∧ length (nodes s) < length (nodes s')
    ∧ nodes s' !! length (nodes s) = Some nn
    ∧ core_of nn = core_of (fresh_node ing (length (hists s)))
    ∧ not_latest s' (length (nodes s))
    ∧ (∀ l, l < length (nodes s) →
         next_at s' l = next_at s l ∧ previous_at s' l = previous_at s l
         ∧ data_at s' l = data_at s l).
Proof.
  intros Hwf Hp Hn Hown.
  destruct (LinkedChain_new_total s ing Hp Hn Hown) as (s' & Hrun & Hh & Hc).
  destruct (LinkedChain_new_constructed s ing Hp Hn Hown) as (s'' & Hrun' & Hcons).
  assert (s'' = s') as -> by congruence.
  assert (length (nodes s') = length (nodes s) + 4) as Hlen.
  { rewrite (core_length _ _ Hc), length_app, length_fmap. done. }
  destruct (core_lookup (nodes s') _ (length (nodes s))
              (core_of (fresh_node ing (length (hists s)))) Hc) as (nn & Hnn & Hcn).
  { rewrite lookup_app_r by (by rewrite length_fmap).
    by rewrite length_fmap, Nat.sub_diag. }
  exists s', nn. split; [done|]. split; [by apply (constructed_wf _ _ _ Hcons)|].
  split; [lia|]. split; [done|]. split; [done|]. split.
  - intros h x Hx. rewrite Hh in Hx. apply lookup_app_Some in Hx as [Hx|[_ Hx]].
    + destruct (wf_hist _ _ _ Hwf Hx) as (? & _). lia.
    + apply list_lookup_singleton_Some in Hx as [_ <-]. simpl. lia.
  - intros l Hl. destruct (lookup_lt_is_Some_2 _ _ Hl) as [n Hnl].
    destruct (core_lookup (nodes s') _ l (core_of n) Hc) as (n' & Hn' & Hcn').
    { rewrite lookup_app_l by (by rewrite length_fmap).
      by rewrite list_lookup_fmap, Hnl. }
    unfold next_at, previous_at, data_at. rewrite Hn', Hnl. simpl.
    unfold core_of in Hcn'. repeat split; congruence.
Qed.

(** [a.new_next_link(data, metadata)] returns a node the call allocated.  The
    node holds [data], its origin is [a]'s origin, or [a] when it has none,
    its previous is [a] and its next is [a]'s old next; [a]'s next is the
    new node.  No other node is re-pointed: in particular [a]'s old next
    keeps its [previous] pointer, which does not become the new node. *)
Theorem new_next_link_splices s this na payload md :
  wf s → nodes s !! this = Some na →
  ∃ s' nn,
    new_next_link this payload md s = Ret (length (nodes s)) s'
    ∧ nodes s' !! length (nodes s) = Some nn
    ∧ _data nn = Some payload
    ∧ _origin nn = Some (default this (_origin na))
    ∧ _is_snapshot nn = false
    ∧ _previous nn = Some this
    ∧ _next nn = _next na
    ∧ next_at s' this = Some (Some (length (nodes s)))
    ∧ (∀ l, l < length (nodes s) → l ≠ this → next_at s' l = next_at s l)
    ∧ (∀ l, l < length (nodes s) → previous_at s' l = previous_at s l).
Proof.
  intros Hwf Hna.
  assert (this < length (nodes s)) as Hthis by (by eapply lookup_lt_Some).
  destruct (wf_node _ _ _ Hwf Hna) as (_ & _ & Hnext).
  unfold new_next_link, origin, next, bind, ret.
  rewrite (get_node_eq _ _ _ Hna). cbv beta iota.
  rewrite (get_node_eq _ _ _ Hna). cbv beta iota.
  match goal with |- context [LinkedChain_new ?i] => set (ing := i) end.
  destruct (LinkedChain_new_views s ing Hwf) as (s1 & n1 & Hrun1 & Hwf1 & Hlen1 & Hn1 & Hc1 & Hnl1 & Hold1);
    [simpl; lia|done|done|].
  rewrite Hrun1. cbv beta iota.
  set (n := length (nodes s)) in *.
  assert (next_at s1 this = Some (_next na)) as Hnext1.
  { rewrite (proj1 (Hold1 this Hthis)). unfold next_at. by rewrite Hna. }
  destruct (link_next_spec s1 this n (_next na) (wf_allocated _ Hwf1))
    as (s2 & Hrun2 & Hr2 & Ha2 & Hb2 & Hbn2 & Hno2 & Hpo2 & _);
    [lia|done|done|by eapply next_at_valid|].
  rewrite Hrun2.
  (* the new node after the splice *)
  destruct (ledger_link_next this n s1) as [Hid _]. rewrite Hrun2 in Hid.
  destruct (Hid n n1 Hn1) as (nn & Hnn & Hidn). simpl in Hnn.
  exists s2, nn. split; [done|]. split; [done|].
  unfold core_of, fresh_node in Hc1. simpl in Hc1.
  injection Hc1 as Ho1 _ Hd1 Hp1 Hnx1 _ Hs1.
  unfold node_identity in Hidn. injection Hidn as Ho2 _ Hs2.
  assert (data_at s2 n = Some payload) as Hdata.
  { rewrite (relinked_data _ _ Hr2) by done. unfold data_at. rewrite Hn1. done. }
  unfold data_at in Hdata. rewrite Hnn in Hdata.
  split; [exact Hdata|]. split; [congruence|]. split; [congruence|].
  unfold previous_at in Hb2. rewrite Hnn in Hb2. injection Hb2 as Hb2.
  split; [done|].
  assert (next_at s2 n = Some (_next na)) as Hbn by (apply Hbn2; lia).
  unfold next_at in Hbn. rewrite Hnn in Hbn. injection Hbn as Hbn.
  split; [done|]. split; [done|]. split.
  - intros l Hl Hne. rewrite Hno2 by lia. by apply Hold1.
  - intros l Hl. rewrite Hpo2 by lia. by apply Hold1.
Qed.

(** ** [update] with pointers, and [add_link] *)

(** [add_link(link)] puts [link] in the node's progeny and the node in
    [link]'s ancestors, and re-points nothing: every [next] and [previous]
    pointer is as it was. *)
Theorem add_link_registers s this link :
  wf s → this < length (nodes s) → link < length (nodes s) →
  ∃ s',
    add_link this link s = Ret link s'
    ∧ (∃ P, progeny_at s' this = Some P ∧ link ∈ P)
    ∧ (∃ Q, ancestors_at s' link = Some Q ∧ this ∈ Q)
    ∧ ∀ l, next_at s' l = next_at s l ∧ previous_at s' l = previous_at s l.
Proof.
  intros Hwf Hthis Hlink. pose proof (wf_allocated _ Hwf) as Hal.
  destruct (lookup_lt_is_Some_2 _ _ Hthis) as [na Hna].
  unfold add_link, bind, ret.
  rewrite modify_node_eq by done. cbv beta iota.
  rewrite modify_node_eq by (simpl; by rewrite length_alter). cbv beta iota.
  rewrite nodes_set_nodes, set_nodes_set_nodes.
  set (ns2 := alter (ancestors_add this) link (alter (progeny_add link) this (nodes s))).
  set (s2 := set_nodes ns2 s).
  assert (relinked s s2) as Hr2.
  { eapply relinked_trans;
      [apply (relinked_alter s this (progeny_add link)), relinks_progeny_add|].
    apply (relinked_alter (set_nodes _ s) link (ancestors_add this)),
      relinks_ancestors_add. }
  pose proof (relinked_allocated _ _ Hr2 Hal) as Hal2.
  pose proof (relinked_length _ _ Hr2) as Hl2.
  assert (history_at s2 this = Some (_chain_link_history na)) as Hh2.
  { rewrite (relinked_history _ _ Hr2). unfold history_at. by rewrite Hna. }
  unfold history_at in Hh2.
  destruct (nodes s2 !! this) as [na2|] eqn:Hna2; [|done]. injection Hh2 as Hh2.
  unfold history, bind, ret. rewrite (get_node_eq _ _ _ Hna2). cbv beta iota.
  destruct (add_entry_link_relinked s2 (_chain_link_history na2) link Hal2)
    as (s3 & Hrun3 & Hr3 & Hv3); [lia| |].
  { apply (proj1 Hal2 this). unfold history_at. by rewrite Hna2. }
  rewrite Hrun3. exists s3. split; [done|].
  split.
  { destruct (Hv3 this) as (_ & _ & -> & _). unfold progeny_at, s2, ns2. simpl.
    rewrite (lookup_alter_proj _progeny) by done.
    rewrite list_lookup_alter_eq, Hna. simpl. eexists. split; [done|].
    apply elem_of_union. left. by apply elem_of_singleton. }
  split.
  { destruct (Hv3 link) as (_ & _ & _ & ->). unfold ancestors_at, s2, ns2. simpl.
    rewrite list_lookup_alter_eq.
    destruct (lookup_lt_is_Some_2 (alter (progeny_add link) this (nodes s)) link)
      as [nl Hnl]; [by rewrite length_alter|].
    rewrite Hnl. simpl. eexists. split; [done|].
    apply elem_of_union. left. by apply elem_of_singleton. }
  intros l. destruct (Hv3 l) as (-> & -> & _).
  unfold next_at, previous_at, s2, ns2. simpl.
  rewrite !(lookup_alter_proj _next) by done.
  rewrite !(lookup_alter_proj _previous) by done. done.
Qed.

(** Same pointers, sets, node histories and snapshot references. *)
Record same_views (s s' : Store) : Prop := {
  same_views_length : length (nodes s') = length (nodes s);
  same_views_states : states_of <$> hists s' = states_of <$> hists s;
  same_views_at :
    ∀ l, next_at s' l = next_at s l ∧ previous_at s' l = previous_at s l
         ∧ progeny_at s' l = progeny_at s l ∧ ancestors_at s' l = ancestors_at s l
         ∧ history_at s' l = history_at s l
}.

Lemma same_views_refl s : same_views s s.
Proof. by split. Qed.

Lemma same_views_trans s1 s2 s3 : same_views s1 s2 → same_views s2 s3 → same_views s1 s3.
Proof.
  intros [Hl1 Hs1 Hv1] [Hl2 Hs2 Hv2]. split; [congruence|congruence|].
  intros l. destruct (Hv1 l) as (? & ? & ? & ? & ?), (Hv2 l) as (? & ? & ? & ? & ?).
  repeat split; congruence.
Qed.

Lemma same_views_allocated s s' : same_views s s' → allocated s → allocated s'.
Proof.
  intros [Hlen Hst Hv] [Hn Hx].
  assert (length (hists s') = length (hists s)) as Hlenh.
  { by rewrite <- (length_fmap states_of (hists s')), Hst, length_fmap. }
  split.
  - intros l h Hl. destruct (Hv l) as (_ & _ & _ & _ & Hh). rewrite Hh in Hl.
    rewrite Hlenh. by eapply Hn.
  - intros h x Hx'. destruct (states_lookup s s' h x Hst Hx') as (x0 & Hx0 & <-).
    rewrite Hlen. by eapply Hx.
Qed.

(** A payload or metadata update of one node changes no view. *)
Lemma same_views_alter s l f :
  (∀ n, links_of (f n) = links_of n) →
  same_views s (set_nodes (alter f l (nodes s)) s).
Proof.
  intros Hf. split; simpl; [by rewrite length_alter|done|].
  intros l'. unfold next_at, previous_at, progeny_at, ancestors_at, history_at. simpl.
  repeat split; apply lookup_alter_proj; intros n; specialize (Hf n);
    unfold links_of in Hf; congruence.
Qed.

Lemma same_views_record s this :
  allocated s → this < length (nodes s) →
  ∃ s', (let* h := history this in add_entry_link h this ;; ret this) s = Ret this s'
        ∧ same_views s s'.
Proof.
  intros Hal Hthis. destruct (record_after s this Hal Hthis) as (s' & Hrun & Hr & Hv).
  exists s'. split; [done|]. split; [apply Hr|apply Hr|].
  intros l. destruct (Hv l) as (? & ? & ? & ?). repeat split; try done. apply Hr.
Qed.

Lemma bind_Ret {A B} (m : M A) (k : A → M B) s a s1 :
  m s = Ret a s1 → bind m k s = k a s1.
Proof. intros H. unfold bind. by rewrite H. Qed.

(** The payload part of [update]: everything before the pointers. *)
Lemma update_payload_views s this d :
  allocated s → this < length (nodes s) →
  ∃ s',
    same_views s s'
    ∧ ∀ B (rest : M B),
        (match i_metadata d with
         | Some m => update_metadata this m ;; ret tt
         | None => ret tt
         end ;;
         match i_metadata d with
         | Some m =>
             let* current := metadata this in
             modify_node this (with_metadata (Some (merge_metadata m current)))
         | None => ret tt
         end ;;
         match i_data d with
         | Some x => modify_node this (with_data (Some x))
         | None => ret tt
         end ;;
         rest) s = rest s'.
Proof.
  intros Hal Hthis.
  assert (∀ s0 m, allocated s0 → this < length (nodes s0) →
            ∃ s1, (let* current := metadata this in
                   modify_node this (with_metadata (Some (merge_metadata m current)))) s0
                  = Ret tt s1 ∧ same_views s0 s1) as Hmeta.
  { intros s0 m _ Ht0. destruct (lookup_lt_is_Some_2 _ _ Ht0) as [n0 Hn0].
    unfold metadata, bind, ret. rewrite (get_node_eq _ _ _ Hn0). cbv beta iota.
    rewrite modify_node_eq by done. eexists. split; [done|].
    by apply same_views_alter. }
  (* update_metadata *)
  assert (∃ s1, (match i_metadata d with
                 | Some m => update_metadata this m ;; ret tt
                 | None => ret tt
                 end) s = Ret tt s1 ∧ same_views s s1) as (s1 & Hrun1 & Hv1).
  { destruct (i_metadata d) as [m|]; [|exists s; split; [done|apply same_views_refl]].
    destruct (Hmeta s m Hal Hthis) as (sa & Hruna & Hva).
    destruct (same_views_record sa this) as (sb & Hrunb & Hvb).
    { by eapply same_views_allocated. }
    { rewrite (same_views_length _ _ Hva). done. }
    exists sb. split; [|by eapply same_views_trans].
    unfold update_metadata.
    unfold bind at 1 in Hruna. unfold bind at 1. unfold bind at 1.
    destruct (metadata this s) as [cur s0|]; [|done]. cbv beta iota in *.
    rewrite (bind_Ret _ _ _ _ _ Hruna).
    unfold bind in Hrunb. unfold bind.
    destruct (history this sa) as [h sh|]; [|done].
    destruct (add_entry_link h this sh) as [? ?|]; [|done].
    unfold ret in *. congruence. }
  pose proof (same_views_allocated _ _ Hv1 Hal) as Hal1.
  assert (this < length (nodes s1)) as Ht1 by (rewrite (same_views_length _ _ Hv1); done).
  assert (∃ s2, (match i_metadata d with
                 | Some m =>
                     let* current := metadata this in
                     modify_node this (with_metadata (Some (merge_metadata m current)))
                 | None => ret tt
                 end) s1 = Ret tt s2 ∧ same_views s1 s2) as (s2 & Hrun2 & Hv2).
  { destruct (i_metadata d) as [m|]; [by apply Hmeta|].
    exists s1. split; [done|apply same_views_refl]. }
  assert (this < length (nodes s2)) as Ht2 by (rewrite (same_views_length _ _ Hv2); done).
  assert (∃ s3, (match i_data d with
                 | Some x => modify_node this (with_data (Some x))
                 | None => ret tt
                 end) s2 = Ret tt s3 ∧ same_views s2 s3) as (s3 & Hrun3 & Hv3).
  { destruct (i_data d) as [x|].
    - rewrite modify_node_eq by done. eexists. split; [done|].
      by apply same_views_alter.
    - exists s2. split; [done|apply same_views_refl]. }
  exists s3. split.
  - eapply same_views_trans; [|exact Hv3]. by eapply same_views_trans.
  - intros B rest.
    by rewrite (bind_Ret _ _ _ _ _ Hrun1), (bind_Ret _ _ _ _ _ Hrun2),
      (bind_Ret _ _ _ _ _ Hrun3).
Qed.

(** [update] re-points only the node it is called on.  Afterwards the
    node's [next] and [previous] are the ones given (kept when the key is
    absent), a node given as [next] has the updated node among its
    ancestors and is among its progeny (and likewise for [parent]), and
    every other node has the [next] and [previous] it had: the neighbour's
    own pointer back is not set. *)
Theorem update_relinks s this d :
  wf s → this < length (nodes s) →
  valid_ref s (default None (i_next d)) →
  valid_ref s (default None (i_parent d)) →
  ∃ s',
    update this d s = Ret this s'
    ∧ next_at s' this = match i_next d with Some nl => Some nl | None => next_at s this end
    ∧ previous_at s' this
      = match i_parent d with Some nl => Some nl | None => previous_at s this end
    ∧ (∀ l, l ≠ this → next_at s' l = next_at s l ∧ previous_at s' l = previous_at s l)
    ∧ (∀ o, i_next d = Some (Some o) →
         (∃ P, progeny_at s' this = Some P ∧ o ∈ P)
         ∧ ∃ Q, ancestors_at s' o = Some Q ∧ this ∈ Q)
    ∧ (∀ o, i_parent d = Some (Some o) →
         (∃ Q, ancestors_at s' this = Some Q ∧ o ∈ Q)
         ∧ ∃ P, progeny_at s' o = Some P ∧ this ∈ P).
Proof.
  intros Hwf Hthis Hnext Hparent. pose proof (wf_allocated _ Hwf) as Hal.
  destruct (update_payload_views s this d Hal Hthis) as (s3 & Hv3 & Hrun3).
  pose proof (same_views_allocated _ _ Hv3 Hal) as Hal3.
  pose proof (same_views_length _ _ Hv3) as Hl3.
  (* next *)
  assert (∃ s4, (match i_next d with
                 | Some l => set_next this l false ;; ret tt
                 | None => ret tt
                 end) s3 = Ret tt s4
                ∧ relinked s3 s4
                ∧ next_at s4 this
                  = match i_next d with Some nl => Some nl | None => next_at s3 this end
                ∧ (∀ l, l ≠ this → next_at s4 l = next_at s3 l)
                ∧ (∀ l, previous_at s4 l = previous_at s3 l)
                ∧ (∀ o, i_next d = Some (Some o) →
                     (∃ P, progeny_at s4 this = Some P ∧ o ∈ P)
                     ∧ ∃ Q, ancestors_at s4 o = Some Q ∧ this ∈ Q))
    as (s4 & Hrun4 & Hr4 & Hn4 & Hno4 & Hp4 & Hs4).
  { destruct (i_next d) as [nl|]; simpl in Hnext.
    - destruct (set_next_spec s3 this nl false Hal3) as (s4 & Hrun4 & H4);
        [lia|by apply (valid_ref_length s)|].
      exists s4. rewrite (bind_Ret _ _ _ _ _ Hrun4).
      split; [done|]. split; [apply H4|]. split; [apply H4|]. split; [apply H4|].
      split; [apply H4|]. intros o [= ->]. split; by apply H4.
    - exists s3. split; [done|]. split; [apply relinked_refl|]. done. }
  pose proof (relinked_allocated _ _ Hr4 Hal3) as Hal4.
  pose proof (relinked_length _ _ Hr4) as Hl4.
  (* parent *)
  assert (∃ s5, (match i_parent d with
                 | Some l => set_previous this l false ;; ret tt
                 | None => ret tt
                 end) s4 = Ret tt s5
                ∧ relinked s4 s5
                ∧ previous_at s5 this
                  = match i_parent d with Some nl => Some nl | None => previous_at s4 this end
                ∧ (∀ l, l ≠ this → previous_at s5 l = previous_at s4 l)
                ∧ (∀ l, next_at s5 l = next_at s4 l)
                ∧ (∀ o, i_parent d = Some (Some o) →
                     (∃ Q, ancestors_at s5 this = Some Q ∧ o ∈ Q)
                     ∧ ∃ P, progeny_at s5 o = Some P ∧ this ∈ P))
    as (s5 & Hrun5 & Hr5 & Hp5 & Hpo5 & Hn5 & Hs5).
  { destruct (i_parent d) as [nl|]; simpl in Hparent.
    - destruct (set_previous_spec s4 this nl false Hal4) as (s5 & Hrun5 & H5);
        [lia|apply (valid_ref_length s); [lia|done]|].
      exists s5. rewrite (bind_Ret _ _ _ _ _ Hrun5).
      split; [done|]. split; [apply H5|]. split; [apply H5|]. split; [apply H5|].
      split; [apply H5|]. intros o [= ->]. split; by apply H5.
    - exists s4. split; [done|]. split; [apply relinked_refl|]. done. }
  pose proof (relinked_allocated _ _ Hr5 Hal4) as Hal5.
  pose proof (relinked_length _ _ Hr5) as Hl5.
  destruct (same_views_record s5 this Hal5) as (s6 & Hrun6 & Hv6); [lia|].
  exists s6. split.
  { unfold update. rewrite Hrun3.
    by rewrite (bind_Ret _ _ _ _ _ Hrun4), (bind_Ret _ _ _ _ _ Hrun5). }
  destruct (same_views_at _ _ Hv6 this) as (Hn6 & Hp6 & Hpr6 & Han6 & _).
  destruct (same_views_at _ _ Hv3 this) as (Hn3 & Hp3 & _).
  split.
  { rewrite Hn6, Hn5, Hn4. by destruct (i_next d). }
  split.
  { rewrite Hp6, Hp5. destruct (i_parent d); [done|]. by rewrite Hp4. }
  split.
  { intros l Hne. destruct (same_views_at _ _ Hv6 l) as (-> & -> & _).
    destruct (same_views_at _ _ Hv3 l) as (Hn3l & Hp3l & _).
    rewrite Hn5, (Hno4 l Hne), (Hpo5 l Hne), Hp4. done. }
  split.
  { intros o Ho. destruct (Hs4 o Ho) as ((P & HP & HoP) & (Q & HQ & HtQ)).
    destruct (sets_grow_progeny s4 s5 this P o (relinked_grow _ _ Hr5) HP HoP)
      as (P5 & HP5 & HoP5).
    destruct (sets_grow_ancestors s4 s5 o Q this (relinked_grow _ _ Hr5) HQ HtQ)
      as (Q5 & HQ5 & HtQ5).
    split.
    - exists P5. by rewrite Hpr6.
    - exists Q5. destruct (same_views_at _ _ Hv6 o) as (_ & _ & _ & -> & _). done. }
  intros o Ho. destruct (Hs5 o Ho) as ((Q & HQ & HoQ) & (P & HP & HtP)).
  split.
  - exists Q. by rewrite Han6.
  - exists P. destruct (same_views_at _ _ Hv6 o) as (_ & _ & -> & _). done.
Qed.

(** [update({ data })] replaces the node's payload by the object given: a
    field the new object lacks is gone from [data()].  [_latest_state]
    takes the changed fields only, so it agrees with the new payload on
    every field of the payload and keeps the fields the payload dropped. *)
Theorem update_data_replaces s this ni x nl ld p :
  nodes s !! this = Some ni →
  hists s !! _chain_link_history ni = Some x →
  nodes s !! _latest_state x = Some nl →
  _data nl = Some ld →
  _latest_state x ≠ this →
  ∃ s' latest_data,
    update this (data_only p) s = Ret this s'
    ∧ data_at s' this = Some p
    ∧ data_at s' (_latest_state x) = Some latest_data
    ∧ ∀ k, js_get latest_data k = default (js_get ld k) (p !! k).
Proof.
  intros Hni Hx Hnl Hld Hne.
  assert (this < length (nodes s)) as Hthis by (by eapply lookup_lt_Some).
  rewrite update_data_only_eq by done.
  set (s1 := set_nodes _ s).
  assert (nodes s1 !! this = Some (with_data (Some p) ni)) as Hn1.
  { unfold s1. simpl. by rewrite list_lookup_alter_eq, Hni. }
  assert (nodes s1 !! _latest_state x = Some nl) as Hnl1.
  { unfold s1. simpl. by rewrite list_lookup_alter_ne. }
  unfold history, bind, ret. rewrite (get_node_eq _ _ _ Hn1). cbv beta iota.
  cbn [_chain_link_history with_data].
  rewrite (add_entry_link_eq s1 _ this _ x nl Hn1 Hx Hnl1). cbv beta iota.
  assert (data_delta_of (with_data (Some p) ni) nl = Some (calculate_delta ld p)) as Hdelta.
  { unfold data_delta_of. simpl. by rewrite Hld. }
  exists (if records (with_data (Some p) ni) nl
          then {| nodes := alter (absorb (data_delta_of (with_data (Some p) ni) nl)
                                    (meta_delta_of (with_data (Some p) ni) nl))
                             (_latest_state x) (nodes s1);
                  hists := alter (timeline_push
                                    (entry_of (clock s1) (with_data (Some p) ni) nl))
                             (_chain_link_history ni) (hists s1);
                  clock := clock s1 |}
          else s1), (object_assign ld (calculate_delta ld p)).
  split; [done|].
  destruct (records (with_data (Some p) ni) nl) eqn:Hrec.
  - unfold data_at. simpl. rewrite list_lookup_alter_ne by done.
    rewrite list_lookup_alter_eq, Hni, list_lookup_alter_eq.
    rewrite list_lookup_alter_ne by done. rewrite Hnl. simpl.
    split; [done|]. split.
    + rewrite Hdelta. unfold absorb, meta_assigned, data_assigned. simpl.
      by rewrite Hld.
    + intros k. apply calculate_delta_assigned.
  - unfold data_at. rewrite Hn1, Hnl1. simpl. split; [done|].
    unfold records in Hrec. rewrite Hdelta in Hrec.
    apply orb_false_iff in Hrec as [Hkeys _]. apply has_keys_false in Hkeys.
    split.
    + by rewrite Hkeys, object_assign_empty.
    + intros k. apply calculate_delta_assigned.
Qed.

(** * Further properties: reconstruction and deltas together *)

Lemma delta_between_points_forward s h x (p q : Z) :
  hists s !! h = Some x →
  (0 ≤ p)%Z → (p ≤ q)%Z → (q < Z.of_nat (length (_timeline x)))%Z →
  delta_between_points h p q s
  = Ret (union_last_write_wins
           (take (Z.to_nat q - Z.to_nat p) (drop (S (Z.to_nat p)) (_timeline x)))) s.
Proof.
  intros Hx Hp Hpq Hq. unfold delta_between_points, bind.
  rewrite (get_hist_eq _ _ _ Hx).
  replace (p <? 0)%Z with false by (symmetry; apply Z.ltb_ge; lia).
  replace (Z.of_nat (length (_timeline x)) <=? q)%Z with false
    by (symmetry; apply Z.leb_gt; lia).
  simpl. destruct (decide (p < q)%Z) as [Hlt|Hge].
  - replace (p <? q)%Z with true by (symmetry; apply Z.ltb_lt; lia).
    unfold ret. f_equal. rewrite accumulate_deltas_foldl by lia.
    unfold union_last_write_wins.
    replace (Z.to_nat (p + 1)) with (S (Z.to_nat p)) by lia.
    replace (Z.to_nat (q - p)) with (Z.to_nat q - Z.to_nat p) by lia.
    done.
  - replace (p <? q)%Z with false by (symmetry; apply Z.ltb_ge; lia).
    replace (Z.to_nat q - Z.to_nat p) with 0 by lia. done.
Qed.

Lemma replay_deltas_union d0 entries :
  replay_deltas d0 entries = object_assign d0 (union_last_write_wins entries).
Proof. unfold replay_deltas, object_assign. apply union_deltas_from. Qed.

(** On the lineage of a node constructed with data, the two views of the
    ledger agree: for points [i <= j] of the timeline, the data
    [rebuild_at(j)] reconstructs is the data [rebuild_at(i)] reconstructs
    with [delta_between_points(i, j)] assigned over it. *)
Theorem delta_between_points_bridges s this h d0 x (i j : Z) :
  seeded s this h d0 →
  hists s !! h = Some x →
  (0 ≤ i)%Z → (i ≤ j)%Z → (j < Z.of_nat (length (_timeline x)))%Z →
  ∃ si bi ni di sj bj nj dd,
    rebuild_at h i s = Ret (Some bi) si
    ∧ nodes si !! bi = Some ni ∧ _data ni = Some di
    ∧ rebuild_at h j s = Ret (Some bj) sj
    ∧ nodes sj !! bj = Some nj
    ∧ delta_between_points h i j s = Ret dd s
    ∧ _data nj = Some (object_assign di dd).
Proof.
  intros Hseed Hx Hi Hij Hj. apply seeded_lineage in Hseed as (Hwf & Hinv & _).
  destruct (rebuild_at_replays s h d0 x i Hwf Hinv Hx) as (si & Hruni & _ & _ & Hdi);
    [lia|].
  destruct (rebuild_at_replays s h d0 x j Hwf Hinv Hx) as (sj & Hrunj & _ & _ & Hdj);
    [lia|].
  apply data_at_Some in Hdi as (ni & Hni & Hdi).
  apply data_at_Some in Hdj as (nj & Hnj & Hdj).
  eexists si, _, ni, _, sj, _, nj, _.
  split; [exact Hruni|]. split; [exact Hni|]. split; [exact Hdi|].
  split; [exact Hrunj|]. split; [exact Hnj|].
  split; [by apply delta_between_points_forward|].
  rewrite Hdj. f_equal. rewrite <- replay_deltas_union, <- replay_deltas_app.
  f_equal. rewrite take_take_drop. f_equal. lia.
Qed.

(** * Further properties: [connected_links] *)

Lemma visit_neighbors_spec nbs :
  ∀ a q,
    let acc := foldl visit_neighbor (a, q) nbs in
    (∀ x, x ∈ acc.1 ↔ x ∈ a ∨ x ∈ nbs)
    ∧ (∀ x, x ∈ acc.2 ↔ x ∈ q ∨ (x ∈ nbs ∧ x ∉ a))
    ∧ size acc.1 + length q = size a + length acc.2.
Proof.
  induction nbs as [|nb nbs IH]; intros a q; simpl.
  - split; [|split; [|lia]]; intros x.
    + split; [by left|]. intros [?|H]; [done|]. by apply elem_of_nil in H.
    + split; [by left|]. intros [?|[H _]]; [done|]. by apply elem_of_nil in H.
  - destruct (decide (nb ∈ a)) as [Hin|Hout].
    + assert (visit_neighbor (a, q) nb = (a, q)) as ->.
      { unfold visit_neighbor. simpl. by rewrite decide_True. }
      destruct (IH a q) as (H1 & H2 & H3). split; [|split; [|done]]; intros x.
      * rewrite H1, elem_of_cons. split; [tauto|].
        intros [?|[->|?]]; tauto.
      * rewrite H2, elem_of_cons. split; [tauto|].
        intros [?|[[->|?] ?]]; tauto.
    + assert (visit_neighbor (a, q) nb = ({[nb]} ∪ a, q ++ [nb])) as ->.
      { unfold visit_neighbor. simpl. by rewrite decide_False. }
      destruct (IH ({[nb]} ∪ a) (q ++ [nb])) as (H1 & H2 & H3).
      split; [|split]; [intros x..|].
      * rewrite H1, elem_of_union, elem_of_singleton, elem_of_cons. tauto.
      * rewrite H2, elem_of_app, list_elem_of_singleton, elem_of_union,
          elem_of_singleton, elem_of_cons.
        destruct (decide (x = nb)) as [->|Hne]; tauto.
      * rewrite length_app in H3. simpl in H3.
        rewrite size_union in H3 by (apply disjoint_singleton_l; done).
        rewrite size_singleton in H3. lia.
Qed.

Section connected_links_closed.
Context (order : gset loc → list loc) (s : Store) (U : gset loc).
Hypothesis order_spec : ∀ X x, x ∈ order X ↔ x ∈ X.
Hypothesis U_closed :
  ∀ l n, l ∈ U → nodes s !! l = Some n → _ancestors n ∪ _progeny n ⊆ U.

Lemma neighbors_of_spec l n x :
  nodes s !! l = Some n → x ∈ neighbors_of order s l ↔ x ∈ _ancestors n ∪ _progeny n.
Proof.
  intros Hn. unfold neighbors_of. rewrite Hn, elem_of_app, !order_spec, elem_of_union.
  done.
Qed.

Lemma neighbors_of_U l x : l ∈ U → x ∈ neighbors_of order s l → x ∈ U.
Proof.
  intros Hl Hx. destruct (nodes s !! l) as [n|] eqn:Hn.
  - apply (U_closed l n Hl Hn). by apply (neighbors_of_spec l n x Hn).
  - unfold neighbors_of in Hx. rewrite Hn in Hx. by apply elem_of_nil in Hx.
Qed.

Lemma connected_links_loop_closed fuel :
  ∀ all queue,
    (∀ l, l ∈ queue → l ∈ all) →
    all ⊆ U →
    (∀ l n, l ∈ all → l ∉ queue → nodes s !! l = Some n →
       _ancestors n ∪ _progeny n ⊆ all) →
    size U + length queue ≤ fuel + size all →
    ∃ result,
      connected_links_loop order fuel s all queue = Some result
      ∧ all ⊆ result ∧ result ⊆ U
      ∧ ∀ l n, l ∈ result → nodes s !! l = Some n →
          _ancestors n ∪ _progeny n ⊆ result.
Proof.
  induction fuel as [|fuel IH]; intros all queue Hq HU Hdone Hfuel.
  - destruct queue as [|current rest].
    + exists all. split; [done|]. split; [done|]. split; [done|].
      intros l n Hl Hn. apply (Hdone l n Hl); [|done]. apply not_elem_of_nil.
    + pose proof (subseteq_size _ _ HU). simpl in Hfuel. lia.
  - destruct queue as [|current rest].
    + exists all. split; [done|]. split; [done|]. split; [done|].
      intros l n Hl Hn. apply (Hdone l n Hl); [|done]. apply not_elem_of_nil.
    + simpl.
      destruct (visit_neighbors_spec (neighbors_of order s current) all rest)
        as (H1 & H2 & H3).
      set (acc := foldl visit_neighbor (all, rest) (neighbors_of order s current)) in *.
      assert (current ∈ all) as Hcur by (apply Hq; left).
      destruct (IH acc.1 acc.2) as (result & Hrun & Hsub & HrU & Hclosed).
      * intros l Hl. apply H1. apply H2 in Hl as [Hl|[Hl _]]; [|by right].
        left. apply Hq. by right.
      * intros l Hl. apply H1 in Hl as [Hl|Hl]; [by apply HU|].
        apply (neighbors_of_U current); [by apply HU|done].
      * intros l n Hl Hnq Hn x Hx. apply H1.
        apply H1 in Hl as [Hl|Hl].
        -- destruct (decide (l = current)) as [->|Hne].
           ++ right. by apply (neighbors_of_spec current n x Hn).
           ++ left. apply (Hdone l n Hl); [|done|done].
              intros [->|Hin]%elem_of_cons; [done|].
              apply Hnq, H2. by left.
        -- destruct (decide (l ∈ all)) as [Hin|Hout].
           ++ destruct (decide (l = current)) as [->|Hne].
              ** right. by apply (neighbors_of_spec current n x Hn).
              ** left. apply (Hdone l n Hin); [|done|done].
                 intros [->|Hin']%elem_of_cons; [done|].
                 apply Hnq, H2. by left.
           ++ exfalso. apply Hnq, H2. by right.
      * simpl in Hfuel. lia.
      * exists result. split; [done|]. split; [|done].
        intros l Hl. apply Hsub, H1. by left.
Qed.

(** [connected_links()] returns the connected component of the node: for
    any finite set [U] that holds the node and is closed under the ancestors
    and progeny sets, the walk ends within [size U] rounds, and what it
    returns holds the node, lies within [U], and is itself closed under the
    ancestors and progeny sets.  It is therefore the least such set. *)
Theorem connected_links_component this :
  this ∈ U →
  ∃ result,
    connected_links order (size U) s this = Some result
    ∧ this ∈ result
    ∧ result ⊆ U
    ∧ ∀ l n, l ∈ result → nodes s !! l = Some n →
        _ancestors n ∪ _progeny n ⊆ result.
Proof.
  intros Hthis.
  destruct (connected_links_loop_closed (size U) {[this]} [this])
    as (result & Hrun & Hsub & HrU & Hclosed).
  - intros l Hl. apply list_elem_of_singleton in Hl as ->. by apply elem_of_singleton.
  - by apply singleton_subseteq_l.
  - intros l n Hl Hnq. apply elem_of_singleton in Hl as ->.
    destruct Hnq. by apply list_elem_of_singleton.
  - rewrite size_singleton. simpl. lia.
  - exists result. split; [done|]. split; [|done].
    apply Hsub. by apply elem_of_singleton.
Qed.
End connected_links_closed.

(** * Further properties: order of iteration, and what [rebuild_at] leaves alone *)

Lemma iterate_loop_in_order s dir this fuel :
  ∀ current l,
    iterate_loop fuel s dir this current = Some l →
    (∀ i c, l !! i = Some c → walk s dir i current = Some c)
    ∧ (walk s dir (length l) current = None
       ∨ walk s dir (length l) current = Some this).
Proof.
  induction fuel as [|fuel IH]; intros [c|] l; simpl; try done.
  - intros [= <-]. split; [done|]. by left.
  - destruct (decide (step s dir c = Some this)) as [Hback|Hon].
    + intros [= <-]. split; [|by right].
      intros [|i] c'; simpl; [by intros [= <-]|done].
    + destruct (iterate_loop fuel s dir this (step s dir c)) as [l'|] eqn:Hl'; [|done].
      simpl. intros [= <-]. destruct (IH _ _ Hl') as [Hat Hend]. split; [|done].
      intros [|i] c'; simpl; [by intros [= <-]|]. apply Hat.
  - intros [= <-]. split; [done|]. by left.
Qed.

(** [iterate] yields the chain in order, nearest node first: the [i]-th node
    it yields is the node [i + 1] hops from the start, and it stops exactly
    where the chain reaches [null] or comes back to the start. *)
Theorem iterate_in_order s this dir fuel l :
  iterate fuel s this dir = Some l →
  (∀ i c, l !! i = Some c → walk s dir (S i) (Some this) = Some c)
  ∧ (walk s dir (S (length l)) (Some this) = None
     ∨ walk s dir (S (length l)) (Some this) = Some this).
Proof. unfold iterate. intros Hl. by apply iterate_loop_in_order in Hl. Qed.

(** [rebuild_at] writes to the snapshot it allocates only, apart from
    registering that snapshot in the ancestors and progeny sets of the
    checkpoint's neighbours.  When it returns, every history is as it was,
    and every node that existed has the data, pointers, history, origin and
    snapshot flag it had; with an index that is out of bounds the whole heap
    is as it was. *)
Theorem rebuild_at_read_only s h x index r s' :
  wf s → hists s !! h = Some x →
  rebuild_at h index s = Ret r s' →
  hists s' = hists s
  ∧ (∀ l n, nodes s !! l = Some n →
       ∃ n', nodes s' !! l = Some n' ∧ _data n' = _data n ∧ refs_of n' = refs_of n)
  ∧ (r = None → s' = s).
Proof.
  intros Hwf Hx Hrun.
  pose proof (rebuild_at_post s h x index Hx) as Hpost. rewrite Hrun in Hpost.
  destruct r as [b|].
  - destruct Hpost as (_ & _ & Hh & Hold & _).
    destruct (rebuild_at_refs s h x index b s' Hwf Hx Hrun) as (_ & nb0 & Hr).
    split; [done|]. split; [|done]. intros l n Hn.
    destruct (same_refs_lookup _ (nodes s') l n Hr) as (n' & Hn' & Hrn).
    { by apply lookup_app_l_Some. }
    exists n'. split; [done|]. split; [|done].
    pose proof (Hold l) as Hd. unfold data_at in Hd. rewrite Hn', Hn in Hd.
    apply Hd. by eapply lookup_lt_Some.
  - destruct Hpost as [-> _]. split; [done|]. split; [|done]. eauto.
Qed.

(** * Further properties: the ends of the chain *)

Lemma iterate_last_end s this dir fuel l :
  iterate fuel s this dir = Some l →
  step s dir (default this (last l)) = None
  ∨ step s dir (default this (last l)) = Some this.
Proof.
  intros Hl. unfold iterate in Hl.
  destruct (iterate_loop_in_order _ _ _ _ _ _ Hl) as [Hat Hend].
  destruct l as [|c l _] using rev_ind.
  - exact Hend.
  - rewrite last_snoc. simpl.
    assert (walk s dir (length l) (step s dir this) = Some c) as Hc.
    { apply Hat. by rewrite list_lookup_middle. }
    rewrite length_app, Nat.add_comm in Hend.
    change (length [c] + length l) with (S (length l)) in Hend.
    rewrite walk_S_r, Hc in Hend. exact Hend.
Qed.

(** When [final_ancestor_and_progeny()] returns, each of the two nodes it
    gives is an end of the chain on its side: its pointer in that direction
    is [null], or is the node the walk started from (the chain is a ring).
    On a node with no neighbour on a side the node itself is given. *)
Theorem final_ancestor_and_progeny_ends fuel s this fa fp :
  final_ancestor_and_progeny fuel s this = Some (fa, fp) →
  (step s Dprevious fa = None ∨ step s Dprevious fa = Some this)
  ∧ (step s Dnext fp = None ∨ step s Dnext fp = Some this)
  ∧ (step s Dprevious this = None → fa = this)
  ∧ (step s Dnext this = None → fp = this).
Proof.
  unfold final_ancestor_and_progeny, ancestor_path, progeny_path.
  destruct (iterate fuel s this Dprevious) as [la|] eqn:Hla; [|done].
  destruct (iterate fuel s this Dnext) as [lp|] eqn:Hlp; [|done].
  simpl. intros [= <- <-].
  split; [by apply (iterate_last_end _ _ _ fuel)|].
  split; [by apply (iterate_last_end _ _ _ fuel)|].
  split; intros Hnull.
  - unfold iterate in Hla. rewrite Hnull in Hla. destruct fuel; simpl in Hla;
      by injection Hla as <-.
  - unfold iterate in Hlp. rewrite Hnull in Hlp. destruct fuel; simpl in Hlp;
      by injection Hlp as <-.
Qed.

(** * Further properties: snapshots join the graph *)

Lemma alter_fixed {A} (f : A → A) (l : list A) i :
  (∀ x, l !! i = Some x → f x = x) → alter f i l = l.
Proof.
  intros Hf. apply list_eq. intros j. destruct (decide (i = j)) as [->|Hne].
  - rewrite list_lookup_alter_eq. destruct (l !! j) as [x|] eqn:Hx; simpl; [|done].
    by rewrite Hf.
  - by rewrite list_lookup_alter_ne.
Qed.

Lemma with_own_previous n : with_previous (_previous n) n = n.
Proof. by destruct n. Qed.
Lemma with_own_next n : with_next (_next n) n = n.
Proof. by destruct n. Qed.

(** The registration at the end of the constructor does to the sets what
    [set_previous] and [set_next] would do with the pointers the node has. *)
Lemma register_links_eq s this n :
  nodes s !! this = Some n →
  valid_ref s (_previous n) → valid_ref s (_next n) →
  register_links this s
  = Ret tt (set_nodes
              (next_linked this (_next n) (previous_linked this (_previous n) (nodes s)))
              s).
Proof.
  intros Hn Hp Hx. assert (this < length (nodes s)) as Hthis by (by eapply lookup_lt_Some).
  assert (previous_linked this (_previous n) (nodes s)
          = match _previous n with
            | Some p => alter (progeny_add this) p (alter (ancestors_add p) this (nodes s))
            | None => nodes s
            end) as Hprev.
  { unfold previous_linked.
    destruct (_previous n) as [p|] eqn:Hpn;
      rewrite (alter_fixed (with_previous _)); try done;
      intros n' Hn'; rewrite Hn in Hn'; injection Hn' as <-;
      rewrite <- Hpn; apply with_own_previous. }
  set (ns1 := previous_linked this (_previous n) (nodes s)) in *.
  assert (∃ n1, ns1 !! this = Some n1 ∧ _next n1 = _next n) as (n1 & Hn1 & Hnext1).
  { pose proof (previous_linked_proj (nodes s) this (_previous n) _next this) as H.
    fold ns1 in H. rewrite Hn in H.
    destruct (ns1 !! this) as [n1|]; [|by specialize (H (λ _ _, eq_refl)
                                                      (λ _ _, eq_refl) (λ _ _, eq_refl))].
    exists n1. split; [done|].
    specialize (H (λ _ _, eq_refl) (λ _ _, eq_refl) (λ _ _, eq_refl)).
    by injection H. }
  assert (length ns1 = length (nodes s)) as Hlen1.
  { unfold ns1. apply length_previous_linked. }
  assert (next_linked this (_next n) ns1
          = match _next n with
            | Some x => alter (ancestors_add this) x (alter (progeny_add x) this ns1)
            | None => ns1
            end) as Hnext.
  { unfold next_linked.
    destruct (_next n) as [nx|] eqn:Hnn;
      rewrite (alter_fixed (with_next _)); try done;
      intros n' Hn'; rewrite Hn1 in Hn'; injection Hn' as <-;
      rewrite <- Hnext1; apply with_own_next. }
  rewrite Hnext.
  (* run *)
  unfold register_links, previous, next.
  rewrite (bind_Ret _ _ s (_previous n) s)
    by (unfold bind, ret; by rewrite (get_node_eq _ _ _ Hn)).
  assert ((match _previous n with
           | Some prev =>
               modify_node this (ancestors_add prev) ;;
               modify_node prev (progeny_add this)
           | None => ret tt
           end) s = Ret tt (set_nodes ns1 s)) as Hhalf.
  { rewrite Hprev. destruct (_previous n) as [p|]; simpl in Hp.
    - unfold bind. rewrite modify_node_eq by done. cbv beta iota.
      rewrite modify_node_eq by (simpl; by rewrite length_alter). done.
    - by rewrite set_nodes_id. }
  rewrite (bind_Ret _ _ _ _ _ Hhalf).
  assert (nodes (set_nodes ns1 s) !! this = Some n1) as Hn1' by done.
  rewrite (bind_Ret _ _ (set_nodes ns1 s) (_next n1) (set_nodes ns1 s))
    by (unfold bind, ret; by rewrite (get_node_eq _ _ _ Hn1')).
  rewrite Hnext1. destruct (_next n) as [x|]; simpl in Hx.
  - unfold bind. rewrite modify_node_eq by (simpl; lia). cbv beta iota.
    rewrite modify_node_eq by (simpl; rewrite length_alter; lia). done.
  - done.
Qed.

(** A checkpoint joins the graph.  The snapshot [add_checkpoint] makes of a
    node is itself registered with that node's neighbours: it is added to the
    progeny of the node's previous and to the ancestors of the node's next. *)
Theorem add_checkpoint_registers_snapshot s h x link n :
  wf s → hists s !! h = Some x → nodes s !! link = Some n →
  ∃ s',
    add_checkpoint h link s = Ret h s'
    ∧ (∀ p, _previous n = Some p →
         ∃ P, progeny_at s' p = Some P ∧ length (nodes s) ∈ P)
    ∧ (∀ nx, _next n = Some nx →
         ∃ Q, ancestors_at s' nx = Some Q ∧ length (nodes s) ∈ Q).
Proof.
  intros Hwf Hx Hn.
  assert (h < length (hists s)) as Hh by (by eapply lookup_lt_Some).
  destruct (wf_node _ _ _ Hwf Hn) as (_ & Hp & Hnx).
  set (c := length (nodes s)).
  set (s0 := set_nodes (nodes s ++ [snapshot_of h n]) s).
  assert (nodes s0 !! c = Some (snapshot_of h n)) as Hc.
  { unfold s0, c. simpl. by rewrite list_lookup_middle. }
  assert (length (nodes s0) = S c) as Hlen0.
  { unfold s0, c. simpl. rewrite length_app. simpl. lia. }
  assert (valid_ref s0 (_previous n)) as Hp0.
  { destruct (_previous n); simpl in *; lia. }
  assert (valid_ref s0 (_next n)) as Hnx0.
  { destruct (_next n); simpl in *; lia. }
  pose proof (register_links_eq s0 c (snapshot_of h n) Hc Hp0 Hnx0) as Hreg.
  cbn [_previous _next snapshot_of] in Hreg.
  set (ns1 := previous_linked c (_previous n) (nodes s0)) in *.
  unfold add_checkpoint, bind, ret, Date_now.
  rewrite (create_snapshot_link_eq s h link n Hn). fold s0 c.
  unfold bind, ret. rewrite Hreg. cbv beta iota.
  rewrite modify_hist_eq by done.
  eexists. split; [reflexivity|]. unfold progeny_at, ancestors_at. simpl.
  assert (length ns1 = S c) as Hlen1.
  { unfold ns1. by rewrite length_previous_linked. }
  split.
  - intros p Hprev. rewrite Hprev in *. simpl in Hp0.
    destruct (previous_linked_progeny (nodes s0) c p) as (P & HP & HcP);
      [rewrite Hlen0; simpl in Hp; unfold c; lia|].
    assert (progeny_at (set_nodes ns1 s0) p = Some P) as HP1.
    { unfold progeny_at, ns1. simpl. by rewrite Hprev. }
    destruct (sets_grow_progeny (set_nodes ns1 s0)
                (set_nodes (next_linked c (_next n) ns1) s0) p P c) as (P' & HP' & HcP');
      [apply (relinked_grow _ _ (relinked_next_linked (set_nodes ns1 s0) c (_next n)))
      |exact HP1|done|].
    exists P'. done.
  - intros nx Hnext. rewrite Hnext in *. simpl in Hnx0.
    apply next_linked_ancestors. rewrite Hlen1. simpl in Hnx. unfold c. lia.
Qed.

(** * Concrete runs *)

(** [new LinkedChain({})] on the empty heap: node [0], history [0]. *)
Definition bare_store : Store := final (LinkedChain_new no_ingredients empty_store).


(** ** One update, two entries (claim C2) *)

Definition data_and_title (d : JsObj) (t : string) : Ingredients :=
  {| i_origin := None; i_parent := None; i_next := None; i_data := Some d;
     i_metadata := Some (titled t); i_is_snapshot := None; i_history := None |}.

(** C2 fails on the code: on the node [{ value: 0 }] titled "Root", the single
    call [update({ data: { value: 1 }, metadata: { title: "New" } })] appends
    two entries.  [update] first calls [update_metadata], whose own
    [add_entry] records the title, and then records the data at its end. *)
Lemma update_data_and_metadata_appends_two :
  length (timeline_of root_store 0) = 1
  ∧ ∃ s1, update 0 (data_and_title (value_obj 1) "New") root_store = Ret 0 s1
          ∧ (λ e, (data_delta e, delta_title <$> metadata_delta e))
              <$> drop 1 (timeline_of s1 0)
            = [(Some ∅, Some (Some (Some "New"%string)));
               (Some (value_obj 1), Some None)].
Proof.
  split; [by vm_compute|].
  eexists. split; [vm_compute; reflexivity|]. by vm_compute.
Qed.

(** ** [rebuild_at] on a history seeded without data (claims C1 and C3) *)

Definition title_only (t : string) : Ingredients :=
  {| i_origin := None; i_parent := None; i_next := None; i_data := None;
     i_metadata := Some (titled t); i_is_snapshot := None; i_history := None |}.

(** [n = new LinkedChain({ metadata: { title: "a" } })] followed by
    [n.update({ metadata: { title: "b" } })]: the timeline is the genesis
    checkpoint and one entry [{ data_delta: {}, metadata_delta: { title: "b" } }]. *)
Definition retitled_store : Store :=
  final (update 0 (title_only "b")
           (final (LinkedChain_new (title_only "a") empty_store))).

Lemma retitled_store_timeline :
  (λ e, (data_delta e, delta_title <$> metadata_delta e, checkpoint e))
    <$> timeline_of retitled_store 0
  = [(None, None, Some 3); (Some ∅, Some (Some (Some "b"%string)), None)].
Proof. by vm_compute. Qed.

(** On this history the reconstruction has no result: index [1] is in bounds,
    yet [rebuild_at(1)] throws a [TypeError] instead of returning a snapshot,
    which is why C1 asks for a node constructed with data.  The entry's [data_delta]
    is the empty object, which is truthy, and the base copied from the
    checkpoint has no data, so [Object.assign(baselink.data(), {})] is
    applied to [undefined]. *)
Lemma rebuild_at_throws_without_seed_data :
  length (timeline_of retitled_store 0) = 2
  ∧ ∃ s', rebuild_at 0 1 retitled_store = Throw TypeError s'.
Proof.
  split; [by vm_compute|]. eexists. vm_compute. reflexivity.
Qed.

(** C3 fails on the code at the same input, through the same call:
    [branch_from_history(1)] throws the [TypeError] of [rebuild_at] and
    returns no node. *)
Lemma branch_from_history_throws_without_seed_data :
  length (timeline_of retitled_store 0) = 2
  ∧ ∃ s', branch_from_history 0 1 retitled_store = Throw TypeError s'.
Proof.
  split; [by vm_compute|]. eexists. vm_compute. reflexivity.
Qed.

(** ** C9: a self-loop yields the start *)

(** [n = new LinkedChain({})] followed by [n.set_next(n)]. *)
Definition self_loop_store : Store := final (set_next 0 (Some 0) true bare_store).

(** The claim of C9 fails when [this.next() === this]: the chain returns to
    the start after one hop, and every run of [iterate('next')] that ends
    has yielded the start. *)
Lemma self_loop_yields_start :
  walk self_loop_store Dnext 1 (Some 0) = Some 0
  ∧ iterate 1 self_loop_store 0 Dnext = Some [0]
  ∧ ∀ fuel l, iterate fuel self_loop_store 0 Dnext = Some l → 0 ∈ l.
Proof.
  assert (step self_loop_store Dnext 0 = Some 0) as Hstep by (by vm_compute).
  split; [by vm_compute|]. split; [by vm_compute|].
  intros fuel l. unfold iterate. rewrite Hstep.
  destruct fuel as [|fuel]; cbn [iterate_loop]; [done|].
  rewrite Hstep. rewrite decide_True by done.
  intros [= <-]. apply list_elem_of_here.
Qed.



(** * The theorems at concrete inputs *)

(** Two unrelated fresh nodes: references [0] and [4], histories [0] and [1]. *)
Definition two_nodes : Store :=
  final ((LinkedChain_new no_ingredients ;; LinkedChain_new no_ingredients) empty_store).

(** [root_store] after [update({ data: { value: 10 } })] and
    [update({ data: { value: 20 } })]. *)
Definition twice_updated : Store :=
  final ((update 0 (data_only (value_obj 10)) ;; update 0 (data_only (value_obj 20)))
           root_store).


Lemma delta_between_points_spec_witness :
  length (timeline_of twice_updated 0) = 3
  ∧ delta_between_points 0 0 2 twice_updated = Ret (value_obj 20) twice_updated
  ∧ delta_between_points 0 2 1 twice_updated = Ret ∅ twice_updated.
Proof.
  split; [by vm_compute|]. split.
  - etrans.
    + eapply (delta_between_points_spec twice_updated 0 _ 0 2).
      * vm_compute. reflexivity.
      * vm_compute. split; [discriminate|reflexivity].
      * vm_compute. split; [discriminate|reflexivity].
    + vm_compute. reflexivity.
  - etrans.
    + eapply (delta_between_points_spec twice_updated 0 _ 2 1).
      * vm_compute. reflexivity.
      * vm_compute. split; [discriminate|reflexivity].
      * vm_compute. split; [discriminate|reflexivity].
    + vm_compute. reflexivity.
Defined.

Lemma link_next_bidirectional_witness :
  ∃ s' na nb,
    link_next 0 4 two_nodes = Ret 0 s'
    ∧ nodes s' !! 0 = Some na ∧ nodes s' !! 4 = Some nb
    ∧ _next na = Some 4 ∧ _previous nb = Some 0
    ∧ 4 ∈ _progeny na ∧ 0 ∈ _ancestors nb.
Proof.
  apply (link_next_bidirectional two_nodes 0 4).
  - apply (bool_decide_unpack _). vm_compute. exact I.
  - vm_compute. lia.
  - vm_compute. lia.
Defined.

(** [a.set_next(b)] then [a.set_next(null)]: [b] stays in [a.progeny()]. *)
Lemma ancestors_progeny_monotonic_witness :
  let s := final (set_next 0 (Some 4) true two_nodes) in
  ∃ n n',
    nodes s !! 0 = Some n ∧ 4 ∈ _progeny n
    ∧ nodes (calls [Call_set_next 0 None true] s) !! 0 = Some n'
    ∧ _progeny n ⊆ _progeny n' ∧ _ancestors n ⊆ _ancestors n'.
Proof.
  intros s.
  eassert (nodes s !! 0 = Some _) as Hn by (vm_compute; reflexivity).
  destruct (ancestors_progeny_monotonic [Call_set_next 0 None true] s 0 _ Hn)
    as (n' & Hn' & Hp & Ha).
  eexists _, n'. split; [exact Hn|]. split.
  - apply (bool_decide_unpack _). vm_compute. exact I.
  - split; [exact Hn'|]. split; [exact Hp|exact Ha].
Defined.

(** The cycle [0 → 4 → 0]. *)
Definition cycle_store : Store :=
  final ((set_next 0 (Some 4) true ;; set_next 4 (Some 0) true) two_nodes).

Lemma iterate_finite_witness :
  ∃ l, iterate 2 cycle_store 0 Dnext = Some l
       ∧ (step cycle_store Dnext 0 ≠ Some 0 → 0 ∉ l)
       ∧ (step cycle_store Dnext 0 = Some 0 → l = [0]).
Proof.
  apply (iterate_finite cycle_store 0 Dnext 2).
  - lia.
  - right. vm_compute. reflexivity.
Defined.



(** [root_store] after [update({ data: { value: 10 } })],
    [history().save_checkpoint()] and [update({ data: { value: 20 } })]: the
    timeline has the four entries checkpoint, delta, checkpoint, delta. *)
Definition checkpointed_store : Store :=
  final ((update 0 (data_only (value_obj 10)) ;;
          save_checkpoint 0 ;;
          update 0 (data_only (value_obj 20))) root_store).


(** * The further properties at concrete inputs *)

(** [root.new_next_link({ value: 1 }).new_next_link({ value: 2 })]: the chain
    [0 → 4 → 8] of three nodes. *)
Definition chain_store : Store :=
  final ((let* n1 := new_next_link 0 (value_obj 1) None in
          new_next_link n1 (value_obj 2) None) root_store).

(** Two fresh nodes with [0.next = 4] and [4.next = 4]: a chain that loops
    without passing its start. *)
Definition lasso_store : Store :=
  final ((set_next 0 (Some 4) true ;; set_next 4 (Some 4) true) two_nodes).

Lemma delta_between_points_compose_witness :
  ∃ dab dbc,
    delta_between_points 0 0 1 twice_updated = Ret dab twice_updated
    ∧ delta_between_points 0 1 2 twice_updated = Ret dbc twice_updated
    ∧ delta_between_points 0 0 2 twice_updated
      = Ret (object_assign dab dbc) twice_updated.
Proof.
  eapply (delta_between_points_compose twice_updated 0 _ 0 1 2).
  - vm_compute. reflexivity.
  - lia.
  - lia.
  - lia.
  - vm_compute. reflexivity.
Defined.

Lemma find_first_match_witness :
  find 3 chain_store 4 (λ l, bool_decide (data_at chain_store l = Some (value_obj 0)))
  = Some (List.find (λ l, bool_decide (data_at chain_store l = Some (value_obj 0)))
            (4 :: [8] ++ [0])).
Proof.
  apply (find_first_match 3 chain_store 4 _ [8] [0]).
  - vm_compute. reflexivity.
  - vm_compute. reflexivity.
Defined.

Lemma iterate_never_ends_witness : iterate 1000 lasso_store 0 Dnext = None.
Proof.
  refine (iterate_never_ends lasso_store 0 Dnext 1 1 _ _ _ _ 1000).
  - lia.
  - lia.
  - vm_compute. reflexivity.
  - intros k Hk1 Hk2. assert (k = 1) as -> by lia.
    split; vm_compute; discriminate.
Defined.

Lemma iterate_in_order_witness :
  (∀ i c, [4; 8] !! i = Some c → walk chain_store Dnext (S i) (Some 0) = Some c)
  ∧ (walk chain_store Dnext 3 (Some 0) = None
     ∨ walk chain_store Dnext 3 (Some 0) = Some 0).
Proof.
  apply (iterate_in_order chain_store 0 Dnext 3 [4; 8]).
  vm_compute. reflexivity.
Defined.

Lemma has_circular_link_sound_witness :
  (@inr exn bool true = inr true ∧ ∀ k, walk cycle_store Dnext k (Some 0) ≠ None)
  ∨ (@inr exn bool true = inr false ∧ ∃ k, walk cycle_store Dnext k (Some 0) = None).
Proof.
  apply (has_circular_link_sound cycle_store 0 2).
  vm_compute. reflexivity.
Defined.

Lemma has_circular_link_false_witness :
  has_circular_link 3 chain_store 0 = Some (inr false).
Proof.
  apply (has_circular_link_false chain_store 0 3 3).
  - vm_compute. reflexivity.
  - lia.
Defined.

Lemma has_circular_link_true_witness :
  has_circular_link 2 cycle_store 0 = Some (inr true).
Proof.
  apply (has_circular_link_true cycle_store 0 0 2 2).
  - lia.
  - vm_compute. reflexivity.
  - vm_compute. discriminate.
  - lia.
Defined.

Lemma timeline_append_only_witness :
  let cs := [Do_update 0 (data_only (value_obj 1)); Do_revert_to_history 0 0;
             Do_save_checkpoint 0] in
  ∃ x x',
    hists root_store !! 0 = Some x
    ∧ hists (run_methods cs root_store) !! 0 = Some x'
    ∧ _timeline x `prefix_of` _timeline x'
    ∧ _saved_checkpoints x `prefix_of` _saved_checkpoints x'
    ∧ _original_state x' = _original_state x
    ∧ _latest_state x' = _latest_state x.
Proof.
  intros cs.
  eassert (hists root_store !! 0 = Some _) as Hx by (vm_compute; reflexivity).
  destruct (timeline_append_only cs root_store 0 _ Hx) as (x' & Hx' & H).
  eexists _, x'. split; [exact Hx|]. split; [exact Hx'|exact H].
Defined.

(** [update({ data: { value: 1 }, is_snapshot: true })]: the flag stays. *)
Lemma node_identity_fixed_witness :
  let d := {| i_origin := Some 4; i_parent := None; i_next := None;
              i_data := Some (value_obj 1); i_metadata := None;
              i_is_snapshot := Some true; i_history := Some 1 |} in
  ∃ n n',
    nodes two_nodes !! 0 = Some n
    ∧ nodes (run_methods [Do_update 0 d] two_nodes) !! 0 = Some n'
    ∧ _origin n' = _origin n
    ∧ _chain_link_history n' = _chain_link_history n
    ∧ _is_snapshot n' = _is_snapshot n.
Proof.
  intros d.
  eassert (nodes two_nodes !! 0 = Some _) as Hn by (vm_compute; reflexivity).
  destruct (node_identity_fixed [Do_update 0 d] two_nodes 0 _ Hn) as (n' & Hn' & H).
  eexists _, n'. split; [exact Hn|]. split; [exact Hn'|exact H].
Defined.

Lemma add_checkpoint_appends_witness :
  ∃ s' nc,
    add_checkpoint 0 4 two_nodes = Ret 0 s'
    ∧ nodes s' !! 8 = Some nc
    ∧ _chain_link_history nc = 0
    ∧ _is_snapshot nc = true.
Proof.
  eassert (hists two_nodes !! 0 = Some _) as Hx by (vm_compute; reflexivity).
  eassert (nodes two_nodes !! 4 = Some _) as Hn by (vm_compute; reflexivity).
  assert (wf two_nodes) as Hwf by (apply (bool_decide_unpack _); vm_compute; exact I).
  destruct (add_checkpoint_appends two_nodes 0 _ 4 _ Hwf Hx Hn) as
    (s' & nc & Hrun & _ & _ & Hnc & _ & _ & Hh & Hs).
  exists s', nc. split; [exact Hrun|]. split; [exact Hnc|]. split; [exact Hh|exact Hs].
Defined.

Lemma add_checkpoint_registers_snapshot_witness :
  ∃ s',
    add_checkpoint 1 4 chain_store = Ret 1 s'
    ∧ (∃ P, progeny_at s' 0 = Some P ∧ 12 ∈ P)
    ∧ (∃ Q, ancestors_at s' 8 = Some Q ∧ 12 ∈ Q).
Proof.
  eassert (hists chain_store !! 1 = Some _) as Hx by (vm_compute; reflexivity).
  eassert (nodes chain_store !! 4 = Some _) as Hn by (vm_compute; reflexivity).
  assert (wf chain_store) as Hwf by (apply (bool_decide_unpack _); vm_compute; exact I).
  destruct (add_checkpoint_registers_snapshot chain_store 1 _ 4 _ Hwf Hx Hn) as
    (s' & Hrun & Hp & Hq).
  exists s'. split; [exact Hrun|]. split.
  - apply (Hp 0). reflexivity.
  - apply (Hq 8). reflexivity.
Defined.


Lemma revert_to_history_out_of_bounds_witness :
  revert_to_history 0 5 root_store = Ret 0 root_store
  ∧ revert_to_history 0 (-1) root_store = Ret 0 root_store.
Proof.
  eassert (nodes root_store !! 0 = Some _) as Hn by (vm_compute; reflexivity).
  eassert (hists root_store !! 0 = Some _) as Hx by (vm_compute; reflexivity).
  split.
  - apply (revert_to_history_out_of_bounds root_store 0 _ _ 5 Hn Hx).
    right. vm_compute. discriminate.
  - apply (revert_to_history_out_of_bounds root_store 0 _ _ (-1) Hn Hx).
    left. vm_compute. reflexivity.
Defined.

Lemma update_metadata_id_extra_not_recorded_witness :
  let m := {| md_id := Some (PNum 7); md_title := None; md_description := None;
              md_extra := Some ∅ |} in
  ∃ s', update_metadata 0 m root_store = Ret 0 s' ∧ hists s' = hists root_store.
Proof.
  intros m.
  eassert (nodes root_store !! 0 = Some _) as Hni by (vm_compute; reflexivity).
  eassert (hists root_store !! 0 = Some _) as Hx by (vm_compute; reflexivity).
  eassert (nodes root_store !! 2 = Some _) as Hnl by (vm_compute; reflexivity).
  eexists. split.
  - eapply (update_metadata_id_extra_not_recorded root_store 0 _ _ _ m Hni Hx Hnl).
    + apply (bool_decide_unpack _). vm_compute. exact I.
    + apply records_false_iff. vm_compute. reflexivity.
    + reflexivity.
    + reflexivity.
  - reflexivity.
Defined.

Lemma pointer_change_not_recorded_witness :
  set_next 0 (Some 4) true two_nodes
  = Ret 0 (set_nodes (next_linked 0 (Some 4) (nodes two_nodes)) two_nodes)
  ∧ set_previous 0 (Some 4) true two_nodes
    = Ret 0 (set_nodes (previous_linked 0 (Some 4) (nodes two_nodes)) two_nodes).
Proof.
  eassert (nodes two_nodes !! 0 = Some _) as Hni by (vm_compute; reflexivity).
  eassert (hists two_nodes !! 0 = Some _) as Hx by (vm_compute; reflexivity).
  eassert (nodes two_nodes !! 2 = Some _) as Hnl by (vm_compute; reflexivity).
  apply (pointer_change_not_recorded two_nodes 0 _ _ _ (Some 4) Hni Hx Hnl).
  - apply records_false_iff. vm_compute. reflexivity.
  - vm_compute. lia.
Defined.

(** Builds the derivation that [checkpointed_store] is the lineage of node
    [0], constructed with [{ value: 0 }]. *)
Ltac checkpointed_store_seeded :=
  eapply (seeded_call _ 0 0 _ (Ledger_update (data_only (value_obj 20))));
  [ eapply (seeded_call _ 0 0 _ Ledger_save_checkpoint);
    [ eapply (seeded_call _ 0 0 _ (Ledger_update (data_only (value_obj 10))));
      [ eapply (seeded_new empty_store
                  {| i_origin := None; i_parent := None; i_next := None;
                     i_data := Some (value_obj 0);
                     i_metadata := Some (titled "Root");
                     i_is_snapshot := None; i_history := None |});
        [ apply (bool_decide_unpack _); vm_compute; exact I
        | exact I | exact I | reflexivity | reflexivity
        | vm_compute; reflexivity ]
      | split; exact I
      | vm_compute; reflexivity ]
    | exact I
    | vm_compute; reflexivity ]
  | split; exact I
  | vm_compute; reflexivity ].

Lemma revert_to_history_restores_witness :
  ∃ s' x',
    revert_to_history 0 1 checkpointed_store = Ret 0 s'
    ∧ data_at s' 0 = Some (value_obj 10)
    ∧ hists s' !! 0 = Some x'
    ∧ 4 ≤ length (_timeline x').
Proof.
  assert (seeded checkpointed_store 0 0 (value_obj 0)) as Hseed
    by checkpointed_store_seeded.
  eassert (hists checkpointed_store !! 0 = Some _) as Hx by (vm_compute; reflexivity).
  edestruct (revert_to_history_restores checkpointed_store 0 0 (value_obj 0) _ 1 Hseed Hx)
    as (s' & x' & es & Hrun & Hdata & Hx' & Htl & _).
  - vm_compute. split; [discriminate|reflexivity].
  - exists s', x'. split; [exact Hrun|]. split.
    + etrans; [exact Hdata|]. vm_compute. reflexivity.
    + split; [exact Hx'|]. rewrite Htl, length_app. simpl. lia.
Defined.

Lemma delta_between_points_bridges_witness :
  ∃ si bi ni di sj bj nj dd,
    rebuild_at 0 1 checkpointed_store = Ret (Some bi) si
    ∧ nodes si !! bi = Some ni ∧ _data ni = Some di
    ∧ rebuild_at 0 3 checkpointed_store = Ret (Some bj) sj
    ∧ nodes sj !! bj = Some nj
    ∧ delta_between_points 0 1 3 checkpointed_store = Ret dd checkpointed_store
    ∧ _data nj = Some (object_assign di dd).
Proof.
  assert (seeded checkpointed_store 0 0 (value_obj 0)) as Hseed
    by checkpointed_store_seeded.
  eassert (hists checkpointed_store !! 0 = Some _) as Hx by (vm_compute; reflexivity).
  eapply (delta_between_points_bridges checkpointed_store 0 0 (value_obj 0) _ 1 3 Hseed Hx).
  - lia.
  - lia.
  - vm_compute. reflexivity.
Defined.

(** Three fresh nodes [0], [4], [8], then [0.link_next(4)]. *)
Definition linked_pair_store : Store :=
  final ((LinkedChain_new no_ingredients ;; LinkedChain_new no_ingredients ;;
          LinkedChain_new no_ingredients ;; link_next 0 4) empty_store).

(** [0.link_next(8)] when [0.next] is [4]: [8.next] becomes [4], and
    [4.previous] stays [0]. *)
Lemma link_next_splices_witness :
  ∃ s',
    link_next 0 8 linked_pair_store = Ret 0 s'
    ∧ next_at s' 8 = Some (Some 4)
    ∧ previous_at s' 4 = Some (Some 0)
    ∧ ∃ Q, ancestors_at s' 4 = Some Q ∧ 8 ∈ Q.
Proof.
  assert (wf linked_pair_store) as Hwf
    by (apply (bool_decide_unpack _); vm_compute; exact I).
  edestruct (link_next_splices linked_pair_store 0 8 (Some 4) Hwf)
    as (s' & Hrun & Hb & _ & Hp & Hq).
  - vm_compute. lia.
  - vm_compute. lia.
  - vm_compute. reflexivity.
  - exists s'. split; [exact Hrun|]. split; [apply Hb; discriminate|]. split.
    + etrans; [apply Hp; discriminate|]. vm_compute. reflexivity.
    + apply Hq. reflexivity.
Defined.

(** [4.link_previous(8)] when [4.previous] is [0]: [0.next] becomes [8]. *)
Lemma link_previous_splices_witness :
  ∃ s',
    link_previous 4 8 linked_pair_store = Ret 4 s'
    ∧ previous_at s' 4 = Some (Some 8)
    ∧ next_at s' 8 = Some (Some 4)
    ∧ previous_at s' 8 = Some (Some 0)
    ∧ next_at s' 0 = Some (Some 8).
Proof.
  assert (wf linked_pair_store) as Hwf
    by (apply (bool_decide_unpack _); vm_compute; exact I).
  edestruct (link_previous_splices linked_pair_store 4 8 (Some 0) Hwf)
    as (s' & Hrun & Ha & Hb & _ & _ & Hbp & Hold & _).
  - vm_compute. lia.
  - vm_compute. lia.
  - vm_compute. reflexivity.
  - exists s'. split; [exact Hrun|]. split; [exact Ha|]. split; [exact Hb|]. split.
    + apply Hbp. discriminate.
    + apply (Hold 0); [reflexivity|discriminate].
Defined.

Lemma new_next_link_splices_witness :
  ∃ s' nn,
    new_next_link 0 (value_obj 1) None root_store = Ret 4 s'
    ∧ nodes s' !! 4 = Some nn
    ∧ _data nn = Some (value_obj 1)
    ∧ _origin nn = Some 0
    ∧ _previous nn = Some 0
    ∧ next_at s' 0 = Some (Some 4).
Proof.
  assert (wf root_store) as Hwf by (apply (bool_decide_unpack _); vm_compute; exact I).
  eassert (nodes root_store !! 0 = Some _) as Hna by (vm_compute; reflexivity).
  destruct (new_next_link_splices root_store 0 _ (value_obj 1) None Hwf Hna)
    as (s' & nn & Hrun & Hnn & Hd & Ho & _ & Hp & _ & Hnext & _).
  exists s', nn. split; [exact Hrun|]. split; [exact Hnn|]. split; [exact Hd|].
  split; [exact Ho|]. split; [exact Hp|exact Hnext].
Defined.

Lemma add_link_registers_witness :
  ∃ s',
    add_link 0 4 two_nodes = Ret 4 s'
    ∧ (∃ P, progeny_at s' 0 = Some P ∧ 4 ∈ P)
    ∧ (∃ Q, ancestors_at s' 4 = Some Q ∧ 0 ∈ Q)
    ∧ next_at s' 0 = Some None ∧ previous_at s' 4 = Some None.
Proof.
  assert (wf two_nodes) as Hwf by (apply (bool_decide_unpack _); vm_compute; exact I).
  edestruct (add_link_registers two_nodes 0 4 Hwf) as (s' & Hrun & HP & HQ & Hptr).
  - vm_compute. lia.
  - vm_compute. lia.
  - exists s'. split; [exact Hrun|]. split; [exact HP|]. split; [exact HQ|]. split.
    + etrans; [apply (Hptr 0)|]. vm_compute. reflexivity.
    + etrans; [apply (Hptr 4)|]. vm_compute. reflexivity.
Defined.

(** [0.update({ next: 4 })]: [4.previous] stays [null]. *)
Lemma update_relinks_witness :
  let d := {| i_origin := None; i_parent := None; i_next := Some (Some 4);
              i_data := None; i_metadata := None; i_is_snapshot := None;
              i_history := None |} in
  ∃ s',
    update 0 d two_nodes = Ret 0 s'
    ∧ next_at s' 0 = Some (Some 4)
    ∧ previous_at s' 4 = Some None
    ∧ ∃ Q, ancestors_at s' 4 = Some Q ∧ 0 ∈ Q.
Proof.
  intros d.
  assert (wf two_nodes) as Hwf by (apply (bool_decide_unpack _); vm_compute; exact I).
  edestruct (update_relinks two_nodes 0 d Hwf) as (s' & Hrun & Hn & _ & Ho & Hs & _).
  - vm_compute. lia.
  - vm_compute. lia.
  - exact I.
  - exists s'. split; [exact Hrun|]. split; [exact Hn|]. split.
    + etrans; [apply (Ho 4); discriminate|]. vm_compute. reflexivity.
    + apply (Hs 4). reflexivity.
Defined.

(** [update({ data: { other: 1 } })] on the node [{ value: 0 }]: [data()]
    loses [value], [_latest_state] keeps it. *)
Lemma update_data_replaces_witness :
  ∃ s' latest_data,
    update 0 (data_only {["other"%string := PNum 1]}) root_store = Ret 0 s'
    ∧ data_at s' 0 = Some {["other"%string := PNum 1]}
    ∧ data_at s' 2 = Some latest_data
    ∧ js_get latest_data "value" = PNum 0
    ∧ js_get latest_data "other" = PNum 1.
Proof.
  eassert (nodes root_store !! 0 = Some _) as Hni by (vm_compute; reflexivity).
  eassert (hists root_store !! 0 = Some _) as Hx by (vm_compute; reflexivity).
  eassert (nodes root_store !! 2 = Some _) as Hnl by (vm_compute; reflexivity).
  edestruct (update_data_replaces root_store 0 _ _ _ (value_obj 0)
               {["other"%string := PNum 1]} Hni Hx Hnl)
    as (s' & ld & Hrun & Hd & Hl & Hk).
  - reflexivity.
  - apply (bool_decide_unpack _). vm_compute. exact I.
  - exists s', ld. split; [exact Hrun|]. split; [exact Hd|]. split; [exact Hl|]. split.
    + etrans; [apply Hk|]. vm_compute. reflexivity.
    + etrans; [apply Hk|]. vm_compute. reflexivity.
Defined.

Lemma rebuild_at_read_only_witness :
  ∃ r s',
    rebuild_at 0 1 twice_updated = Ret r s'
    ∧ hists s' = hists twice_updated
    ∧ ∃ n n', nodes twice_updated !! 0 = Some n ∧ nodes s' !! 0 = Some n'
              ∧ _data n' = _data n.
Proof.
  assert (wf twice_updated) as Hwf by (apply (bool_decide_unpack _); vm_compute; exact I).
  eassert (hists twice_updated !! 0 = Some _) as Hx by (vm_compute; reflexivity).
  eassert (rebuild_at 0 1 twice_updated = Ret _ _) as Hrun by (vm_compute; reflexivity).
  eassert (nodes twice_updated !! 0 = Some _) as Hn by (vm_compute; reflexivity).
  destruct (rebuild_at_read_only twice_updated 0 _ 1 _ _ Hwf Hx Hrun) as (Hh & Hold & _).
  destruct (Hold 0 _ Hn) as (n' & Hn' & Hd & _).
  eexists _, _. split; [exact Hrun|]. split; [exact Hh|].
  eexists _, n'. split; [exact Hn|]. split; [exact Hn'|exact Hd].
Defined.

(** In [linked_pair_store] the nodes [0] and [4] are linked and [8] stands
    alone: [0.connected_links()] holds [0] and not [8]. *)
Lemma connected_links_component_witness :
  ∃ result,
    connected_links elements (size ({[0; 4]} : gset loc)) linked_pair_store 0
      = Some result
    ∧ 0 ∈ result ∧ 8 ∉ result.
Proof.
  eassert (nodes linked_pair_store !! 0 = Some _) as H0 by (vm_compute; reflexivity).
  eassert (nodes linked_pair_store !! 4 = Some _) as H4 by (vm_compute; reflexivity).
  destruct (connected_links_component elements linked_pair_store {[0; 4]}) with (this := 0)
    as (result & Hrun & Hin & HrU & _).
  - intros X x. apply elem_of_elements.
  - intros l n Hl Hn. apply elem_of_union in Hl as [Hl|Hl]; apply elem_of_singleton in Hl;
      subst l.
    + rewrite H0 in Hn. injection Hn as <-.
      apply (bool_decide_unpack _). vm_compute. exact I.
    + rewrite H4 in Hn. injection Hn as <-.
      apply (bool_decide_unpack _). vm_compute. exact I.
  - apply (bool_decide_unpack _). vm_compute. exact I.
  - exists result. split; [exact Hrun|]. split; [exact Hin|].
    intros H8. apply HrU in H8. revert H8.
    apply (bool_decide_unpack _). vm_compute. exact I.
Defined.

(** From the middle node [4] of the chain [0 → 4 → 8]: the ends are [0] and
    [8]. *)
Lemma final_ancestor_and_progeny_ends_witness :
  final_ancestor_and_progeny 3 chain_store 4 = Some (0, 8)
  ∧ (step chain_store Dprevious 0 = None ∨ step chain_store Dprevious 0 = Some 4)
  ∧ (step chain_store Dnext 8 = None ∨ step chain_store Dnext 8 = Some 4).
Proof.
  assert (final_ancestor_and_progeny 3 chain_store 4 = Some (0, 8)) as Hrun
    by (vm_compute; reflexivity).
  destruct (final_ancestor_and_progeny_ends 3 chain_store 4 0 8 Hrun) as (Ha & Hp & _).
  split; [exact Hrun|]. split; [exact Ha|exact Hp].
Defined.
